(** * Node editing of polygons and bezier curves (editpolygontool.cpp)

    A shallow embedding of the three node operations of the polygon edit
    tool: [EditPolygonTool::deleteNodes], [joinPolygonNodes] with its caller
    [EditPolygonTool::joinNodes], and [splitPolygonSegments] with its caller
    [EditPolygonTool::splitSegments].  The operations are given twice: on
    one object with its range set, and on the set of selected handles, as
    the tool runs them, with [groupIndexesByObject], the undo macro and
    [setSelectedHandles].

    Conventions.
    - A C++ [int] index is a [Z].  Every index expression of the code stays
      between [-1] and the size of the vector plus one, so no wrap-around
      can occur on a vector that fits in memory.
    - [qreal] arithmetic is left abstract (class [QReal]): the theorems hold
      for every choice of addition and division, floating point included.
    - A [QVector] access outside the bounds (an assertion failure and
      undefined behaviour in C++) and the decrement of a [begin()] iterator
      are errors: the operation returns [None].
    - Handles and map objects are pointers in the code: here they are
      numbers, with a memory that gives the handle or the object of each. *)

From Stdlib Require Import ZArith List Lia Bool QArith.
Import ListNotations.
Open Scope Z_scope.

Set Implicit Arguments.

(** ** The error monad *)

Definition bind {A B : Type} (m : option A) (k : A -> option B) : option B :=
  match m with
  | Some a => k a
  | None => None
  end.

Notation "x <- m ;; k" := (bind m (fun x => k))
  (at level 61, m at next level, right associativity).

(** ** QVector<T> *)

Module QVector.
Section Ops.
Context {T : Type}.

Definition size (v : list T) : Z := Z.of_nat (length v).

Definition inRange (v : list T) (i : Z) : bool :=
  (0 <=? i) && (i <? size v).

(** [v.at(i)] *)
Definition at_ (v : list T) (i : Z) : option T :=
  if inRange v i then nth_error v (Z.to_nat i) else None.

(** [v.first()] and [v.last()] *)
Definition first (v : list T) : option T := at_ v 0.
Definition last (v : list T) : option T := at_ v (size v - 1).

(** [v.append(x)] *)
Definition append (v : list T) (x : T) : list T := v ++ [x].

(** [v.remove(i, n)]: erases the [n] elements from position [i] on. *)
Definition remove (v : list T) (i n : Z) : option (list T) :=
  if (0 <=? i) && (0 <=? n) && (i + n <=? size v)
  then Some (firstn (Z.to_nat i) v ++ skipn (Z.to_nat (i + n)) v)
  else None.

(** [v.replace(i, x)] *)
Definition replace (v : list T) (i : Z) (x : T) : option (list T) :=
  if inRange v i
  then Some (firstn (Z.to_nat i) v ++ x :: skipn (Z.to_nat (i + 1)) v)
  else None.

(** [v.insert(i, x)]: [x] is put before position [i]; [i = size] appends. *)
Definition insert (v : list T) (i : Z) (x : T) : option (list T) :=
  if (0 <=? i) && (i <=? size v)
  then Some (firstn (Z.to_nat i) v ++ x :: skipn (Z.to_nat i) v)
  else None.
End Ops.
End QVector.

(** ** RangeSet<int> *)

(** Modelled from the spec: the class [RangeSet<int>] (rangeset.h) is not
    part of the source file.  A range is an inclusive interval
    [[first, last]] with [length = last - first + 1]; a range set is the
    ascending sequence of its ranges; an iterator is a position in that
    sequence, [begin()] being position [0] and [end()] the position past
    the last range. *)
Module Range.
Record t : Type := mk { first : Z; last : Z }.
Definition length (r : t) : Z := last r - first r + 1.
End Range.

Definition RangeSet : Type := list Range.t.

Module RangeSet.
Definition isEmpty (s : RangeSet) : bool :=
  match s with [] => true | _ => false end.
Definition begin (s : RangeSet) : nat := 0%nat.
Definition end_ (s : RangeSet) : nat := List.length s.
(** [--it]; stepping back from [begin()] is an error. *)
Definition dec (it : nat) : option nat :=
  match it with O => None | S k => Some k end.
(** The range an iterator points to; [end()] points to none. *)
Definition deref (s : RangeSet) (it : nat) : option Range.t :=
  nth_error s it.
End RangeSet.

(** The ranges of a range set ascend, are pairwise disjoint and lie in
    [[lo, hi)].  Two neighbouring ranges may touch: the invariant of the
    class, which keeps a gap between them, is not needed. *)
Fixpoint ranges_in (lo hi : Z) (s : RangeSet) : Prop :=
  match s with
  | [] => True
  | r :: s' =>
      lo <= Range.first r /\ Range.first r <= Range.last r /\
      Range.last r < hi /\ ranges_in (Range.last r + 1) hi s'
  end.

(** Index [i] is covered by one of the ranges. *)
Definition selected (s : RangeSet) (i : Z) : bool :=
  existsb (fun r => (Range.first r <=? i) && (i <=? Range.last r)) s.

(** ** The two backward loops over a range set *)

Section Loops.
Context {S : Type}.
Variable body : Range.t -> S -> option S.
Variable ranges : RangeSet.

(** [while (it != firstRange) { --it; body }] *)
Fixpoint whileDesc (firstRange it : nat) (s : S) : option S :=
  if Nat.eqb it firstRange then Some s
  else match it with
       | O => None
       | Datatypes.S it' =>
           r <- RangeSet.deref ranges it' ;;
           s' <- body r s ;;
           whileDesc firstRange it' s'
       end.

(** [do { --it; body } while (it != firstRange);] *)
Fixpoint doWhileDesc (firstRange it : nat) (s : S) : option S :=
  match it with
  | O => None
  | Datatypes.S it' =>
      r <- RangeSet.deref ranges it' ;;
      s' <- body r s ;;
      if Nat.eqb it' firstRange then Some s'
      else doWhileDesc firstRange it' s'
  end.
End Loops.

(** ** Points *)

Class QReal (R : Type) : Type := {
  rzero : R;
  radd : R -> R -> R;
  rdiv : R -> R -> R;
  rofint : Z -> R
}.

Section Geometry.
Context {R : Type} `{QReal R}.

Record QPointF : Type := mkPoint { xp : R; yp : R }.

(** [QPointF()] *)
Definition pnull : QPointF := mkPoint rzero rzero.
(** [p + q], [p += q] *)
Definition padd (p q : QPointF) : QPointF :=
  mkPoint (radd (xp p) (xp q)) (radd (yp p) (yp q)).
(** [p / c], [p /= c] for an [int] divisor *)
Definition pdiv (p : QPointF) (c : Z) : QPointF :=
  mkPoint (rdiv (xp p) (rofint c)) (rdiv (yp p) (rofint c)).

Definition QPolygonF : Type := list QPointF.

(** [for (int i = from; i <= to; i++) acc += polygon.at(i - offset);]
    with [count] the number of iterations left. *)
Fixpoint sumAt (polygon : QPolygonF) (offset : Z) (count : nat) (i : Z)
         (acc : QPointF) : option QPointF :=
  match count with
  | O => Some acc
  | Datatypes.S c =>
      p <- QVector.at_ polygon (i - offset) ;;
      sumAt polygon offset c (i + 1) (padd acc p)
  end.

Definition sumRange (polygon : QPolygonF) (offset : Z) (r : Range.t)
           (acc : QPointF) : option QPointF :=
  sumAt polygon offset (Z.to_nat (Range.length r)) (Range.first r) acc.

(** *** joinPolygonNodes *)

(** The body of the loop over the remaining ranges. *)
Definition joinBody (polygon : QPolygonF) (indexOffset : Z)
           (it : Range.t) (result : QPolygonF) : option QPolygonF :=
  sum <- sumRange polygon indexOffset it pnull ;;
  let averagePoint := pdiv sum (Range.length it) in
  result <- QVector.remove result (Range.first it + 1 - indexOffset)
                           (Range.length it - 1) ;;
  QVector.replace result (Range.first it - indexOffset) averagePoint.

Definition joinPolygonNodes (polygon : QPolygonF) (indexRanges : RangeSet)
           (closed : bool) : option QPolygonF :=
  if RangeSet.isEmpty indexRanges then Some polygon else
  let n := QVector.size polygon in
  if n <? 3 then Some polygon else
  let firstRange := RangeSet.begin indexRanges in
  let it := RangeSet.end_ indexRanges in
  lastRange <- RangeSet.dec it ;;
  fr <- RangeSet.deref indexRanges firstRange ;;
  lr <- RangeSet.deref indexRanges lastRange ;;
  if (Range.first fr =? 0) && (Range.last lr =? n - 1) then
    if Nat.eqb firstRange lastRange then Some polygon
    else if closed then
      sum <- sumRange polygon 0 fr pnull ;;
      sum <- sumRange polygon 0 lr sum ;;
      let averagePoint := pdiv sum (Range.length fr + Range.length lr) in
      result <- QVector.remove polygon (Range.first lr) (Range.length lr) ;;
      result <- QVector.remove result 1 (Range.length fr - 1) ;;
      result <- QVector.replace result 0 averagePoint ;;
      let indexOffset := Range.length fr - 1 in
      it <- RangeSet.dec it ;;
      whileDesc (joinBody polygon indexOffset) indexRanges
                (Datatypes.S firstRange) it result
    else
      whileDesc (joinBody polygon 0) indexRanges firstRange it polygon
  else
    whileDesc (joinBody polygon 0) indexRanges firstRange it polygon.

(** *** splitPolygonSegments *)

(** [(p + q) / 2] *)
Definition midpoint (p q : QPointF) : QPointF := pdiv (padd p q) 2.

(** [for (int i = it.last(); i > it.first(); --i) { ... }]
    with [count] the number of iterations left. *)
Fixpoint splitAt (count : nat) (i : Z) (result : QPolygonF)
  : option QPolygonF :=
  match count with
  | O => Some result
  | Datatypes.S c =>
      p <- QVector.at_ result i ;;
      q <- QVector.at_ result (i - 1) ;;
      result <- QVector.insert result i (midpoint p q) ;;
      splitAt c (i - 1) result
  end.

Definition splitBody (it : Range.t) (result : QPolygonF)
  : option QPolygonF :=
  splitAt (Z.to_nat (Range.last it - Range.first it)) (Range.last it) result.

Definition splitPolygonSegments (polygon : QPolygonF)
           (indexRanges : RangeSet) (closed : bool) : option QPolygonF :=
  if RangeSet.isEmpty indexRanges then Some polygon else
  let n := QVector.size polygon in
  let firstRange := RangeSet.begin indexRanges in
  let it := RangeSet.end_ indexRanges in
  result <-
    (if closed then
       lastRange <- RangeSet.dec it ;;
       fr <- RangeSet.deref indexRanges firstRange ;;
       lr <- RangeSet.deref indexRanges lastRange ;;
       if (Range.first fr =? 0) && (Range.last lr =? n - 1) then
         p <- QVector.first polygon ;;
         q <- QVector.last polygon ;;
         Some (QVector.append polygon (midpoint p q))
       else Some polygon
     else Some polygon) ;;
  doWhileDesc splitBody indexRanges firstRange it result.

(** *** Map objects and undo commands *)

(** Modelled from the spec: the class [MapObject] is not part of the
    source file.  The four shape kinds that carry a polygon: polyline
    (open), polygon (closed), bezier line (open, with control points) and
    bezier loop (closed, with control points). *)
Inductive Shape : Type := Polyline | Polygon | Bezierline | Bezierloop.

Definition Shape_eqb (a b : Shape) : bool :=
  match a, b with
  | Polyline, Polyline | Polygon, Polygon
  | Bezierline, Bezierline | Bezierloop, Bezierloop => true
  | _, _ => false
  end.

Record MapObject : Type := mkObject {
  shape : Shape;
  polygon : QPolygonF;
  leftControlPoints : QPolygonF;
  rightControlPoints : QPolygonF
}.

Definition setPolygon (o : MapObject) (p : QPolygonF) : MapObject :=
  mkObject (shape o) p (leftControlPoints o) (rightControlPoints o).
Definition setLeftControlPoints (o : MapObject) (p : QPolygonF) : MapObject :=
  mkObject (shape o) (polygon o) p (rightControlPoints o).
Definition setRightControlPoints (o : MapObject) (p : QPolygonF) : MapObject :=
  mkObject (shape o) (polygon o) (leftControlPoints o) p.

(** The commands pushed on the undo stack, with the geometry they
    restore. *)
Inductive UndoCommand : Type :=
| RemoveMapObject
| ChangeBezier (oldPolygon oldLeft oldRight : QPolygonF)
| ChangePolygon (oldPolygon : QPolygonF).

(** *** EditPolygonTool::deleteNodes, for one object of the selection *)

Definition deleteBody (sh : Shape) (it : Range.t)
           (st : QPolygonF * QPolygonF * QPolygonF)
  : option (QPolygonF * QPolygonF * QPolygonF) :=
  let '(newPolygon, newLeft, newRight) := st in
  newPolygon <- QVector.remove newPolygon (Range.first it) (Range.length it) ;;
  if Shape_eqb sh Bezierline || Shape_eqb sh Bezierloop then
    newLeft <- QVector.remove newLeft (Range.first it) (Range.length it) ;;
    newRight <- QVector.remove newRight (Range.first it) (Range.length it) ;;
    Some (newPolygon, newLeft, newRight)
  else Some (newPolygon, newLeft, newRight).

Definition deleteNodes (object : MapObject) (indexRanges : RangeSet)
           (undoStack : list UndoCommand)
  : option (MapObject * list UndoCommand) :=
  let oldPolygon := polygon object in
  let oldLeftControlPoints := leftControlPoints object in
  let oldRightControlPoints := rightControlPoints object in
  st <- doWhileDesc (deleteBody (shape object)) indexRanges
          (RangeSet.begin indexRanges) (RangeSet.end_ indexRanges)
          (oldPolygon, oldLeftControlPoints, oldRightControlPoints) ;;
  let '(newPolygon, newLeftControlPoints, newRightControlPoints) := st in
  if QVector.size newPolygon <? 2 then
    Some (object, RemoveMapObject :: undoStack)
  else if Shape_eqb (shape object) Bezierline
          || Shape_eqb (shape object) Bezierloop then
    let object := setPolygon object newPolygon in
    let object := setLeftControlPoints object newLeftControlPoints in
    let object := setRightControlPoints object newRightControlPoints in
    Some (object,
          ChangeBezier oldPolygon oldLeftControlPoints oldRightControlPoints
            :: undoStack)
  else
    Some (setPolygon object newPolygon, ChangePolygon oldPolygon :: undoStack).

(** *** EditPolygonTool::joinNodes, for one object of the selection *)

Definition joinNodes (object : MapObject) (indexRanges : RangeSet)
           (undoStack : list UndoCommand)
  : option (MapObject * list UndoCommand) :=
  let closed := Shape_eqb (shape object) Polygon
                || Shape_eqb (shape object) Bezierloop in
  let oldPolygon := polygon object in
  newPolygon <- joinPolygonNodes oldPolygon indexRanges closed ;;
  if QVector.size newPolygon <? QVector.size oldPolygon then
    if Shape_eqb (shape object) Bezierline
       || Shape_eqb (shape object) Bezierloop then
      let oldLeftControlPoints := leftControlPoints object in
      newLeftControlPoints <-
        joinPolygonNodes oldLeftControlPoints indexRanges closed ;;
      let oldRightControlPoints := rightControlPoints object in
      newRightControlPoints <-
        joinPolygonNodes oldRightControlPoints indexRanges closed ;;
      let object := setPolygon object newPolygon in
      let object := setLeftControlPoints object newLeftControlPoints in
      let object := setRightControlPoints object newRightControlPoints in
      Some (object,
            ChangeBezier oldPolygon oldLeftControlPoints oldRightControlPoints
              :: undoStack)
    else
      Some (setPolygon object newPolygon,
            ChangePolygon oldPolygon :: undoStack)
  else Some (object, undoStack).

(** *** EditPolygonTool::splitSegments, for one object of the selection *)

Definition splitSegments (object : MapObject) (indexRanges : RangeSet)
           (undoStack : list UndoCommand)
  : option (MapObject * list UndoCommand) :=
  let closed := Shape_eqb (shape object) Polygon
                || Shape_eqb (shape object) Bezierloop in
  let oldPolygon := polygon object in
  newPolygon <- splitPolygonSegments oldPolygon indexRanges closed ;;
  if QVector.size oldPolygon <? QVector.size newPolygon then
    if Shape_eqb (shape object) Bezierline
       || Shape_eqb (shape object) Bezierline then
      let oldLeftControlPoints := leftControlPoints object in
      newLeftControlPoints <-
        splitPolygonSegments oldLeftControlPoints indexRanges closed ;;
      let oldRightControlPoints := rightControlPoints object in
      newRightControlPoints <-
        splitPolygonSegments oldRightControlPoints indexRanges closed ;;
      let object := setPolygon object newPolygon in
      let object := setLeftControlPoints object newLeftControlPoints in
      let object := setRightControlPoints object newRightControlPoints in
      Some (object,
            ChangeBezier oldPolygon oldLeftControlPoints oldRightControlPoints
              :: undoStack)
    else
      Some (setPolygon object newPolygon,
            ChangePolygon oldPolygon :: undoStack)
  else Some (object, undoStack).
End Geometry.

Arguments QPointF R : clear implicits.
Arguments QPolygonF R : clear implicits.
Arguments MapObject R : clear implicits.
Arguments UndoCommand R : clear implicits.

(** ** Vocabulary of the statements *)

(** The [n] elements of [v] from position [i] on. *)
Definition slice {T : Type} (v : list T) (i n : Z) : list T :=
  firstn (Z.to_nat n) (skipn (Z.to_nat i) v).

Section LoopSpec.
Context {S : Type}.
Variable body : Range.t -> S -> option S.

(** The ranges of [rs] handled from the last one to the first one. *)
Fixpoint foldDesc (rs : RangeSet) (s : S) : option S :=
  match rs with
  | [] => Some s
  | r :: rs' => s' <- foldDesc rs' s ;; body r s'
  end.
End LoopSpec.

Section MapRangesDef.
Context {T : Type}.
Variable f : Range.t -> list T -> list T.

(** [mapRanges pos l rs]: [l] holds the elements from index [pos] on; the
    stretch covered by each range [r] is replaced by [f r] of it, the
    elements between the ranges are kept. *)
Fixpoint mapRanges (pos : Z) (l : list T) (rs : RangeSet) : list T :=
  match rs with
  | [] => l
  | r :: rs' =>
      slice l 0 (Range.first r - pos)
      ++ f r (slice l (Range.first r - pos) (Range.length r))
      ++ mapRanges (Range.last r + 1)
                   (skipn (Z.to_nat (Range.last r + 1 - pos)) l) rs'
  end.
End MapRangesDef.

(** The length of the result, when [f] turns a stretch of [n] elements
    into [g n] elements. *)
Fixpoint sizeAfter (g : Z -> Z) (n : Z) (rs : RangeSet) : Z :=
  match rs with
  | [] => n
  | r :: rs' => sizeAfter g (n - Range.length r + g (Range.length r)) rs'
  end.

(** The number of points that averaging every range of [rs] on its own
    takes away. *)
Definition removedByJoin (rs : RangeSet) : Z :=
  fold_right (fun r acc => Range.length r - 1 + acc) 0 rs.

(** The number of points of the result of [joinPolygonNodes], from the
    number [n] of points of its argument. *)
Definition joinSize (n : Z) (rs : RangeSet) (closed : bool) : Z :=
  match rs with
  | [] => n
  | fr :: rest =>
      if n <? 3 then n
      else if (Range.first fr =? 0)
              && (Range.last (List.last rest fr) =? n - 1)
      then match rest with
           | [] => n
           | _ => if closed then n - removedByJoin rs - 1
                  else n - removedByJoin rs
           end
      else n - removedByJoin rs
  end.

(** The number of points of the result of [splitPolygonSegments], from the
    number [n] of points of its argument: a stretch of [k] points gets
    [k - 1] midpoints, and a closed shape may get a seam point. *)
Definition splitSize (n : Z) (rs : RangeSet) (closed : bool) : Z :=
  match rs with
  | [] => n
  | fr :: rest =>
      sizeAfter (fun k => Z.max 0 (2 * k - 1)) n rs
      + (if closed && (Range.first fr =? 0)
            && (Range.last (List.last rest fr) =? n - 1)
         then 1 else 0)
  end.

(** [keepIf keep i l]: the elements of [l] whose index satisfies [keep],
    in their order; [i] is the index of the first element of [l]. *)
Fixpoint keepIf {T : Type} (keep : Z -> bool) (i : Z) (l : list T) : list T :=
  match l with
  | [] => []
  | x :: l' =>
      if keep i then x :: keepIf keep (i + 1) l' else keepIf keep (i + 1) l'
  end.

(** The points at the indexes that are not selected. *)
Definition unselected {T : Type} (rs : RangeSet) (v : list T) : list T :=
  keepIf (fun i => negb (selected rs i)) 0 v.

(** [v.remove(it.first(), it.length())] *)
Definition removeRange {T : Type} (r : Range.t) (v : list T)
  : option (list T) :=
  QVector.remove v (Range.first r) (Range.length r).

(** The three cases in which the function hands back its argument. *)
Definition noopCase {T : Type} (poly : list T) (rs : RangeSet) : Prop :=
  rs = []
  \/ QVector.size poly < 3
  \/ exists r, rs = [r] /\ Range.first r = 0
               /\ Range.last r = QVector.size poly - 1.

(** [Subseq l1 l2]: [l1] is what is left of [l2] when some of its elements
    are dropped. *)
Inductive Subseq {T : Type} : list T -> list T -> Prop :=
| Subseq_nil : Subseq [] []
| Subseq_keep x l1 l2 : Subseq l1 l2 -> Subseq (x :: l1) (x :: l2)
| Subseq_skip x l1 l2 : Subseq l1 l2 -> Subseq l1 (x :: l2).

Section GeometrySpec.
Context {R : Type} `{QReal R}.
Implicit Types (poly : QPolygonF R).

(** The arithmetic mean of a run of points: their sum, taken from the
    null point in the order of the run, divided by their number. *)
Definition mean (pts : QPolygonF R) : QPointF R :=
  pdiv (fold_left padd pts pnull) (QVector.size pts).

(** The point that the loop body computes for a range: the mean of the
    points that the input polygon holds [off] positions before it. *)
Definition joinAt poly (off : Z) (r : Range.t) : QPointF R :=
  mean (slice poly (Range.first r - off) (Range.length r)).

(** [weave p l]: every point of [l] preceded by the midpoint of it and
    its predecessor, [p] being the predecessor of the first one. *)
Fixpoint weave (p : QPointF R) (l : QPolygonF R) : QPolygonF R :=
  match l with
  | [] => []
  | q :: l' => midpoint q p :: q :: weave q l'
  end.

(** A run of points with a midpoint between each two neighbours. *)
Definition splitAll (seg : QPolygonF R) : QPolygonF R :=
  match seg with
  | [] => []
  | p :: l => p :: weave p l
  end.

(** The seam point of a polygon: the midpoint of its first and its last
    point. *)
Definition seamPoint poly : option (QPointF R) :=
  p <- QVector.first poly ;; q <- QVector.last poly ;; Some (midpoint p q).

(** The seam point that a split adds, if any. *)
Definition seamExtra poly (rs : RangeSet) (closed : bool)
  : QPolygonF R :=
  match rs, seamPoint poly with
  | fr :: rest, Some m =>
      if closed && (Range.first fr =? 0)
         && (Range.last (List.last rest fr) =? QVector.size poly - 1)
      then [m] else []
  | _, _ => []
  end.

(** The shapes that carry control points. *)
Definition isCurve (sh : Shape) : bool :=
  Shape_eqb sh Bezierline || Shape_eqb sh Bezierloop.

(** The three sequences of a shape have the same length. *)
Definition aligned (object : MapObject R) : Prop :=
  QVector.size (leftControlPoints object) = QVector.size (polygon object)
  /\ QVector.size (rightControlPoints object)
     = QVector.size (polygon object).
End GeometrySpec.

(** ** Rational coordinates, kept in lowest terms, for the examples *)

#[export] Instance QReal_Q : QReal Q := {|
  rzero := 0%Q;
  radd := fun a b => Qred (a + b);
  rdiv := fun a b => Qred (a / b);
  rofint := inject_Z
|}.

Definition pt (x y : Z) : QPointF Q := mkPoint (inject_Z x) (inject_Z y).

(** The polygons of the examples. *)
Definition segment2 : QPolygonF Q := [pt 0 0; pt 10 0].
Definition line3 : QPolygonF Q := [pt 0 0; pt 1 0; pt 2 0].
Definition square : QPolygonF Q := [pt 0 0; pt 10 0; pt 10 10; pt 0 10].
Definition line5 : QPolygonF Q :=
  [pt 0 0; pt 1 0; pt 2 0; pt 3 0; pt 4 0].
Definition line7 : QPolygonF Q :=
  [pt 0 0; pt 1 0; pt 2 0; pt 3 0; pt 4 0; pt 5 0; pt 6 0].

(** A bezier loop of three nodes with its control points. *)
Definition loop3 : MapObject Q :=
  mkObject Bezierloop
           [pt 0 0; pt 10 0; pt 10 10]
           [pt (-1) 0; pt 9 0; pt 9 10]
           [pt 1 0; pt 11 0; pt 11 10].

(** The number of indexes that a range set covers. *)
Definition selectedCount (rs : RangeSet) : Z :=
  fold_right (fun r acc => Range.length r + acc) 0 rs.

(** A bezier line of three nodes with its control points. *)
Definition bline3 : MapObject Q :=
  mkObject Bezierline (polygon loop3) (leftControlPoints loop3)
           (rightControlPoints loop3).

(** ** Handles, the selection and the operations of the tool *)

(** A [PointHandle]: the map object it belongs to (through its item), the
    index of its point and its selection flag.  Handles and map objects are
    told apart by their address, a [nat]. *)
Record PointHandle : Type := mkHandle {
  mapObject : nat;
  pointIndex : Z;
  isSelected : bool
}.

(** [QSet<PointHandle*>]: the addresses, in the order in which [foreach]
    visits them. *)
Definition HandleSet : Type := list nat.

Definition contains (s : HandleSet) (h : nat) : bool := existsb (Nat.eqb h) s.

(** [handle->setSelected(selected)], on the memory of handles. *)
Definition setSelected (handle : nat) (selected : bool)
           (handles : nat -> PointHandle) : nat -> PointHandle :=
  fun k =>
    if Nat.eqb k handle
    then mkHandle (mapObject (handles k)) (pointIndex (handles k)) selected
    else handles k.

(** [EditPolygonTool::setSelectedHandles]; the state is [mSelectedHandles]
    and the memory of handles. *)
Definition setSelectedHandles (handles : HandleSet)
           (st : HandleSet * (nat -> PointHandle))
  : HandleSet * (nat -> PointHandle) :=
  let '(mSelectedHandles, memory) := st in
  let memory :=
    fold_left (fun memory handle =>
                 if negb (contains handles handle)
                 then setSelected handle false memory else memory)
              mSelectedHandles memory in
  let memory :=
    fold_left (fun memory handle =>
                 if negb (contains mSelectedHandles handle)
                 then setSelected handle true memory else memory)
              handles memory in
  (handles, memory).

(** [QMap<MapObject*, V>]: the entries, ascending by key. *)
Module QMap.
Definition t (V : Type) : Type := list (nat * V).

(** [m.value(key)]: the default value when the key is missing. *)
Fixpoint value {V : Type} (d : V) (m : t V) (key : nat) : V :=
  match m with
  | [] => d
  | (k, v) :: m' => if Nat.eqb k key then v else value d m' key
  end.

(** [V &ref = m[key]; ref = f ref]: a missing key gets the default value
    first. *)
Fixpoint modify {V : Type} (d : V) (f : V -> V) (m : t V) (key : nat) : t V :=
  match m with
  | [] => [(key, f d)]
  | (k, v) :: m' =>
      if Nat.ltb key k then (key, f d) :: m
      else if Nat.eqb key k then (k, f v) :: m'
      else (k, v) :: modify d f m' key
  end.

Definition keys {V : Type} (m : t V) : list nat := map fst m.
End QMap.

(** Modelled from the spec: the invariant of the class [RangeSet], which
    is not part of the source file.  The ranges ascend and two neighbours
    are apart by one index at least. *)
Fixpoint gapped (lo : Z) (s : RangeSet) : Prop :=
  match s with
  | [] => True
  | r :: s' =>
      lo <= Range.first r /\ Range.first r <= Range.last r
      /\ gapped (Range.last r + 2) s'
  end.

(** Modelled from the spec: the ranges of a [RangeSet] at rest never touch
    or overlap. *)
Definition wellFormed (s : RangeSet) : Prop :=
  match s with
  | [] => True
  | r :: _ => gapped (Range.first r) s
  end.

(** Modelled from the spec: what the operations need of
    [RangeSet<int>::insert], which is not part of the source file.  It keeps
    the invariant and adds the value to the indexes covered. *)
Definition insertContract (insert : Z -> RangeSet -> RangeSet) : Prop :=
  forall v s,
    wellFormed s ->
    wellFormed (insert v s)
    /\ forall i, selected (insert v s) i = (i =? v) || selected s i.

(** Modelled from the spec: [RangeSet<int>::insert] is not part of the
    source file.  The value extends a range it touches, joins two ranges
    that it makes touch, and is a range of its own otherwise. *)
Fixpoint insertIndex (v : Z) (s : RangeSet) : RangeSet :=
  match s with
  | [] => [Range.mk v v]
  | r :: s' =>
      if v <? Range.first r - 1 then Range.mk v v :: s
      else if v <? Range.first r then Range.mk v (Range.last r) :: s'
      else if v <=? Range.last r then s
      else if v =? Range.last r + 1 then
        match s' with
        | r2 :: s'' =>
            if Range.first r2 =? v + 1
            then Range.mk (Range.first r) (Range.last r2) :: s''
            else Range.mk (Range.first r) v :: s'
        | [] => [Range.mk (Range.first r) v]
        end
      else r :: insertIndex v s'
  end.

(** The text of an undo macro. *)
Inductive MacroText : Type :=
| DeleteNodesText (n : nat)
| JoinNodesText
| SplitSegmentsText.

Section Tool.
Context {R : Type} `{QReal R}.

(** [RangeSet<int>::insert] *)
Variable insert : Z -> RangeSet -> RangeSet.

(** What happened on the undo stack, the latest event first. *)
Inductive UndoEvent : Type :=
| BeginMacro (text : MacroText)
| Push (object : nat) (command : UndoCommand R)
| EndMacro.

(** [groupIndexesByObject] *)
Definition groupIndexesByObject (memory : nat -> PointHandle)
           (handles : HandleSet) : QMap.t RangeSet :=
  fold_left
    (fun result handle =>
       QMap.modify [] (insert (pointIndex (memory handle))) result
                   (mapObject (memory handle)))
    handles [].

(** [object->set...(...)] on the memory of map objects. *)
Definition store (objects : nat -> MapObject R) (key : nat)
           (object : MapObject R) : nat -> MapObject R :=
  fun k => if Nat.eqb k key then object else objects k.

(** [while (i.hasNext()) { ... }] over the entries of the map. *)
Fixpoint whileHasNext {S : Type}
         (body : nat -> RangeSet -> S -> option S)
         (p : QMap.t RangeSet) (st : S) : option S :=
  match p with
  | [] => Some st
  | (key, indexRanges) :: p' =>
      st' <- body key indexRanges st ;; whileHasNext body p' st'
  end.

(** The body of the loop of [EditPolygonTool::deleteNodes]. *)
Definition deleteNodesBody (key : nat) (indexRanges : RangeSet)
           (st : (nat -> MapObject R) * list UndoEvent)
  : option ((nat -> MapObject R) * list UndoEvent) :=
  let '(objects, undoStack) := st in
  let object := objects key in
  let oldPolygon := polygon object in
  let oldLeftControlPoints := leftControlPoints object in
  let oldRightControlPoints := rightControlPoints object in
  st <- doWhileDesc (deleteBody (shape object)) indexRanges
          (RangeSet.begin indexRanges) (RangeSet.end_ indexRanges)
          (oldPolygon, oldLeftControlPoints, oldRightControlPoints) ;;
  let '(newPolygon, newLeftControlPoints, newRightControlPoints) := st in
  if QVector.size newPolygon <? 2 then
    Some (objects, Push key RemoveMapObject :: undoStack)
  else if Shape_eqb (shape object) Bezierline
          || Shape_eqb (shape object) Bezierloop then
    let object := setPolygon object newPolygon in
    let object := setLeftControlPoints object newLeftControlPoints in
    let object := setRightControlPoints object newRightControlPoints in
    Some (store objects key object,
          Push key (ChangeBezier oldPolygon oldLeftControlPoints
                                 oldRightControlPoints) :: undoStack)
  else
    Some (store objects key (setPolygon object newPolygon),
          Push key (ChangePolygon oldPolygon) :: undoStack).

(** [EditPolygonTool::deleteNodes] *)
Definition deleteNodesAll (memory : nat -> PointHandle)
           (mSelectedHandles : HandleSet)
           (st : (nat -> MapObject R) * list UndoEvent)
  : option ((nat -> MapObject R) * list UndoEvent) :=
  match mSelectedHandles with
  | [] => Some st
  | _ =>
      let p := groupIndexesByObject memory mSelectedHandles in
      let '(objects, undoStack) := st in
      let undoStack :=
        BeginMacro (DeleteNodesText (length mSelectedHandles))
          :: undoStack in
      st <- whileHasNext deleteNodesBody p (objects, undoStack) ;;
      let '(objects, undoStack) := st in
      Some (objects, EndMacro :: undoStack)
  end.

(** The body of the loop of [EditPolygonTool::joinNodes]; the state holds
    [macroStarted] too. *)
Definition joinNodesBody (key : nat) (indexRanges : RangeSet)
           (st : (nat -> MapObject R) * list UndoEvent * bool)
  : option ((nat -> MapObject R) * list UndoEvent * bool) :=
  let '(objects, undoStack, macroStarted) := st in
  let object := objects key in
  let closed := Shape_eqb (shape object) Polygon
                || Shape_eqb (shape object) Bezierloop in
  let oldPolygon := polygon object in
  newPolygon <- joinPolygonNodes oldPolygon indexRanges closed ;;
  if QVector.size newPolygon <? QVector.size oldPolygon then
    let undoStack :=
      if macroStarted then undoStack
      else BeginMacro JoinNodesText :: undoStack in
    let macroStarted := true in
    if Shape_eqb (shape object) Bezierline
       || Shape_eqb (shape object) Bezierloop then
      let oldLeftControlPoints := leftControlPoints object in
      newLeftControlPoints <-
        joinPolygonNodes oldLeftControlPoints indexRanges closed ;;
      let oldRightControlPoints := rightControlPoints object in
      newRightControlPoints <-
        joinPolygonNodes oldRightControlPoints indexRanges closed ;;
      let object := setPolygon object newPolygon in
      let object := setLeftControlPoints object newLeftControlPoints in
      let object := setRightControlPoints object newRightControlPoints in
      Some (store objects key object,
            Push key (ChangeBezier oldPolygon oldLeftControlPoints
                                   oldRightControlPoints) :: undoStack,
            macroStarted)
    else
      Some (store objects key (setPolygon object newPolygon),
            Push key (ChangePolygon oldPolygon) :: undoStack,
            macroStarted)
  else Some (objects, undoStack, macroStarted).

(** [EditPolygonTool::joinNodes] *)
Definition joinNodesAll (memory : nat -> PointHandle)
           (mSelectedHandles : HandleSet)
           (st : (nat -> MapObject R) * list UndoEvent)
  : option ((nat -> MapObject R) * list UndoEvent) :=
  if (length mSelectedHandles <? 2)%nat then Some st else
  let p := groupIndexesByObject memory mSelectedHandles in
  let '(objects, undoStack) := st in
  st <- whileHasNext joinNodesBody p (objects, undoStack, false) ;;
  let '(objects, undoStack, macroStarted) := st in
  if macroStarted then Some (objects, EndMacro :: undoStack)
  else Some (objects, undoStack).

(** The body of the loop of [EditPolygonTool::splitSegments]. *)
Definition splitSegmentsBody (key : nat) (indexRanges : RangeSet)
           (st : (nat -> MapObject R) * list UndoEvent * bool)
  : option ((nat -> MapObject R) * list UndoEvent * bool) :=
  let '(objects, undoStack, macroStarted) := st in
  let object := objects key in
  let closed := Shape_eqb (shape object) Polygon
                || Shape_eqb (shape object) Bezierloop in
  let oldPolygon := polygon object in
  newPolygon <- splitPolygonSegments oldPolygon indexRanges closed ;;
  if QVector.size oldPolygon <? QVector.size newPolygon then
    let undoStack :=
      if macroStarted then undoStack
      else BeginMacro SplitSegmentsText :: undoStack in
    let macroStarted := true in
    if Shape_eqb (shape object) Bezierline
       || Shape_eqb (shape object) Bezierline then
      let oldLeftControlPoints := leftControlPoints object in
      newLeftControlPoints <-
        splitPolygonSegments oldLeftControlPoints indexRanges closed ;;
      let oldRightControlPoints := rightControlPoints object in
      newRightControlPoints <-
        splitPolygonSegments oldRightControlPoints indexRanges closed ;;
      let object := setPolygon object newPolygon in
      let object := setLeftControlPoints object newLeftControlPoints in
      let object := setRightControlPoints object newRightControlPoints in
      Some (store objects key object,
            Push key (ChangeBezier oldPolygon oldLeftControlPoints
                                   oldRightControlPoints) :: undoStack,
            macroStarted)
    else
      Some (store objects key (setPolygon object newPolygon),
            Push key (ChangePolygon oldPolygon) :: undoStack,
            macroStarted)
  else Some (objects, undoStack, macroStarted).

(** [EditPolygonTool::splitSegments] *)
Definition splitSegmentsAll (memory : nat -> PointHandle)
           (mSelectedHandles : HandleSet)
           (st : (nat -> MapObject R) * list UndoEvent)
  : option ((nat -> MapObject R) * list UndoEvent) :=
  if (length mSelectedHandles <? 2)%nat then Some st else
  let p := groupIndexesByObject memory mSelectedHandles in
  let '(objects, undoStack) := st in
  st <- whileHasNext splitSegmentsBody p (objects, undoStack, false) ;;
  let '(objects, undoStack, macroStarted) := st in
  if macroStarted then Some (objects, EndMacro :: undoStack)
  else Some (objects, undoStack).
End Tool.

Arguments UndoEvent R : clear implicits.

Definition isNil {A : Type} (l : list A) : bool :=
  match l with [] => true | _ => false end.

(** The event is a command. *)
Definition isPush {R : Type} (e : UndoEvent R) : bool :=
  match e with Push _ _ => true | _ => false end.

(** Either no macro was begun, and then nothing was pushed and no object
    changed, or one macro was begun and holds one command or more. *)
Definition macroInv {R : Type} (text : MacroText)
           (objects0 : nat -> MapObject R)
           (undoStack0 : list (UndoEvent R))
           (st : (nat -> MapObject R) * list (UndoEvent R) * bool) : Prop :=
  let '(objects, undoStack, macroStarted) := st in
  (macroStarted = false /\ undoStack = undoStack0
   /\ forall key, objects key = objects0 key)
  \/ (macroStarted = true
      /\ exists cmds,
           cmds <> [] /\ forallb isPush cmds = true
           /\ undoStack = cmds ++ BeginMacro text :: undoStack0).

(** The keys of a map ascend, from [lo] on. *)
Fixpoint keysFrom {V : Type} (lo : nat) (m : QMap.t V) : Prop :=
  match m with
  | [] => True
  | (k, _) :: m' => (lo <= k)%nat /\ keysFrom (S k) m'
  end.

(** Some handle of the set belongs to the object [key] and has the point
    index [i]. *)
Definition handleAt (memory : nat -> PointHandle) (handles : HandleSet)
           (key : nat) (i : Z) : bool :=
  existsb (fun h => Nat.eqb (mapObject (memory h)) key
                    && (pointIndex (memory h) =? i)) handles.

(** Some handle of the set belongs to the object [key]. *)
Definition hasHandle (memory : nat -> PointHandle) (handles : HandleSet)
           (key : nat) : bool :=
  existsb (fun h => Nat.eqb (mapObject (memory h)) key) handles.

(** Handles of the examples: the handle at address [k] belongs to the
    object 0 and has the point index [k]; the handles 1 and 2 are
    selected. *)
Definition handles12 : nat -> PointHandle :=
  fun k => mkHandle 0 (Z.of_nat k) (Nat.eqb k 1 || Nat.eqb k 2).

(** The map objects of the examples: every address holds the polyline
    [line5]. *)
Definition polylines : nat -> MapObject Q :=
  fun _ => mkObject Polyline line5 [] [].

(** [k] ranges of one index each, at [a], [a + 2], [a + 4] and so on. *)
Fixpoint singles (a : Z) (k : nat) : RangeSet :=
  match k with
  | O => []
  | S k' => Range.mk a a :: singles (a + 2) k'
  end.

(** The indexes, in the result of a split, of the points that the split
    puts between the points of the ranges; [shift] is the number of points
    added before the first range. *)
Fixpoint midpointRanges (shift : Z) (rs : RangeSet) : RangeSet :=
  match rs with
  | [] => []
  | r :: rs' =>
      singles (Range.first r + shift + 1)
              (Z.to_nat (Range.last r - Range.first r))
      ++ midpointRanges (shift + (Range.last r - Range.first r)) rs'
  end.

(** * Facts on the vector operations *)

Section QVectorFacts.
Context {T : Type}.
Implicit Types (v w pre seg post : list T).

Lemma size_app v w :
  QVector.size (v ++ w) = QVector.size v + QVector.size w.
Proof. unfold QVector.size. rewrite length_app. lia. Qed.

Lemma size_cons (x : T) v : QVector.size (x :: v) = 1 + QVector.size v.
Proof. unfold QVector.size. simpl length. lia. Qed.

Lemma size_nil : QVector.size (@nil T) = 0.
Proof. reflexivity. Qed.

Lemma size_nonneg v : 0 <= QVector.size v.
Proof. unfold QVector.size. lia. Qed.

Lemma firstn_exact pre post n :
  n = length pre -> firstn n (pre ++ post) = pre.
Proof.
  intros ->. induction pre as [|x pre IH]; simpl.
  - reflexivity.
  - now rewrite IH.
Qed.

Lemma skipn_exact pre post n :
  n = length pre -> skipn n (pre ++ post) = post.
Proof.
  intros ->. induction pre as [|x pre IH]; simpl; auto.
Qed.

Lemma to_nat_size pre i : QVector.size pre = i -> Z.to_nat i = length pre.
Proof. unfold QVector.size. lia. Qed.

Lemma at_app pre x post i :
  QVector.size pre = i -> QVector.at_ (pre ++ x :: post) i = Some x.
Proof.
  intros Hi. unfold QVector.at_, QVector.inRange.
  rewrite size_app, size_cons.
  pose proof (size_nonneg pre). pose proof (size_nonneg post).
  replace (0 <=? i) with true by (symmetry; apply Z.leb_le; lia).
  replace (i <? _) with true by (symmetry; apply Z.ltb_lt; lia).
  simpl. rewrite (to_nat_size _ Hi).
  rewrite nth_error_app2 by lia. now rewrite Nat.sub_diag.
Qed.

Lemma remove_app pre seg post i n :
  QVector.size pre = i -> QVector.size seg = n ->
  QVector.remove (pre ++ seg ++ post) i n = Some (pre ++ post).
Proof.
  intros Hi Hn. unfold QVector.remove.
  rewrite !size_app.
  pose proof (size_nonneg pre). pose proof (size_nonneg seg).
  pose proof (size_nonneg post).
  replace (0 <=? i) with true by (symmetry; apply Z.leb_le; lia).
  replace (0 <=? n) with true by (symmetry; apply Z.leb_le; lia).
  replace (i + n <=? _) with true by (symmetry; apply Z.leb_le; lia).
  simpl. f_equal. f_equal.
  - apply firstn_exact. now apply to_nat_size.
  - rewrite app_assoc. apply skipn_exact.
    rewrite length_app. unfold QVector.size in *. lia.
Qed.

Lemma remove_nothing pre post i :
  QVector.size pre = i ->
  QVector.remove (pre ++ post) i 0 = Some (pre ++ post).
Proof. intros Hi. now apply (@remove_app pre [] post). Qed.

Lemma replace_app pre y post i x :
  QVector.size pre = i ->
  QVector.replace (pre ++ y :: post) i x = Some (pre ++ x :: post).
Proof.
  intros Hi. unfold QVector.replace, QVector.inRange.
  rewrite size_app, size_cons.
  pose proof (size_nonneg pre). pose proof (size_nonneg post).
  replace (0 <=? i) with true by (symmetry; apply Z.leb_le; lia).
  replace (i <? _) with true by (symmetry; apply Z.ltb_lt; lia).
  simpl. f_equal. f_equal.
  - apply firstn_exact. now apply to_nat_size.
  - f_equal. change (y :: post) with ([y] ++ post).
    rewrite app_assoc. apply skipn_exact.
    rewrite length_app. simpl. unfold QVector.size in *. lia.
Qed.

Lemma insert_app pre post i x :
  QVector.size pre = i ->
  QVector.insert (pre ++ post) i x = Some (pre ++ x :: post).
Proof.
  intros Hi. unfold QVector.insert.
  rewrite size_app.
  pose proof (size_nonneg pre). pose proof (size_nonneg post).
  replace (0 <=? i) with true by (symmetry; apply Z.leb_le; lia).
  replace (i <=? _) with true by (symmetry; apply Z.leb_le; lia).
  simpl. f_equal. f_equal.
  - apply firstn_exact. now apply to_nat_size.
  - f_equal. apply skipn_exact. now apply to_nat_size.
Qed.

(** A vector cut before position [i] and after position [i + n]. *)
Lemma cut3 v i n :
  0 <= i -> 0 <= n -> i + n <= QVector.size v ->
  v = slice v 0 i ++ slice v i n ++ skipn (Z.to_nat (i + n)) v
  /\ QVector.size (slice v 0 i) = i
  /\ QVector.size (slice v i n) = n
  /\ QVector.size (skipn (Z.to_nat (i + n)) v) = QVector.size v - (i + n).
Proof.
  intros Hi Hn Hb. unfold slice, QVector.size in *. simpl skipn.
  repeat split.
  - rewrite <- (firstn_skipn (Z.to_nat i) v) at 1. f_equal.
    rewrite <- (firstn_skipn (Z.to_nat n) (skipn (Z.to_nat i) v)) at 1.
    f_equal. rewrite skipn_skipn. f_equal. lia.
  - rewrite length_firstn. lia.
  - rewrite length_firstn, length_skipn. lia.
  - rewrite length_skipn. lia.
Qed.

Lemma slice_app_exact pre seg post i n :
  QVector.size pre = i -> QVector.size seg = n ->
  slice (pre ++ seg ++ post) i n = seg.
Proof.
  intros Hi Hn. unfold slice.
  rewrite skipn_exact by now apply to_nat_size.
  apply firstn_exact. now apply to_nat_size.
Qed.
End QVectorFacts.

(** * Facts on the backward loops *)

Lemma bind_Some {A B : Type} (m : option A) (k : A -> option B) (a : A) :
  m = Some a -> bind m k = k a.
Proof. now intros ->. Qed.

Section LoopFacts.
Context {S : Type}.
Variable body : Range.t -> S -> option S.

Lemma foldDesc_snoc rs r s :
  foldDesc body (rs ++ [r]) s = (s' <- body r s ;; foldDesc body rs s').
Proof.
  induction rs as [|x rs IH]; simpl.
  - now destruct (body r s).
  - rewrite IH. now destruct (body r s).
Qed.

Lemma whileDesc_refl rs k s : whileDesc body rs k k s = Some s.
Proof. destruct k; simpl; now rewrite ?Nat.eqb_refl. Qed.

Lemma whileDesc_step rs k it s :
  whileDesc body rs k (Datatypes.S it) s
  = (if Nat.eqb (Datatypes.S it) k then Some s
     else r <- RangeSet.deref rs it ;; s' <- body r s ;;
          whileDesc body rs k it s').
Proof. reflexivity. Qed.

Lemma whileDesc_fold pre mid post s :
  whileDesc body (pre ++ mid ++ post) (length pre)
            (length pre + length mid) s
  = foldDesc body mid s.
Proof.
  revert post s. induction mid as [|x mid IH] using rev_ind; intros post s.
  - simpl. rewrite Nat.add_0_r. apply whileDesc_refl.
  - rewrite length_app. simpl length.
    replace (length pre + (length mid + 1))%nat
      with (Datatypes.S (length pre + length mid)) by lia.
    rewrite whileDesc_step.
    replace (Nat.eqb (Datatypes.S (length pre + length mid)) (length pre))
      with false by (symmetry; apply Nat.eqb_neq; lia).
    unfold RangeSet.deref.
    rewrite nth_error_app2 by lia.
    replace (length pre + length mid - length pre)%nat
      with (length mid) by lia.
    rewrite <- app_assoc. simpl app.
    rewrite nth_error_app2 by lia. rewrite Nat.sub_diag. simpl.
    rewrite foldDesc_snoc.
    destruct (body x s) as [s'|]; simpl; [|reflexivity].
    apply IH.
Qed.

Lemma doWhileDesc_while rs k it s :
  (k < it)%nat -> doWhileDesc body rs k it s = whileDesc body rs k it s.
Proof.
  revert s. induction it as [|it IH]; intros s Hk; [lia|].
  rewrite whileDesc_step. simpl doWhileDesc.
  replace (Nat.eqb (Datatypes.S it) k)
    with false by (symmetry; apply Nat.eqb_neq; lia).
  destruct (RangeSet.deref rs it) as [r|]; simpl; [|reflexivity].
  destruct (body r s) as [s'|]; simpl; [|reflexivity].
  destruct (Nat.eqb it k) eqn:E.
  - apply Nat.eqb_eq in E. subst. now rewrite whileDesc_refl.
  - apply Nat.eqb_neq in E. apply IH. lia.
Qed.

Lemma doWhileDesc_fold rs s :
  rs <> [] ->
  doWhileDesc body rs (RangeSet.begin rs) (RangeSet.end_ rs) s
  = foldDesc body rs s.
Proof.
  intros Hne. unfold RangeSet.begin, RangeSet.end_.
  rewrite doWhileDesc_while by (destruct rs; simpl; [congruence|lia]).
  pose proof (@whileDesc_fold [] rs [] s) as E.
  simpl in E. now rewrite app_nil_r in E.
Qed.
End LoopFacts.

(** * Range-wise rewriting of a sequence *)

Section MapRanges.
Context {T : Type}.
Variable f : Range.t -> list T -> list T.

Variable body : Range.t -> list T -> option (list T).
Variable off : Z.
Variable ok : Range.t -> Prop.
Hypothesis body_ok : forall r pre seg post,
  ok r -> Range.first r <= Range.last r ->
  QVector.size pre = Range.first r - off ->
  QVector.size seg = Range.length r ->
  body r (pre ++ seg ++ post) = Some (pre ++ f r seg ++ post).

Lemma foldDesc_mapRanges rs : forall pos P Q,
  QVector.size P = pos - off ->
  ranges_in pos (pos + QVector.size Q) rs ->
  Forall ok rs ->
  foldDesc body rs (P ++ Q) = Some (P ++ mapRanges f pos Q rs).
Proof.
  induction rs as [|r rs IH]; intros pos P Q HP Hin Hok.
  - reflexivity.
  - simpl in Hin. destruct Hin as (Hlo & Hfl & Hhi & Hin).
    inversion Hok as [|? ? Hr Hoks]; subst.
    unfold Range.length in *.
    destruct (@cut3 T Q (Range.first r - pos)
                    (Range.last r - Range.first r + 1))
      as (HQ & H1 & H2 & H3); try lia.
    replace (Range.first r - pos + (Range.last r - Range.first r + 1))
      with (Range.last r + 1 - pos) in * by lia.
    simpl foldDesc. simpl mapRanges. unfold Range.length.
    set (Q1 := slice Q 0 (Range.first r - pos)) in *.
    set (seg := slice Q (Range.first r - pos)
                      (Range.last r - Range.first r + 1)) in *.
    set (Q2 := skipn (Z.to_nat (Range.last r + 1 - pos)) Q) in *.
    rewrite HQ at 1.
    replace (P ++ Q1 ++ seg ++ Q2) with ((P ++ Q1 ++ seg) ++ Q2)
      by (now rewrite <- !app_assoc).
    rewrite (IH (Range.last r + 1)); trivial.
    + simpl bind.
      replace ((P ++ Q1 ++ seg) ++ mapRanges f (Range.last r + 1) Q2 rs)
        with ((P ++ Q1) ++ seg ++ mapRanges f (Range.last r + 1) Q2 rs)
        by (now rewrite <- !app_assoc).
      rewrite body_ok; trivial.
      * now rewrite <- !app_assoc.
      * rewrite size_app. lia.
    + rewrite !size_app. lia.
    + replace (Range.last r + 1 + QVector.size Q2)
        with (pos + QVector.size Q) by lia.
      exact Hin.
Qed.
End MapRanges.

(** * Facts on range sets *)

Lemma ranges_in_weaken lo lo' hi rs :
  lo' <= lo -> ranges_in lo hi rs -> ranges_in lo' hi rs.
Proof.
  destruct rs as [|r rs]; simpl; [trivial|].
  intros Hle (H1 & H2 & H3 & H4). repeat split; trivial. lia.
Qed.

Lemma ranges_in_Forall rs : forall lo hi,
  ranges_in lo hi rs ->
  Forall (fun r => lo <= Range.first r /\ Range.first r <= Range.last r
                   /\ Range.last r < hi) rs.
Proof.
  induction rs as [|r rs IH]; intros lo hi Hin; constructor.
  - simpl in Hin. tauto.
  - simpl in Hin. destruct Hin as (H1 & H2 & H3 & H4).
    apply IH. apply ranges_in_weaken with (lo := Range.last r + 1); [lia|].
    exact H4.
Qed.

Lemma ranges_in_snoc rs : forall lo hi lr,
  ranges_in lo hi (rs ++ [lr]) ->
  ranges_in lo (Range.first lr) rs /\ lo <= Range.first lr
  /\ Range.first lr <= Range.last lr /\ Range.last lr < hi.
Proof.
  induction rs as [|r rs IH]; intros lo hi lr Hin.
  - simpl in *. tauto.
  - simpl in Hin. destruct Hin as (H1 & H2 & H3 & H4).
    apply IH in H4. destruct H4 as (H4 & H5 & H6 & H7).
    simpl. repeat split; trivial; lia.
Qed.

Lemma list_ends {A : Type} (l : list A) :
  l = [] \/ (exists x, l = [x]) \/ (exists x m y, l = x :: m ++ [y]).
Proof.
  destruct l as [|x l]; [now left|right].
  destruct l as [|z l]; [left; now exists x|right].
  destruct (@exists_last A (z :: l)) as [m [y E]]; [discriminate|].
  exists x, m, y. now rewrite E.
Qed.

Lemma nth_error_snoc {A : Type} (l : list A) (x : A) :
  nth_error (l ++ [x]) (length l) = Some x.
Proof. rewrite nth_error_app2 by lia. now rewrite Nat.sub_diag. Qed.

(** * Joining nodes *)

Section JoinFacts.
Context {R : Type} `{QReal R}.
Implicit Types (poly result pre seg post : QPolygonF R).

Lemma sumAt_app seg : forall pre post off i acc,
  QVector.size pre = i - off ->
  sumAt (pre ++ seg ++ post) off (length seg) i acc
  = Some (fold_left padd seg acc).
Proof.
  induction seg as [|x seg IH]; intros pre post off i acc Hp.
  - reflexivity.
  - simpl length. simpl sumAt. simpl app.
    rewrite (@at_app _ pre x (seg ++ post) (i - off) Hp). simpl bind.
    replace (pre ++ x :: seg ++ post) with ((pre ++ [x]) ++ seg ++ post)
      by (now rewrite <- app_assoc).
    rewrite IH; [reflexivity|].
    rewrite size_app, size_cons, size_nil. lia.
Qed.

Lemma sumRange_slice poly off r acc :
  Range.first r <= Range.last r ->
  0 <= Range.first r - off -> Range.last r - off < QVector.size poly ->
  sumRange poly off r acc
  = Some (fold_left padd
            (slice poly (Range.first r - off) (Range.length r)) acc).
Proof.
  intros Hfl Hlo Hhi. unfold sumRange, Range.length.
  destruct (@cut3 _ poly (Range.first r - off)
                  (Range.last r - Range.first r + 1))
    as (HQ & H1 & H2 & H3); try lia.
  set (seg := slice poly (Range.first r - off)
                    (Range.last r - Range.first r + 1)) in *.
  rewrite HQ at 1.
  replace (Z.to_nat (Range.last r - Range.first r + 1)) with (length seg)
    by (unfold QVector.size in H2; lia).
  now apply sumAt_app.
Qed.

Lemma joinBody_app poly off r pre seg post :
  0 <= Range.first r - off /\ Range.last r - off < QVector.size poly ->
  Range.first r <= Range.last r ->
  QVector.size pre = Range.first r - off ->
  QVector.size seg = Range.length r ->
  joinBody poly off r (pre ++ seg ++ post)
  = Some (pre ++ (fun _ _ => [joinAt poly off r]) r seg ++ post).
Proof.
  intros [Hlo Hhi] Hfl Hp Hs. unfold joinBody.
  rewrite sumRange_slice by trivial. simpl bind.
  destruct seg as [|y seg].
  { rewrite size_nil in Hs. unfold Range.length in Hs. lia. }
  rewrite size_cons in Hs.
  replace (pre ++ (y :: seg) ++ post) with ((pre ++ [y]) ++ seg ++ post)
    by (now rewrite <- app_assoc).
  rewrite remove_app;
    [|rewrite size_app, size_cons, size_nil; lia|lia].
  simpl bind. rewrite <- app_assoc. simpl app.
  rewrite replace_app by trivial.
  unfold joinAt, mean. do 4 f_equal.
  destruct (@cut3 _ poly (Range.first r - off) (Range.length r))
    as (_ & _ & H2 & _); unfold Range.length in *; lia.
Qed.

Lemma join_loop poly off rs pos P Q :
  QVector.size P = pos - off ->
  ranges_in pos (pos + QVector.size Q) rs ->
  0 <= pos - off -> pos + QVector.size Q - off <= QVector.size poly ->
  foldDesc (joinBody poly off) rs (P ++ Q)
  = Some (P ++ mapRanges (fun r _ => [joinAt poly off r]) pos Q rs).
Proof.
  intros HP Hin Hlo Hhi.
  apply foldDesc_mapRanges
    with (off := off)
         (ok := fun r => 0 <= Range.first r - off
                         /\ Range.last r - off < QVector.size poly);
    trivial.
  - intros. now apply joinBody_app.
  - apply ranges_in_Forall in Hin.
    eapply Forall_impl; [|exact Hin]. simpl. intros r Hr. lia.
Qed.

(** Without an offset the loop body averages the stretch it replaces. *)
Lemma mapRanges_joinAt poly rs : forall pos,
  ranges_in pos (QVector.size poly) rs -> 0 <= pos ->
  mapRanges (fun r _ => [joinAt poly 0 r]) pos
            (skipn (Z.to_nat pos) poly) rs
  = mapRanges (fun _ seg => [mean seg]) pos (skipn (Z.to_nat pos) poly) rs.
Proof.
  induction rs as [|r rs IH]; intros pos Hin Hpos; [reflexivity|].
  simpl in Hin. destruct Hin as (H1 & H2 & H3 & H4).
  simpl. f_equal. f_equal.
  - unfold joinAt, slice. rewrite skipn_skipn. do 3 f_equal. lia.
  - rewrite skipn_skipn.
    replace (Z.to_nat (Range.last r + 1 - pos) + Z.to_nat pos)%nat
      with (Z.to_nat (Range.last r + 1)) by lia.
    apply IH; [trivial|lia].
Qed.
End JoinFacts.

Lemma nth_error_cons_last {A : Type} (l : list A) (x : A) :
  nth_error (x :: l) (length l) = Some (List.last l x).
Proof.
  destruct l as [|a l _] using rev_ind; [reflexivity|].
  rewrite last_last, length_app. simpl length.
  replace (length l + 1)%nat with (length (x :: l)) by (simpl; lia).
  apply (nth_error_snoc (x :: l) a).
Qed.

Section JoinMain.
Context {R : Type} `{QReal R}.
Implicit Types (poly result pre seg post : QPolygonF R).

(** The function on a non-empty range set and a polygon of three points
    or more, with the iterators resolved. *)
Lemma join_unfold poly fr rest closed :
  3 <= QVector.size poly ->
  joinPolygonNodes poly (fr :: rest) closed
  = let rs := fr :: rest in
    let lr := List.last rest fr in
    if (Range.first fr =? 0) && (Range.last lr =? QVector.size poly - 1)
    then
      if Nat.eqb 0 (length rest) then Some poly
      else if closed then
        sum <- sumRange poly 0 fr pnull ;;
        sum <- sumRange poly 0 lr sum ;;
        result <- QVector.remove poly (Range.first lr) (Range.length lr) ;;
        result <- QVector.remove result 1 (Range.length fr - 1) ;;
        result <- QVector.replace result 0
                    (pdiv sum (Range.length fr + Range.length lr)) ;;
        whileDesc (joinBody poly (Range.length fr - 1)) rs 1 (length rest)
                  result
      else whileDesc (joinBody poly 0) rs 0 (length rs) poly
    else whileDesc (joinBody poly 0) rs 0 (length rs) poly.
Proof.
  intros Hn. unfold joinPolygonNodes.
  cbn [RangeSet.isEmpty].
  replace (QVector.size poly <? 3) with false
    by (symmetry; apply Z.ltb_ge; lia).
  unfold RangeSet.begin, RangeSet.end_, RangeSet.deref.
  cbn [length RangeSet.dec bind nth_error].
  rewrite nth_error_cons_last. reflexivity.
Qed.

Lemma whileDesc_all (S : Type) (body : Range.t -> S -> option S) rs s :
  whileDesc body rs 0 (length rs) s = foldDesc body rs s.
Proof.
  pose proof (@whileDesc_fold S body [] rs [] s) as E.
  simpl in E. now rewrite app_nil_r in E.
Qed.

(** The loop over all the ranges, without an offset: every range becomes
    the mean of the points it covers. *)
Lemma join_loop_all poly rs :
  ranges_in 0 (QVector.size poly) rs ->
  whileDesc (joinBody poly 0) rs 0 (length rs) poly
  = Some (mapRanges (fun _ seg => [mean seg]) 0 poly rs).
Proof.
  intros Hin. rewrite whileDesc_all.
  pose proof (@join_loop R _ poly 0 rs 0 [] poly) as E.
  simpl app in E. rewrite E; try (rewrite ?size_nil; lia); trivial.
  f_equal. now apply (@mapRanges_joinAt R _ poly rs 0).
Qed.

Lemma join_whole poly r closed :
  Range.first r = 0 -> Range.last r = QVector.size poly - 1 ->
  joinPolygonNodes poly [r] closed = Some poly.
Proof.
  intros H1 H2. unfold joinPolygonNodes. cbn [RangeSet.isEmpty].
  destruct (QVector.size poly <? 3); [reflexivity|].
  cbn. now rewrite H1, H2, !Z.eqb_refl.
Qed.

(** When no merge across the seam takes place, every range becomes the mean
    of the points it covers and the other points stay. *)
Lemma join_all poly fr rest closed :
  3 <= QVector.size poly ->
  ranges_in 0 (QVector.size poly) (fr :: rest) ->
  (Range.first fr =? 0)
    && (Range.last (List.last rest fr) =? QVector.size poly - 1) = false
  \/ (rest <> [] /\ closed = false) ->
  joinPolygonNodes poly (fr :: rest) closed
  = Some (mapRanges (fun _ seg => [mean seg]) 0 poly (fr :: rest)).
Proof.
  intros Hn Hin Hc. rewrite join_unfold by trivial. cbv zeta.
  destruct Hc as [Hc|[Hne Hc]].
  - rewrite Hc. now apply join_loop_all.
  - subst closed.
    destruct ((Range.first fr =? 0) && _); [|now apply join_loop_all].
    destruct rest as [|x rest]; [congruence|].
    cbn [length Nat.eqb]. now apply join_loop_all.
Qed.

(** The seam merge of a closed polygon.  The point that replaces a range
    in between is the mean of the input points found [length fr - 1]
    positions before that range. *)
Lemma join_seam poly fr mid lr :
  3 <= QVector.size poly ->
  ranges_in 0 (QVector.size poly) (fr :: mid ++ [lr]) ->
  Range.first fr = 0 -> Range.last lr = QVector.size poly - 1 ->
  joinPolygonNodes poly (fr :: mid ++ [lr]) true
  = Some
      (mean (slice poly 0 (Range.length fr)
             ++ slice poly (Range.first lr) (Range.length lr))
       :: mapRanges (fun r _ => [joinAt poly (Range.length fr - 1) r])
            (Range.last fr + 1)
            (slice poly (Range.last fr + 1)
                   (Range.first lr - Range.last fr - 1))
            mid).
Proof.
  intros Hn Hin H0 Hl. rewrite join_unfold by trivial. cbv zeta.
  rewrite last_last. rewrite H0, Hl, !Z.eqb_refl. cbn [andb].
  rewrite length_app. cbn [length].
  replace (Nat.eqb 0 (length mid + 1)) with false
    by (symmetry; apply Nat.eqb_neq; lia).
  simpl in Hin. destruct Hin as (_ & Hf & _ & Hin).
  apply ranges_in_snoc in Hin. destruct Hin as (Hmid & Hfl & Hll & _).
  unfold Range.length in *. rewrite H0 in *. rewrite Hl in *.
  rewrite !Z.sub_0_r in *.
  set (f := Range.last fr) in *. set (l := Range.first lr) in *.
  set (n := QVector.size poly) in *.
  (* the polygon cut at the two ranges *)
  destruct (@cut3 _ poly (f + 1) (l - f - 1))
    as (HQ & H1 & H2 & H3); try lia.
  replace (f + 1 + (l - f - 1)) with l in * by lia.
  set (F := slice poly 0 (f + 1)) in *.
  set (M := slice poly (f + 1) (l - f - 1)) in *.
  assert (HL : slice poly l (n - 1 - l + 1) = skipn (Z.to_nat l) poly).
  { unfold slice. apply firstn_all2. rewrite length_skipn.
    unfold n, QVector.size. lia. }
  rewrite HL.
  set (L := skipn (Z.to_nat l) poly) in *.
  (* the two sums *)
  rewrite sumRange_slice by (rewrite ?H0; fold n; lia).
  rewrite H0, Z.sub_0_r. unfold Range.length. rewrite H0, Z.sub_0_r.
  fold f F. cbn [bind].
  rewrite sumRange_slice by (fold n l; lia).
  rewrite Z.sub_0_r. unfold Range.length. rewrite Hl. fold l n.
  rewrite HL. fold L. cbn [bind].
  (* the removals *)
  rewrite HQ at 1.
  replace (F ++ M ++ L) with ((F ++ M) ++ L ++ [])
    by (now rewrite app_nil_r, <- app_assoc).
  rewrite remove_app by (rewrite ?size_app; fold n in H3; lia).
  cbn [bind]. rewrite app_nil_r.
  destruct F as [|p0 F'] eqn:EF.
  { rewrite size_nil in H1. lia. }
  rewrite size_cons in H1.
  change ((p0 :: F') ++ M) with ([p0] ++ F' ++ M).
  rewrite remove_app by (rewrite ?size_cons, ?size_nil; lia).
  cbn [bind].
  change ([p0] ++ M) with ([] ++ p0 :: M).
  rewrite replace_app by reflexivity.
  cbn [bind app].
  (* the loop over the ranges in between *)
  pose proof (@whileDesc_fold _ (joinBody poly (f + 1 - 1))
                              [fr] mid [lr]) as E.
  cbn [length app Nat.add] in E.
  replace (length mid + 1)%nat with (Datatypes.S (length mid)) by lia.
  rewrite E.
  pose proof (@join_loop R _ poly (f + 1 - 1) mid (f + 1)
    [pdiv (fold_left padd L (fold_left padd (p0 :: F') pnull))
          (f + 1 + (n - 1 - l + 1))] M) as E2.
  cbn [app] in E2. rewrite E2.
  - f_equal. f_equal. unfold mean.
    change (p0 :: F' ++ L) with ((p0 :: F') ++ L).
    rewrite fold_left_app. f_equal.
    rewrite size_app, size_cons. fold n in H3. lia.
  - rewrite size_cons, size_nil. lia.
  - replace (f + 1 + QVector.size M) with l by lia. exact Hmid.
  - lia.
  - fold n. lia.
Qed.
End JoinMain.

(** * Facts on [mapRanges] *)

Lemma ranges_in_hi lo hi hi' rs :
  hi <= hi' -> ranges_in lo hi rs -> ranges_in lo hi' rs.
Proof.
  revert lo. induction rs as [|r rs IH]; simpl; [trivial|].
  intros lo Hle (H1 & H2 & H3 & H4). repeat split; trivial; [lia|].
  now apply IH.
Qed.

Section MapRangesFacts.
Context {T : Type}.
Variable f : Range.t -> list T -> list T.

(** Elements behind the last range are left where they are. *)
Lemma mapRanges_app rs : forall pos (Q E : list T),
  ranges_in pos (pos + QVector.size Q) rs ->
  mapRanges f pos (Q ++ E) rs = mapRanges f pos Q rs ++ E.
Proof.
  induction rs as [|r rs IH]; intros pos Q E Hin; [reflexivity|].
  simpl in Hin. destruct Hin as (Hlo & Hfl & Hhi & Hin).
  destruct (@cut3 T Q (Range.first r - pos) (Range.length r))
    as (HQ & H1 & H2 & H3); unfold Range.length in *; try lia.
  replace (Range.first r - pos + (Range.last r - Range.first r + 1))
    with (Range.last r + 1 - pos) in * by lia.
  simpl mapRanges. unfold Range.length.
  set (Q1 := slice Q 0 (Range.first r - pos)) in *.
  set (seg := slice Q (Range.first r - pos)
                    (Range.last r - Range.first r + 1)) in *.
  set (Q2 := skipn (Z.to_nat (Range.last r + 1 - pos)) Q) in *.
  assert (E1 : slice (Q ++ E) 0 (Range.first r - pos) = Q1).
  { rewrite HQ, <- !app_assoc. unfold slice. simpl skipn.
    apply firstn_exact. now apply to_nat_size. }
  assert (E2 : slice (Q ++ E) (Range.first r - pos)
                     (Range.last r - Range.first r + 1) = seg).
  { rewrite HQ, <- !app_assoc. now apply slice_app_exact. }
  assert (E3 : skipn (Z.to_nat (Range.last r + 1 - pos)) (Q ++ E)
               = Q2 ++ E).
  { rewrite HQ, <- !app_assoc.
    replace (Q1 ++ seg ++ Q2 ++ E) with ((Q1 ++ seg) ++ Q2 ++ E)
      by (now rewrite <- app_assoc).
    apply skipn_exact. rewrite length_app.
    unfold QVector.size in *. lia. }
  rewrite E1, E2, E3, IH.
  - now rewrite <- !app_assoc.
  - replace (Range.last r + 1 + QVector.size Q2)
      with (pos + QVector.size Q) by lia.
    exact Hin.
Qed.

Lemma sizeAfter_shift g rs : forall n d,
  sizeAfter g (n + d) rs = sizeAfter g n rs + d.
Proof.
  induction rs as [|r rs IH]; intros n d; simpl; [reflexivity|].
  rewrite <- IH. f_equal. lia.
Qed.

Lemma mapRanges_size g rs : forall pos (Q : list T),
  (forall r seg, QVector.size (f r seg) = g (QVector.size seg)) ->
  ranges_in pos (pos + QVector.size Q) rs ->
  QVector.size (mapRanges f pos Q rs) = sizeAfter g (QVector.size Q) rs.
Proof.
  induction rs as [|r rs IH]; intros pos Q Hg Hin; [reflexivity|].
  simpl in Hin. destruct Hin as (Hlo & Hfl & Hhi & Hin).
  destruct (@cut3 T Q (Range.first r - pos) (Range.length r))
    as (HQ & H1 & H2 & H3); unfold Range.length in *; try lia.
  replace (Range.first r - pos + (Range.last r - Range.first r + 1))
    with (Range.last r + 1 - pos) in * by lia.
  simpl. unfold Range.length.
  rewrite !size_app, Hg, H1, H2, IH; trivial.
  - rewrite H3.
    replace (QVector.size Q - (Range.last r - Range.first r + 1)
             + g (Range.last r - Range.first r + 1))
      with (QVector.size Q - (Range.last r + 1 - pos)
            + (Range.first r - pos
               + g (Range.last r - Range.first r + 1))) by lia.
    rewrite sizeAfter_shift. lia.
  - replace (Range.last r + 1 + _) with (pos + QVector.size Q) by lia.
    exact Hin.
Qed.
End MapRangesFacts.

(** * Splitting segments *)

Section SplitFacts.
Context {R : Type} `{QReal R}.
Implicit Types (poly result pre seg post : QPolygonF R).

Lemma weave_snoc l : forall p w x,
  weave p (l ++ [w; x]) = weave p (l ++ [w]) ++ [midpoint x w; x].
Proof.
  induction l as [|a l IH]; intros p w x; simpl; [reflexivity|].
  now rewrite IH.
Qed.

Lemma splitAll_snoc l w x :
  splitAll (l ++ [w; x]) = splitAll (l ++ [w]) ++ [midpoint x w; x].
Proof.
  destruct l as [|a l]; simpl; [reflexivity|]. now rewrite weave_snoc.
Qed.

Lemma splitAt_app seg : forall pre x post i,
  QVector.size pre + QVector.size seg = i ->
  splitAt (length seg) i (pre ++ seg ++ x :: post)
  = Some (pre ++ splitAll (seg ++ [x]) ++ post).
Proof.
  induction seg as [|w seg IH] using rev_ind; intros pre x post i Hi.
  - reflexivity.
  - rewrite length_app. simpl length.
    replace (length seg + 1)%nat with (Datatypes.S (length seg)) by lia.
    rewrite size_app, size_cons, size_nil in Hi.
    cbn [splitAt].
    replace (pre ++ (seg ++ [w]) ++ x :: post)
      with ((pre ++ seg ++ [w]) ++ x :: post)
      by (now rewrite <- !app_assoc).
    rewrite at_app by (rewrite !size_app, size_cons, size_nil; lia).
    cbn [bind].
    replace ((pre ++ seg ++ [w]) ++ x :: post)
      with ((pre ++ seg) ++ w :: x :: post)
      by (now rewrite <- !app_assoc).
    rewrite at_app by (rewrite !size_app; lia).
    cbn [bind].
    replace ((pre ++ seg) ++ w :: x :: post)
      with ((pre ++ seg ++ [w]) ++ x :: post)
      by (now rewrite <- !app_assoc).
    rewrite insert_app by (rewrite !size_app, size_cons, size_nil; lia).
    cbn [bind].
    replace ((pre ++ seg ++ [w]) ++ midpoint x w :: x :: post)
      with (pre ++ seg ++ w :: midpoint x w :: x :: post)
      by (now rewrite <- !app_assoc).
    rewrite IH by lia.
    rewrite <- (app_assoc seg [w] [x]). simpl app.
    rewrite splitAll_snoc. now rewrite <- !app_assoc.
Qed.

Lemma splitBody_app r pre seg post :
  True -> Range.first r <= Range.last r ->
  QVector.size pre = Range.first r - 0 ->
  QVector.size seg = Range.length r ->
  splitBody r (pre ++ seg ++ post)
  = Some (pre ++ (fun _ s => splitAll s) r seg ++ post).
Proof.
  intros _ Hfl Hp Hs. unfold splitBody, Range.length in *.
  destruct seg as [|y seg' _] using rev_ind.
  { rewrite size_nil in Hs. lia. }
  rewrite size_app, size_cons, size_nil in Hs.
  replace (Z.to_nat (Range.last r - Range.first r)) with (length seg')
    by (unfold QVector.size in Hs; lia).
  rewrite <- app_assoc. simpl app.
  now rewrite splitAt_app by lia.
Qed.

Lemma split_loop poly rs :
  rs <> [] -> ranges_in 0 (QVector.size poly) rs ->
  doWhileDesc splitBody rs (RangeSet.begin rs) (RangeSet.end_ rs) poly
  = Some (mapRanges (fun _ s => splitAll s) 0 poly rs).
Proof.
  intros Hne Hin. rewrite doWhileDesc_fold by trivial.
  pose proof (@foldDesc_mapRanges _ (fun _ s => splitAll s) splitBody 0
                (fun _ => True) splitBody_app rs 0 [] poly) as E.
  simpl app in E. apply E; trivial.
  apply Forall_forall. trivial.
Qed.

Lemma split_open poly rs :
  rs <> [] -> ranges_in 0 (QVector.size poly) rs ->
  splitPolygonSegments poly rs false
  = Some (mapRanges (fun _ s => splitAll s) 0 poly rs).
Proof.
  intros Hne Hin. unfold splitPolygonSegments.
  destruct rs as [|fr rest]; [congruence|].
  cbn [RangeSet.isEmpty bind]. now apply split_loop.
Qed.

Lemma split_closed poly fr rest :
  ranges_in 0 (QVector.size poly) (fr :: rest) ->
  splitPolygonSegments poly (fr :: rest) true
  = if (Range.first fr =? 0)
       && (Range.last (List.last rest fr) =? QVector.size poly - 1)
    then m <- seamPoint poly ;;
         Some (mapRanges (fun _ s => splitAll s) 0 poly (fr :: rest)
               ++ [m])
    else Some (mapRanges (fun _ s => splitAll s) 0 poly (fr :: rest)).
Proof.
  intros Hin. unfold splitPolygonSegments.
  cbn [RangeSet.isEmpty].
  unfold RangeSet.deref at 1 2. unfold RangeSet.begin at 1, RangeSet.end_ at 1.
  cbn [length RangeSet.dec bind nth_error].
  rewrite nth_error_cons_last. cbn [bind].
  destruct ((Range.first fr =? 0) && _).
  - unfold seamPoint.
    destruct (QVector.first poly) as [p|]; [|reflexivity].
    destruct (QVector.last poly) as [q|]; [|reflexivity].
    cbn [bind]. unfold QVector.append.
    rewrite split_loop; [|discriminate|].
    + f_equal. apply mapRanges_app. exact Hin.
    + apply ranges_in_hi with (hi := QVector.size poly); trivial.
      rewrite size_app, size_cons, size_nil. lia.
  - cbn [bind]. apply split_loop; [discriminate|trivial].
Qed.

Lemma seamPoint_Some poly :
  1 <= QVector.size poly -> exists m, seamPoint poly = Some m.
Proof.
  intros Hn. unfold seamPoint, QVector.first, QVector.last.
  destruct poly as [|p poly]; [rewrite size_nil in Hn; lia|].
  pose proof (@at_app _ [] p poly 0 eq_refl) as E0. simpl app in E0.
  rewrite E0. cbn [bind].
  destruct (@exists_last _ (p :: poly)) as [pre [q E]]; [discriminate|].
  rewrite E. rewrite at_app.
  - cbn [bind]. eauto.
  - rewrite size_app, size_cons, size_nil. lia.
Qed.
End SplitFacts.

(** * Deleting nodes *)

Section KeepIf.
Context {T : Type}.
Implicit Types (l : list T).

Lemma keepIf_app keep l1 : forall i l2,
  keepIf keep i (l1 ++ l2)
  = keepIf keep i l1 ++ keepIf keep (i + QVector.size l1) l2.
Proof.
  induction l1 as [|x l1 IH]; intros i l2.
  - simpl. rewrite size_nil. f_equal. lia.
  - simpl. rewrite IH, size_cons.
    replace (i + 1 + QVector.size l1) with (i + (1 + QVector.size l1))
      by lia.
    now destruct (keep i).
Qed.

Lemma keepIf_ext keep keep' l : forall i,
  (forall j, i <= j < i + QVector.size l -> keep j = keep' j) ->
  keepIf keep i l = keepIf keep' i l.
Proof.
  induction l as [|x l IH]; intros i Hk; [reflexivity|].
  rewrite size_cons in Hk. pose proof (size_nonneg l).
  simpl. rewrite (IH (i + 1)) by (intros; apply Hk; lia).
  rewrite (Hk i) by lia. reflexivity.
Qed.

Lemma keepIf_true l : forall i, keepIf (fun _ => true) i l = l.
Proof. induction l as [|x l IH]; intros i; simpl; now rewrite ?IH. Qed.

Lemma keepIf_false l : forall i, keepIf (fun _ => false) i l = [].
Proof. induction l as [|x l IH]; intros i; simpl; now rewrite ?IH. Qed.
End KeepIf.

Lemma selected_below rs : forall lo hi i,
  ranges_in lo hi rs -> i < lo -> selected rs i = false.
Proof.
  induction rs as [|r rs IH]; intros lo hi i Hin Hi; [reflexivity|].
  simpl in Hin. destruct Hin as (H1 & H2 & H3 & H4).
  unfold selected in *. simpl.
  rewrite (IH (Range.last r + 1) hi) by (trivial; lia).
  replace (Range.first r <=? i) with false
    by (symmetry; apply Z.leb_gt; lia).
  reflexivity.
Qed.

Lemma mapRanges_delete {T : Type} rs : forall pos (Q : list T),
  ranges_in pos (pos + QVector.size Q) rs ->
  mapRanges (fun _ _ => []) pos Q rs
  = keepIf (fun i => negb (selected rs i)) pos Q.
Proof.
  induction rs as [|r rs IH]; intros pos Q Hin.
  - simpl. symmetry. apply keepIf_true.
  - pose proof Hin as Hin0.
    simpl in Hin. destruct Hin as (Hlo & Hfl & Hhi & Hin).
    destruct (@cut3 T Q (Range.first r - pos) (Range.length r))
      as (HQ & H1 & H2 & H3); unfold Range.length in *; try lia.
    replace (Range.first r - pos + (Range.last r - Range.first r + 1))
      with (Range.last r + 1 - pos) in * by lia.
    simpl mapRanges. unfold Range.length.
    set (Q1 := slice Q 0 (Range.first r - pos)) in *.
    set (seg := slice Q (Range.first r - pos)
                      (Range.last r - Range.first r + 1)) in *.
    set (Q2 := skipn (Z.to_nat (Range.last r + 1 - pos)) Q) in *.
    rewrite HQ at 1. rewrite !keepIf_app.
    rewrite (@keepIf_ext _ _ (fun _ => true) Q1).
    2:{ intros j Hj. rewrite (@selected_below (r :: rs) (Range.first r)
                                (pos + QVector.size Q)); try lia.
        simpl. repeat split; trivial; lia. }
    rewrite (@keepIf_ext _ _ (fun _ => false) seg).
    2:{ intros j Hj. unfold selected. simpl.
        replace (Range.first r <=? j) with true
          by (symmetry; apply Z.leb_le; lia).
        replace (j <=? Range.last r) with true
          by (symmetry; apply Z.leb_le; lia).
        reflexivity. }
    rewrite keepIf_true, keepIf_false. simpl app. f_equal.
    rewrite IH.
    + replace (pos + QVector.size Q1 + QVector.size seg)
        with (Range.last r + 1) by lia.
      apply keepIf_ext. intros j Hj. unfold selected. simpl.
      replace (j <=? Range.last r) with false
        by (symmetry; apply Z.leb_gt; lia).
      now rewrite andb_false_r.
    + replace (Range.last r + 1 + QVector.size Q2)
        with (pos + QVector.size Q) by lia.
      exact Hin.
Qed.

Section DeleteFacts.
Context {R : Type} `{QReal R}.

Lemma removeRange_app {T : Type} r (pre seg post : list T) :
  True -> Range.first r <= Range.last r ->
  QVector.size pre = Range.first r - 0 ->
  QVector.size seg = Range.length r ->
  removeRange r (pre ++ seg ++ post)
  = Some (pre ++ (fun _ _ => []) r seg ++ post).
Proof.
  intros _ _ Hp Hs. unfold removeRange. apply remove_app; trivial. lia.
Qed.

Lemma removeRange_fold {T : Type} rs (v : list T) :
  ranges_in 0 (QVector.size v) rs ->
  foldDesc removeRange rs v = Some (unselected rs v).
Proof.
  intros Hin. unfold unselected. rewrite <- mapRanges_delete by trivial.
  pose proof (@foldDesc_mapRanges T (fun _ _ => []) removeRange 0
                (fun _ => True) (@removeRange_app T) rs 0 [] v) as E.
  simpl app in E. apply E; trivial.
  apply Forall_forall. trivial.
Qed.

Lemma deleteBody_fold sh rs : forall (p l r p' l' r' : QPolygonF R),
  foldDesc removeRange rs p = Some p' ->
  (isCurve sh = true -> foldDesc removeRange rs l = Some l'
                        /\ foldDesc removeRange rs r = Some r') ->
  foldDesc (deleteBody sh) rs (p, l, r)
  = Some (if isCurve sh then (p', l', r') else (p', l, r)).
Proof.
  unfold isCurve.
  induction rs as [|a rs IH]; intros p l r p' l' r' Hp Hc.
  - simpl in *. injection Hp as <-.
    destruct (Shape_eqb sh Bezierline || Shape_eqb sh Bezierloop);
      [|reflexivity].
    destruct Hc as [Hl Hr]; trivial. now injection Hl as <-; injection Hr as <-.
  - simpl in Hp. destruct (foldDesc removeRange rs p) as [p1|] eqn:Ep;
      [|discriminate].
    simpl in Hp. simpl foldDesc.
    destruct (Shape_eqb sh Bezierline || Shape_eqb sh Bezierloop) eqn:Ec.
    + destruct Hc as [Hl Hr]; trivial. simpl in Hl, Hr.
      destruct (foldDesc removeRange rs l) as [l1|] eqn:El; [|discriminate].
      destruct (foldDesc removeRange rs r) as [r1|] eqn:Er; [|discriminate].
      simpl in Hl, Hr.
      rewrite (IH p l r p1 l1 r1); auto.
      simpl. unfold removeRange in Hp, Hl, Hr. rewrite Hp. simpl.
      rewrite Ec. now rewrite Hl, Hr.
    + rewrite (IH p l r p1 l r); [|exact Ep|discriminate].
      simpl. unfold removeRange in Hp. rewrite Hp. simpl.
      now rewrite Ec.
Qed.

(** The state of the three sequences when the deletion loop ends. *)
Lemma delete_loop (object : MapObject R) rs :
  rs <> [] ->
  ranges_in 0 (QVector.size (polygon object)) rs ->
  (isCurve (shape object) = true ->
   QVector.size (leftControlPoints object) = QVector.size (polygon object)
   /\ QVector.size (rightControlPoints object)
      = QVector.size (polygon object)) ->
  doWhileDesc (deleteBody (shape object)) rs
              (RangeSet.begin rs) (RangeSet.end_ rs)
              (polygon object, leftControlPoints object,
               rightControlPoints object)
  = Some (if isCurve (shape object)
          then (unselected rs (polygon object),
                unselected rs (leftControlPoints object),
                unselected rs (rightControlPoints object))
          else (unselected rs (polygon object),
                leftControlPoints object, rightControlPoints object)).
Proof.
  intros Hne Hin Hc. rewrite doWhileDesc_fold by trivial.
  apply deleteBody_fold.
  - now apply removeRange_fold.
  - intros Hcurve. destruct (Hc Hcurve) as [Hl Hr].
    split; apply removeRange_fold; congruence.
Qed.
End DeleteFacts.

(** * The cases of [joinPolygonNodes] *)

Lemma sizeAfter_join rs : forall n,
  sizeAfter (fun _ => 1) n rs = n - removedByJoin rs.
Proof.
  induction rs as [|r rs IH]; intros n; simpl; [lia|].
  rewrite IH. lia.
Qed.

Section JoinCases.
Context {R : Type} `{QReal R}.
Implicit Types (poly : QPolygonF R).

Lemma join_noop poly rs closed :
  noopCase poly rs -> joinPolygonNodes poly rs closed = Some poly.
Proof.
  intros [->|[Hn|(r & -> & H0 & Hl)]].
  - reflexivity.
  - unfold joinPolygonNodes. destruct (RangeSet.isEmpty rs); [reflexivity|].
    now replace (QVector.size poly <? 3) with true
      by (symmetry; apply Z.ltb_lt; lia).
  - now apply join_whole.
Qed.

(** Outside the three cases the ranges are averaged, with or without a
    merge across the seam. *)
Lemma join_cases poly rs closed :
  ranges_in 0 (QVector.size poly) rs ->
  noopCase poly rs
  \/ joinPolygonNodes poly rs closed
     = Some (mapRanges (fun _ seg => [mean seg]) 0 poly rs)
  \/ exists fr mid lr,
       rs = fr :: mid ++ [lr] /\ closed = true
       /\ Range.first fr = 0 /\ Range.last lr = QVector.size poly - 1
       /\ joinPolygonNodes poly rs closed
          = Some
              (mean (slice poly 0 (Range.length fr)
                     ++ slice poly (Range.first lr) (Range.length lr))
               :: mapRanges
                    (fun r _ => [joinAt poly (Range.length fr - 1) r])
                    (Range.last fr + 1)
                    (slice poly (Range.last fr + 1)
                           (Range.first lr - Range.last fr - 1))
                    mid).
Proof.
  intros Hin.
  destruct (Z_lt_ge_dec (QVector.size poly) 3) as [Hn|Hn];
    [left; right; now left|].
  destruct (list_ends rs) as [->|[[r ->]|(fr & mid & lr & ->)]];
    [left; now left| |].
  - destruct ((Range.first r =? 0)
              && (Range.last r =? QVector.size poly - 1)) eqn:E.
    + apply andb_true_iff in E. destruct E as [E1 E2].
      apply Z.eqb_eq in E1, E2. left. right. right. now exists r.
    + right. left. apply join_all; trivial; [lia|]. left. exact E.
  - destruct ((Range.first fr =? 0)
              && (Range.last lr =? QVector.size poly - 1)) eqn:E.
    + apply andb_true_iff in E. destruct E as [E1 E2].
      apply Z.eqb_eq in E1, E2.
      destruct closed.
      * right. right. exists fr, mid, lr.
        repeat split; trivial. apply join_seam; trivial. lia.
      * right. left. apply join_all; trivial; [lia|]. right.
        split; [|reflexivity]. now destruct mid.
    + right. left. apply join_all; trivial; [lia|]. left.
      now rewrite last_last.
Qed.
End JoinCases.

Lemma removedByJoin_app rs1 rs2 :
  removedByJoin (rs1 ++ rs2) = removedByJoin rs1 + removedByJoin rs2.
Proof.
  unfold removedByJoin. induction rs1 as [|r rs1 IH]; simpl; lia.
Qed.

Section JoinSize.
Context {R : Type} `{QReal R}.
Implicit Types (poly : QPolygonF R).

Lemma join_plain_size poly rs :
  ranges_in 0 (QVector.size poly) rs ->
  QVector.size (mapRanges (fun _ seg => [mean seg]) 0 poly rs)
  = QVector.size poly - removedByJoin rs.
Proof.
  intros Hin. rewrite (@mapRanges_size _ _ (fun _ => 1)); trivial.
  apply sizeAfter_join.
Qed.

Lemma join_seam_size poly fr mid lr (g : Range.t -> QPointF R) :
  ranges_in 0 (QVector.size poly) (fr :: mid ++ [lr]) ->
  Range.first fr = 0 -> Range.last lr = QVector.size poly - 1 ->
  QVector.size
    (mapRanges (fun r _ => [g r]) (Range.last fr + 1)
       (slice poly (Range.last fr + 1) (Range.first lr - Range.last fr - 1))
       mid)
  = QVector.size poly - (Range.length fr + Range.length lr - 1)
    - removedByJoin mid - 1.
Proof.
  intros Hin H0 Hl.
  simpl in Hin. destruct Hin as (Hf0 & Hf & _ & Hin).
  apply ranges_in_snoc in Hin. destruct Hin as (Hmid & Hfl & Hll & Hlh).
  destruct (@cut3 _ poly (Range.last fr + 1)
                  (Range.first lr - Range.last fr - 1))
    as (_ & _ & H2 & _); try lia.
  rewrite (@mapRanges_size _ _ (fun _ => 1)).
  - rewrite sizeAfter_join, H2. unfold Range.length. lia.
  - reflexivity.
  - rewrite H2.
    replace (Range.last fr + 1 + (Range.first lr - Range.last fr - 1))
      with (Range.first lr) by lia.
    exact Hmid.
Qed.

(** The number of points of the result depends on the number of points of
    the argument only. *)
Lemma join_size poly rs closed :
  ranges_in 0 (QVector.size poly) rs ->
  exists result,
    joinPolygonNodes poly rs closed = Some result
    /\ QVector.size result = joinSize (QVector.size poly) rs closed.
Proof.
  intros Hin. destruct rs as [|fr rest]; [exists poly; now split|].
  unfold joinSize.
  destruct (QVector.size poly <? 3) eqn:En.
  { exists poly. split; [|reflexivity]. apply join_noop. right. left.
    now apply Z.ltb_lt. }
  apply Z.ltb_ge in En.
  destruct ((Range.first fr =? 0)
            && (Range.last (List.last rest fr) =? QVector.size poly - 1))
    eqn:E.
  - apply andb_true_iff in E. destruct E as [E1 E2].
    apply Z.eqb_eq in E1, E2.
    destruct rest as [|x rest'] eqn:Er.
    + exists poly. split; [|reflexivity]. now apply join_whole.
    + rewrite <- Er in *.
      destruct closed.
      * destruct (@exists_last _ rest) as [mid [lr Em]]; [congruence|].
        rewrite Em in *. rewrite last_last in E2.
        eexists. split; [now apply join_seam|].
        rewrite size_cons, join_seam_size by trivial.
        change (fr :: mid ++ [lr]) with ([fr] ++ mid ++ [lr]).
        rewrite !removedByJoin_app.
        change (removedByJoin [fr]) with (Range.length fr - 1 + 0).
        change (removedByJoin [lr]) with (Range.length lr - 1 + 0).
        lia.
      * eexists. split.
        -- apply join_all; trivial. right. split; congruence.
        -- now apply join_plain_size.
  - eexists. split.
    + apply join_all; trivial. now left.
    + now apply join_plain_size.
Qed.
End JoinSize.

(** * Subsequences *)

Section SubseqFacts.
Context {T : Type}.
Implicit Types (l v : list T).

Lemma Subseq_refl l : Subseq l l.
Proof. induction l; constructor; trivial. Qed.

Lemma Subseq_app l1 l1' l2 l2' :
  Subseq l1 l1' -> Subseq l2 l2' -> Subseq (l1 ++ l2) (l1' ++ l2').
Proof.
  intros H1 H2. induction H1; simpl; trivial; now constructor.
Qed.

Lemma Subseq_trans l1 l2 l3 :
  Subseq l1 l2 -> Subseq l2 l3 -> Subseq l1 l3.
Proof.
  intros H12 H23. revert l1 H12.
  induction H23 as [|x l2 l3 H IH|x l2 l3 H IH]; intros l1 H12.
  - exact H12.
  - inversion H12; subst.
    + constructor. now apply IH.
    + apply Subseq_skip. now apply IH.
  - apply Subseq_skip. now apply IH.
Qed.

Lemma Subseq_size l1 l2 :
  Subseq l1 l2 -> QVector.size l1 <= QVector.size l2.
Proof.
  induction 1; rewrite ?size_cons; lia.
Qed.

Lemma insert_Subseq v i x v' :
  QVector.insert v i x = Some v' -> Subseq v v'.
Proof.
  unfold QVector.insert.
  destruct ((0 <=? i) && (i <=? QVector.size v)); [|discriminate].
  intros E. injection E as <-.
  rewrite <- (firstn_skipn (Z.to_nat i) v) at 1.
  apply Subseq_app; [apply Subseq_refl|].
  apply Subseq_skip, Subseq_refl.
Qed.
End SubseqFacts.

Lemma bind_inv {A B : Type} (m : option A) (k : A -> option B) (b : B) :
  bind m k = Some b -> exists a, m = Some a /\ k a = Some b.
Proof. destruct m as [a|]; [eauto|discriminate]. Qed.

Section SplitSubseq.
Context {R : Type} `{QReal R}.
Implicit Types (poly v : QPolygonF R).

Lemma splitAt_Subseq c : forall i v v',
  splitAt c i v = Some v' -> Subseq v v'.
Proof.
  induction c as [|c IH]; intros i v v' E.
  - injection E as <-. apply Subseq_refl.
  - cbn [splitAt] in E.
    apply bind_inv in E. destruct E as (p & _ & E).
    apply bind_inv in E. destruct E as (q & _ & E).
    apply bind_inv in E. destruct E as (w & Ei & E).
    eapply Subseq_trans; [eapply insert_Subseq; eassumption|].
    eapply IH; eassumption.
Qed.

Lemma splitLoop_Subseq rs k it : forall v v',
  doWhileDesc splitBody rs k it v = Some v' -> Subseq v v'.
Proof.
  induction it as [|it IH]; intros v v' E; [discriminate|].
  cbn [doWhileDesc] in E.
  apply bind_inv in E. destruct E as (r & _ & E).
  apply bind_inv in E. destruct E as (w & Eb & E).
  apply splitAt_Subseq in Eb.
  destruct (Nat.eqb it k).
  - injection E as <-. exact Eb.
  - eapply Subseq_trans; [exact Eb|]. eapply IH; eassumption.
Qed.

Lemma split_Subseq poly rs closed res :
  splitPolygonSegments poly rs closed = Some res -> Subseq poly res.
Proof.
  unfold splitPolygonSegments.
  destruct (RangeSet.isEmpty rs).
  { intros E. injection E as <-. apply Subseq_refl. }
  intros E. apply bind_inv in E. destruct E as (v & Ev & E).
  apply splitLoop_Subseq in E.
  eapply Subseq_trans; [|exact E].
  assert (Happ : forall m, Subseq poly (QVector.append poly m)).
  { intros m. unfold QVector.append.
    rewrite <- (app_nil_r poly) at 1.
    apply Subseq_app; [apply Subseq_refl|]. apply Subseq_skip, Subseq_nil. }
  destruct closed.
  - apply bind_inv in Ev. destruct Ev as (it & _ & Ev).
    apply bind_inv in Ev. destruct Ev as (fr & _ & Ev).
    apply bind_inv in Ev. destruct Ev as (lr & _ & Ev).
    destruct ((Range.first fr =? 0) && _).
    + apply bind_inv in Ev. destruct Ev as (p & _ & Ev).
      apply bind_inv in Ev. destruct Ev as (q & _ & Ev).
      injection Ev as <-. apply Happ.
    + injection Ev as <-. apply Subseq_refl.
  - injection Ev as <-. apply Subseq_refl.
Qed.

Lemma split_spec poly rs closed :
  rs <> [] -> ranges_in 0 (QVector.size poly) rs ->
  splitPolygonSegments poly rs closed
  = Some (mapRanges (fun _ s => splitAll s) 0 poly rs
          ++ seamExtra poly rs closed).
Proof.
  intros Hne Hin. destruct rs as [|fr rest]; [congruence|].
  assert (Hn : 1 <= QVector.size poly).
  { simpl in Hin. lia. }
  destruct (seamPoint_Some poly Hn) as [m Em].
  unfold seamExtra. rewrite Em.
  destruct closed.
  - rewrite split_closed by trivial. rewrite Em. cbn [andb bind].
    destruct ((Range.first fr =? 0) && _); [reflexivity|].
    now rewrite app_nil_r.
  - rewrite split_open by trivial. cbn [andb]. now rewrite app_nil_r.
Qed.
End SplitSubseq.

(** * The seam merge of [joinPolygonNodes] *)

Lemma at_head {T : Type} (x : T) (v : list T) :
  QVector.at_ (x :: v) 0 = Some x.
Proof. exact (@at_app T [] x v 0 eq_refl). Qed.

(** C1.  On a closed polygon of three points or more, with a range set of
    two ranges or more whose first range starts at index 0 and whose last
    range ends at the last index, [joinPolygonNodes] merges these two ranges
    across the seam: the result starts with the mean of the points of both
    ranges, followed by the points between the two ranges, in which every
    range in between has become one point.  The slice of the last range is
    gone and one slot is left of the slice of the first range: the two
    ranges cost [length fr + length lr - 1] points. *)
Theorem joinPolygonNodes_seam_merge {R : Type} `{QReal R}
  (poly : QPolygonF R) (fr : Range.t) (mid : RangeSet) (lr : Range.t) :
  3 <= QVector.size poly ->
  ranges_in 0 (QVector.size poly) (fr :: mid ++ [lr]) ->
  Range.first fr = 0 ->
  Range.last lr = QVector.size poly - 1 ->
  exists (g : Range.t -> QPointF R) (result : QPolygonF R),
    joinPolygonNodes poly (fr :: mid ++ [lr]) true = Some result
    /\ result
       = mean (slice poly 0 (Range.length fr)
               ++ slice poly (Range.first lr) (Range.length lr))
         :: mapRanges (fun r _ => [g r]) (Range.last fr + 1)
              (slice poly (Range.last fr + 1)
                     (Range.first lr - Range.last fr - 1))
              mid
    /\ QVector.at_ result 0
       = Some (mean (slice poly 0 (Range.length fr)
                     ++ slice poly (Range.first lr) (Range.length lr)))
    /\ QVector.size result
       = QVector.size poly - (Range.length fr + Range.length lr - 1)
         - removedByJoin mid.
Proof.
  intros Hn Hin H0 Hl.
  exists (joinAt poly (Range.length fr - 1)). eexists.
  split; [now apply join_seam|].
  split; [reflexivity|].
  split; [apply at_head|].
  rewrite size_cons, join_seam_size by trivial. lia.
Qed.

(** The closed square with its first and last node selected: the two nodes
    become one node at index 0 and the square loses one point. *)
Lemma joinPolygonNodes_seam_merge_witness :
  3 <= QVector.size square
  /\ ranges_in 0 (QVector.size square) (Range.mk 0 0 :: [] ++ [Range.mk 3 3])
  /\ exists (g : Range.t -> QPointF Q) (result : QPolygonF Q),
       joinPolygonNodes square (Range.mk 0 0 :: [] ++ [Range.mk 3 3]) true
       = Some result
       /\ result
          = mean (slice square 0 (Range.length (Range.mk 0 0))
                  ++ slice square (Range.first (Range.mk 3 3))
                           (Range.length (Range.mk 3 3)))
            :: mapRanges (fun r _ => [g r]) (Range.last (Range.mk 0 0) + 1)
                 (slice square (Range.last (Range.mk 0 0) + 1)
                        (Range.first (Range.mk 3 3)
                         - Range.last (Range.mk 0 0) - 1))
                 []
       /\ QVector.at_ result 0
          = Some (mean (slice square 0 (Range.length (Range.mk 0 0))
                        ++ slice square (Range.first (Range.mk 3 3))
                                 (Range.length (Range.mk 3 3))))
       /\ QVector.size result
          = QVector.size square
            - (Range.length (Range.mk 0 0) + Range.length (Range.mk 3 3) - 1)
            - removedByJoin [].
Proof.
  assert (Hn : 3 <= QVector.size square) by (vm_compute; discriminate).
  assert (Hin : ranges_in 0 (QVector.size square)
                          (Range.mk 0 0 :: [] ++ [Range.mk 3 3]))
    by (vm_compute; intuition discriminate).
  split; [exact Hn|]. split; [exact Hin|].
  exact (@joinPolygonNodes_seam_merge Q _ square (Range.mk 0 0) []
           (Range.mk 3 3) Hn Hin eq_refl eq_refl).
Defined.

(** * The ranges that are averaged on their own *)

(** An open square with the nodes 1 and 2 selected: the two nodes become
    the node (10,5). *)
Example joinPolygonNodes_open_interior :
  joinPolygonNodes square [Range.mk 1 2] false
  = Some [pt 0 0; pt 10 5; pt 0 10].
Proof. vm_compute. reflexivity. Qed.

(** C2.  Seven points in a row on a closed shape, ranges [0..1], [3..4] and
    [6..6].  The first and the last range merge across the seam, so the
    offset is 1.  The range [3..4] covers the points (3,0) and (4,0), whose
    mean is (7/2,0); the function puts (5/2,0) there, the mean of the points
    at the indexes 2 and 3. *)
Theorem joinPolygonNodes_offset_average :
  joinPolygonNodes line7 [Range.mk 0 1; Range.mk 3 4; Range.mk 6 6] true
  = Some [mkPoint (7 # 3) 0%Q; pt 2 0; mkPoint (5 # 2) 0%Q; pt 5 0]
  /\ mean (slice line7 3 2) = mkPoint (7 # 2) 0%Q
  /\ mean (slice line7 2 2) = mkPoint (5 # 2) 0%Q.
Proof. repeat split; vm_compute; reflexivity. Qed.

(** * The cases without effect *)

(** C8, as amended.  [joinPolygonNodes] hands back its argument when the
    range set is empty, when the polygon has fewer than three points, and
    when the selection is one range from index 0 to the last index, on open
    and on closed shapes alike; [joinNodes] then leaves the object and the
    undo stack as they are. *)
Theorem joinPolygonNodes_noop {R : Type} `{QReal R}
  (object : MapObject R) (rs : RangeSet) (closed : bool)
  (undoStack : list (UndoCommand R)) :
  noopCase (polygon object) rs ->
  joinPolygonNodes (polygon object) rs closed = Some (polygon object)
  /\ joinNodes object rs undoStack = Some (object, undoStack).
Proof.
  intros Hc. split; [now apply join_noop|].
  unfold joinNodes. rewrite join_noop by trivial. cbn [bind].
  now rewrite Z.ltb_irrefl.
Qed.

Lemma joinPolygonNodes_noop_witness :
  noopCase (polygon loop3) [Range.mk 0 2]
  /\ joinPolygonNodes (polygon loop3) [Range.mk 0 2] true
     = Some (polygon loop3)
  /\ joinNodes loop3 [Range.mk 0 2] [] = Some (loop3, []).
Proof.
  assert (Hc : noopCase (polygon loop3) [Range.mk 0 2]).
  { right. right. exists (Range.mk 0 2). repeat split. }
  split; [exact Hc|].
  exact (@joinPolygonNodes_noop Q _ loop3 [Range.mk 0 2] true [] Hc).
Defined.

(** C8, as stated, fails: the three cases are not the only ones in which
    the result equals the argument.  One selected node in the middle of an
    open shape of three points is none of the three cases, and the result
    is the argument. *)
Lemma joinPolygonNodes_single_index_unchanged :
  joinPolygonNodes line3 [Range.mk 1 1] false = Some line3
  /\ ~ noopCase line3 [Range.mk 1 1].
Proof.
  split; [vm_compute; reflexivity|].
  intros [E|[E|(r & E & E0 & _)]].
  - discriminate.
  - vm_compute in E. discriminate.
  - injection E as <-. discriminate.
Qed.

(** * Accesses within the bounds *)

(** C10.  A vector access outside the bounds and a step back from
    [begin()] make the model return [None].  For a non-empty range set
    whose ranges ascend, are disjoint and lie in [[0, n-1]], both functions
    return a result: every access they make is within the bounds of the
    vector it reads or writes, and the iterators are stepped back
    only from positions behind [begin()]. *)
Theorem node_accesses_in_bounds {R : Type} `{QReal R}
  (poly : QPolygonF R) (rs : RangeSet) (closed : bool) :
  rs <> [] ->
  ranges_in 0 (QVector.size poly) rs ->
  (exists result, joinPolygonNodes poly rs closed = Some result)
  /\ (exists result, splitPolygonSegments poly rs closed = Some result).
Proof.
  intros Hne Hin. split.
  - destruct (@join_cases R _ poly rs closed Hin)
      as [Hc|[E|(fr & mid & lr & _ & _ & _ & _ & E)]].
    + exists poly. now apply join_noop.
    + eauto.
    + eauto.
  - rewrite split_spec by trivial. eauto.
Qed.

Lemma node_accesses_in_bounds_witness :
  [Range.mk 0 1; Range.mk 3 4; Range.mk 6 6] <> []
  /\ ranges_in 0 (QVector.size line7)
               [Range.mk 0 1; Range.mk 3 4; Range.mk 6 6]
  /\ (exists result,
        joinPolygonNodes line7 [Range.mk 0 1; Range.mk 3 4; Range.mk 6 6]
                         true = Some result)
  /\ (exists result,
        splitPolygonSegments line7
                             [Range.mk 0 1; Range.mk 3 4; Range.mk 6 6]
                             true = Some result).
Proof.
  assert (Hne : [Range.mk 0 1; Range.mk 3 4; Range.mk 6 6] <> [])
    by discriminate.
  assert (Hin : ranges_in 0 (QVector.size line7)
                          [Range.mk 0 1; Range.mk 3 4; Range.mk 6 6])
    by (vm_compute; intuition discriminate).
  split; [exact Hne|]. split; [exact Hin|].
  exact (@node_accesses_in_bounds Q _ line7 _ true Hne Hin).
Defined.

(** * Splitting segments: the theorems *)

Lemma last_cons_self {A : Type} (x : A) (l : list A) :
  List.last (x :: l) x = List.last l x.
Proof. destruct l; reflexivity. Qed.

(** C4.  On a closed shape whose first range starts at index 0 and whose
    last range ends at the last index, [splitPolygonSegments] first appends
    the midpoint of the first and the last point and then runs the loop over
    the ranges on the longer sequence; on an open shape the loop runs on the
    sequence as it is.  The result for the closed shape is the result for
    the open one followed by that seam point. *)
Theorem splitPolygonSegments_seam_point {R : Type} `{QReal R}
  (poly : QPolygonF R) (rs : RangeSet) (fr lr : Range.t) :
  hd_error rs = Some fr ->
  List.last rs fr = lr ->
  ranges_in 0 (QVector.size poly) rs ->
  Range.first fr = 0 ->
  Range.last lr = QVector.size poly - 1 ->
  exists (p q : QPointF R) (result : QPolygonF R),
    QVector.first poly = Some p /\ QVector.last poly = Some q
    /\ splitPolygonSegments poly rs true
       = doWhileDesc splitBody rs (RangeSet.begin rs) (RangeSet.end_ rs)
                     (QVector.append poly (midpoint p q))
    /\ splitPolygonSegments poly rs false
       = doWhileDesc splitBody rs (RangeSet.begin rs) (RangeSet.end_ rs) poly
    /\ splitPolygonSegments poly rs false = Some result
    /\ splitPolygonSegments poly rs true = Some (result ++ [midpoint p q]).
Proof.
  intros Hhd Hlast Hin H0 Hl.
  destruct rs as [|fr' rest]; [discriminate|].
  injection Hhd as ->. rewrite last_cons_self in Hlast.
  assert (Hn : 1 <= QVector.size poly) by (simpl in Hin; lia).
  destruct (seamPoint_Some poly Hn) as [m Em].
  unfold seamPoint in Em.
  destruct (QVector.first poly) as [p|] eqn:Ep; [|discriminate].
  destruct (QVector.last poly) as [q|] eqn:Eq; [|discriminate].
  cbn [bind] in Em. injection Em as <-.
  exists p, q, (mapRanges (fun _ s => splitAll s) 0 poly (fr :: rest)).
  split; [reflexivity|]. split; [reflexivity|].
  assert (Hseam : (Range.first fr =? 0)
                  && (Range.last (List.last rest fr)
                      =? QVector.size poly - 1) = true).
  { rewrite Hlast, H0, Hl, !Z.eqb_refl. reflexivity. }
  split.
  { unfold splitPolygonSegments. cbn [RangeSet.isEmpty].
    unfold RangeSet.deref at 1 2.
    unfold RangeSet.begin at 1, RangeSet.end_ at 1.
    cbn [length RangeSet.dec bind nth_error].
    rewrite nth_error_cons_last. cbn [bind].
    rewrite Hseam, Ep, Eq. reflexivity. }
  split; [reflexivity|].
  split; [apply split_open; [discriminate|exact Hin]|].
  rewrite split_closed by trivial.
  rewrite Hseam. unfold seamPoint. rewrite Ep, Eq. reflexivity.
Qed.

(** A closed triangle with its first and its last node selected. *)
Lemma splitPolygonSegments_seam_point_witness :
  hd_error [Range.mk 0 0; Range.mk 2 2] = Some (Range.mk 0 0)
  /\ List.last [Range.mk 0 0; Range.mk 2 2] (Range.mk 0 0) = Range.mk 2 2
  /\ ranges_in 0 (QVector.size (polygon loop3)) [Range.mk 0 0; Range.mk 2 2]
  /\ exists (p q : QPointF Q) (result : QPolygonF Q),
       QVector.first (polygon loop3) = Some p
       /\ QVector.last (polygon loop3) = Some q
       /\ splitPolygonSegments (polygon loop3)
                               [Range.mk 0 0; Range.mk 2 2] true
          = doWhileDesc splitBody [Range.mk 0 0; Range.mk 2 2]
              (RangeSet.begin [Range.mk 0 0; Range.mk 2 2])
              (RangeSet.end_ [Range.mk 0 0; Range.mk 2 2])
              (QVector.append (polygon loop3) (midpoint p q))
       /\ splitPolygonSegments (polygon loop3)
                               [Range.mk 0 0; Range.mk 2 2] false
          = doWhileDesc splitBody [Range.mk 0 0; Range.mk 2 2]
              (RangeSet.begin [Range.mk 0 0; Range.mk 2 2])
              (RangeSet.end_ [Range.mk 0 0; Range.mk 2 2])
              (polygon loop3)
       /\ splitPolygonSegments (polygon loop3)
                               [Range.mk 0 0; Range.mk 2 2] false
          = Some result
       /\ splitPolygonSegments (polygon loop3)
                               [Range.mk 0 0; Range.mk 2 2] true
          = Some (result ++ [midpoint p q]).
Proof.
  assert (Hin : ranges_in 0 (QVector.size (polygon loop3))
                          [Range.mk 0 0; Range.mk 2 2])
    by (vm_compute; intuition discriminate).
  split; [reflexivity|]. split; [reflexivity|]. split; [exact Hin|].
  exact (@splitPolygonSegments_seam_point Q _ (polygon loop3)
           [Range.mk 0 0; Range.mk 2 2] (Range.mk 0 0) (Range.mk 2 2)
           eq_refl eq_refl Hin eq_refl eq_refl).
Defined.

(** C5.  For a non-empty range set, [splitPolygonSegments] puts, in every
    range, the midpoint of each two neighbouring points between them: the
    stretch a range covers becomes [splitAll] of it, the points outside the
    ranges stay, and the seam point of a closed shape, if there is one,
    comes last.  Two points with both indexes selected become three points,
    the midpoint in the middle. *)
Theorem splitPolygonSegments_midpoints {R : Type} `{QReal R}
  (poly : QPolygonF R) (rs : RangeSet) (closed : bool) :
  rs <> [] ->
  ranges_in 0 (QVector.size poly) rs ->
  splitPolygonSegments poly rs closed
  = Some (mapRanges (fun _ seg => splitAll seg) 0 poly rs
          ++ seamExtra poly rs closed)
  /\ seamExtra poly rs false = []
  /\ forall p q : QPointF R,
       splitPolygonSegments [p; q] [Range.mk 0 1] false
       = Some [p; midpoint q p; q].
Proof.
  intros Hne Hin. split; [now apply split_spec|]. split.
  - unfold seamExtra. destruct rs; [reflexivity|].
    now destruct (seamPoint poly).
  - intros p q. reflexivity.
Qed.

(** The segment from (0,0) to (10,0) gets the point (5,0) in its middle. *)
Lemma splitPolygonSegments_midpoints_witness :
  [Range.mk 0 1] <> []
  /\ ranges_in 0 (QVector.size segment2) [Range.mk 0 1]
  /\ splitPolygonSegments segment2 [Range.mk 0 1] false
     = Some [pt 0 0; pt 5 0; pt 10 0].
Proof.
  assert (Hne : [Range.mk 0 1] <> []) by discriminate.
  assert (Hin : ranges_in 0 (QVector.size segment2) [Range.mk 0 1])
    by (vm_compute; intuition discriminate).
  split; [exact Hne|]. split; [exact Hin|].
  exact (proj1 (@splitPolygonSegments_midpoints Q _ segment2 [Range.mk 0 1]
                  false Hne Hin)).
Defined.

(** C9.  Whatever [splitPolygonSegments] returns holds the input as a
    subsequence, in the order of the input, and is at least as long; and for
    a range set over the indexes of the sequence, the empty one included, it
    returns a result. *)
Theorem splitPolygonSegments_keeps_points {R : Type} `{QReal R}
  (poly : QPolygonF R) (rs : RangeSet) (closed : bool) :
  (forall result,
     splitPolygonSegments poly rs closed = Some result ->
     Subseq poly result /\ QVector.size poly <= QVector.size result)
  /\ (ranges_in 0 (QVector.size poly) rs ->
      exists result, splitPolygonSegments poly rs closed = Some result).
Proof.
  split.
  - intros result E. apply split_Subseq in E.
    split; [exact E|now apply Subseq_size].
  - intros Hin. destruct rs as [|fr rest].
    + exists poly. reflexivity.
    + rewrite split_spec by (trivial; discriminate). eauto.
Qed.

Lemma splitPolygonSegments_keeps_points_witness :
  ranges_in 0 (QVector.size square) [Range.mk 0 1; Range.mk 3 3]
  /\ exists result,
       splitPolygonSegments square [Range.mk 0 1; Range.mk 3 3] true
       = Some result
       /\ Subseq square result
       /\ QVector.size square <= QVector.size result.
Proof.
  assert (Hin : ranges_in 0 (QVector.size square)
                          [Range.mk 0 1; Range.mk 3 3])
    by (vm_compute; intuition discriminate).
  split; [exact Hin|].
  destruct (@splitPolygonSegments_keeps_points Q _ square
              [Range.mk 0 1; Range.mk 3 3] true) as [Hsub Hex].
  destruct (Hex Hin) as [result E].
  exists result. split; [exact E|]. exact (Hsub result E).
Defined.

(** * Deleting nodes: the theorems *)

(** C7.  For a non-empty range set over the indexes of the polygon, the
    deletion loop, which goes from the last range to the first one and
    removes the slice of each, ends with the points at the unselected
    indexes, in their order; for a bezier shape the two control-point
    sequences lose the same slices.  When two points or more are left, this
    is the geometry that [deleteNodes] sets on the object. *)
Theorem deleteNodes_keeps_unselected {R : Type} `{QReal R}
  (object : MapObject R) (rs : RangeSet) (undoStack : list (UndoCommand R)) :
  rs <> [] ->
  ranges_in 0 (QVector.size (polygon object)) rs ->
  (isCurve (shape object) = true ->
   QVector.size (leftControlPoints object) = QVector.size (polygon object)
   /\ QVector.size (rightControlPoints object)
      = QVector.size (polygon object)) ->
  doWhileDesc (deleteBody (shape object)) rs
              (RangeSet.begin rs) (RangeSet.end_ rs)
              (polygon object, leftControlPoints object,
               rightControlPoints object)
  = Some (if isCurve (shape object)
          then (unselected rs (polygon object),
                unselected rs (leftControlPoints object),
                unselected rs (rightControlPoints object))
          else (unselected rs (polygon object),
                leftControlPoints object, rightControlPoints object))
  /\ (2 <= QVector.size (unselected rs (polygon object)) ->
      deleteNodes object rs undoStack
      = Some (if isCurve (shape object)
              then (mkObject (shape object)
                             (unselected rs (polygon object))
                             (unselected rs (leftControlPoints object))
                             (unselected rs (rightControlPoints object)),
                    ChangeBezier (polygon object) (leftControlPoints object)
                                 (rightControlPoints object) :: undoStack)
              else (setPolygon object (unselected rs (polygon object)),
                    ChangePolygon (polygon object) :: undoStack))).
Proof.
  intros Hne Hin Hc. split; [now apply delete_loop|].
  intros H2. unfold deleteNodes. rewrite delete_loop by trivial.
  unfold isCurve.
  destruct (Shape_eqb (shape object) Bezierline
            || Shape_eqb (shape object) Bezierloop) eqn:Ec;
    cbn [bind];
    replace (QVector.size (unselected rs (polygon object)) <? 2) with false
      by (symmetry; apply Z.ltb_ge; lia);
    rewrite ?Ec; reflexivity.
Qed.

(** Five points, the indexes 1 and 3 selected: the points of the indexes
    0, 2 and 4 are left. *)
Lemma deleteNodes_keeps_unselected_witness :
  [Range.mk 1 1; Range.mk 3 3] <> []
  /\ ranges_in 0 (QVector.size line5) [Range.mk 1 1; Range.mk 3 3]
  /\ unselected [Range.mk 1 1; Range.mk 3 3] line5
     = [pt 0 0; pt 2 0; pt 4 0]
  /\ deleteNodes (mkObject Polyline line5 [] []) [Range.mk 1 1; Range.mk 3 3]
                 []
     = Some (mkObject Polyline [pt 0 0; pt 2 0; pt 4 0] [] [],
             [ChangePolygon line5]).
Proof.
  assert (Hne : [Range.mk 1 1; Range.mk 3 3] <> []) by discriminate.
  assert (Hin : ranges_in 0 (QVector.size line5)
                          [Range.mk 1 1; Range.mk 3 3])
    by (vm_compute; intuition discriminate).
  split; [exact Hne|]. split; [exact Hin|]. split; [reflexivity|].
  refine (proj2 (@deleteNodes_keeps_unselected Q _
                   (mkObject Polyline line5 [] [])
                   [Range.mk 1 1; Range.mk 3 3] [] Hne Hin _) _).
  - intros E. discriminate E.
  - vm_compute. discriminate.
Defined.

(** C6.  When fewer than two points are left after the selected slices are
    removed, [deleteNodes] pushes the command that removes the object and
    sets no geometry on it. *)
Theorem deleteNodes_degenerate {R : Type} `{QReal R}
  (object : MapObject R) (rs : RangeSet) (undoStack : list (UndoCommand R)) :
  rs <> [] ->
  ranges_in 0 (QVector.size (polygon object)) rs ->
  (isCurve (shape object) = true ->
   QVector.size (leftControlPoints object) = QVector.size (polygon object)
   /\ QVector.size (rightControlPoints object)
      = QVector.size (polygon object)) ->
  QVector.size (unselected rs (polygon object)) < 2 ->
  deleteNodes object rs undoStack
  = Some (object, RemoveMapObject :: undoStack).
Proof.
  intros Hne Hin Hc H2. unfold deleteNodes. rewrite delete_loop by trivial.
  unfold isCurve.
  destruct (Shape_eqb (shape object) Bezierline
            || Shape_eqb (shape object) Bezierloop);
    cbn [bind];
    replace (QVector.size (unselected rs (polygon object)) <? 2) with true
      by (symmetry; apply Z.ltb_lt; lia);
    reflexivity.
Qed.

(** Three points, the indexes 0 and 1 selected: one point would be left,
    the object is removed. *)
Lemma deleteNodes_degenerate_witness :
  [Range.mk 0 1] <> []
  /\ ranges_in 0 (QVector.size line3) [Range.mk 0 1]
  /\ QVector.size (unselected [Range.mk 0 1] line3) < 2
  /\ deleteNodes (mkObject Polyline line3 [] []) [Range.mk 0 1] []
     = Some (mkObject Polyline line3 [] [], [RemoveMapObject]).
Proof.
  assert (Hne : [Range.mk 0 1] <> []) by discriminate.
  assert (Hin : ranges_in 0 (QVector.size line3) [Range.mk 0 1])
    by (vm_compute; intuition discriminate).
  assert (H2 : QVector.size (unselected [Range.mk 0 1] line3) < 2)
    by reflexivity.
  split; [exact Hne|]. split; [exact Hin|]. split; [exact H2|].
  refine (@deleteNodes_degenerate Q _ (mkObject Polyline line3 [] [])
            [Range.mk 0 1] [] Hne Hin _ H2).
  intros E. discriminate E.
Defined.

(** * The control points of bezier shapes *)

Lemma unselected_size {T : Type} rs (v w : list T) :
  ranges_in 0 (QVector.size v) rs -> QVector.size v = QVector.size w ->
  QVector.size (unselected rs v) = QVector.size (unselected rs w).
Proof.
  intros Hin E. unfold unselected.
  rewrite <- !mapRanges_delete by (rewrite <- ?E; trivial).
  rewrite !(@mapRanges_size _ _ (fun _ => 0))
    by (rewrite <- ?E; trivial).
  now rewrite E.
Qed.

Section Alignment.
Context {R : Type} `{QReal R}.
Implicit Types (poly : QPolygonF R) (object : MapObject R).

(** X6.  Deleting nodes keeps the three sequences of a bezier shape
    aligned: the object that [deleteNodes] leaves has as many left and
    right control points as polygon points. *)
Lemma deleteNodes_aligned object rs (undoStack : list (UndoCommand R)) :
  rs <> [] ->
  ranges_in 0 (QVector.size (polygon object)) rs ->
  isCurve (shape object) = true ->
  aligned object ->
  exists object' undoStack',
    deleteNodes object rs undoStack = Some (object', undoStack')
    /\ aligned object'.
Proof.
  intros Hne Hin Hc [Hl Hr]. unfold deleteNodes.
  rewrite delete_loop by (trivial; now split).
  rewrite Hc. cbn [bind]. unfold isCurve in Hc. rewrite Hc.
  destruct (QVector.size (unselected rs (polygon object)) <? 2).
  - do 2 eexists. split; [reflexivity|]. now split.
  - do 2 eexists. split; [reflexivity|].
    split; cbn; symmetry; now apply unselected_size.
Qed.

(** X7.  Joining nodes keeps the three sequences of a bezier shape
    aligned. *)
Lemma joinNodes_aligned object rs (undoStack : list (UndoCommand R)) :
  ranges_in 0 (QVector.size (polygon object)) rs ->
  isCurve (shape object) = true ->
  aligned object ->
  exists object' undoStack',
    joinNodes object rs undoStack = Some (object', undoStack')
    /\ aligned object'.
Proof.
  intros Hin Hc [Hl Hr]. unfold joinNodes.
  set (closed := Shape_eqb (shape object) Polygon
                 || Shape_eqb (shape object) Bezierloop).
  destruct (@join_size R _ (polygon object) rs closed Hin)
    as (np & Ep & Sp).
  destruct (@join_size R _ (leftControlPoints object) rs closed)
    as (nl & El & Sl); [now rewrite Hl|].
  destruct (@join_size R _ (rightControlPoints object) rs closed)
    as (nr & Er & Sr); [now rewrite Hr|].
  rewrite Ep. cbn [bind]. unfold isCurve in Hc. rewrite Hc.
  destruct (QVector.size np <? QVector.size (polygon object)).
  - rewrite El, Er. cbn [bind]. do 2 eexists. split; [reflexivity|].
    split; cbn; congruence.
  - do 2 eexists. split; [reflexivity|]. now split.
Qed.

Lemma splitAll_size (seg : QPolygonF R) :
  QVector.size (splitAll seg) = Z.max 0 (2 * QVector.size seg - 1).
Proof.
  destruct seg as [|p l]; [reflexivity|].
  unfold splitAll. rewrite !size_cons.
  assert (E : forall q, QVector.size (weave q l) = 2 * QVector.size l).
  { induction l as [|x l IH]; intros q; [reflexivity|].
    simpl weave. rewrite !size_cons, IH. lia. }
  rewrite E. pose proof (size_nonneg l). lia.
Qed.

(** The number of points of the result of a split depends on the number of
    points of the argument only. *)
Lemma split_size poly rs closed :
  ranges_in 0 (QVector.size poly) rs ->
  exists result,
    splitPolygonSegments poly rs closed = Some result
    /\ QVector.size result = splitSize (QVector.size poly) rs closed.
Proof.
  intros Hin. destruct rs as [|fr rest]; [exists poly; now split|].
  rewrite split_spec by (trivial; discriminate).
  eexists. split; [reflexivity|].
  rewrite size_app.
  rewrite (@mapRanges_size _ _ (fun k => Z.max 0 (2 * k - 1)));
    trivial; [|intros; apply splitAll_size].
  unfold splitSize, seamExtra. f_equal.
  assert (Hn : 1 <= QVector.size poly) by (simpl in Hin; lia).
  destruct (seamPoint_Some poly Hn) as [m ->].
  now destruct (closed && _ && _).
Qed.

(** X8.  Splitting the segments of a bezier line keeps the three sequences
    aligned. *)
Lemma splitSegments_bezierline_aligned object rs
  (undoStack : list (UndoCommand R)) :
  ranges_in 0 (QVector.size (polygon object)) rs ->
  shape object = Bezierline ->
  aligned object ->
  exists object' undoStack',
    splitSegments object rs undoStack = Some (object', undoStack')
    /\ aligned object'.
Proof.
  intros Hin Hs [Hl Hr]. unfold splitSegments. rewrite Hs. cbn [Shape_eqb orb].
  destruct (@split_size (polygon object) rs false Hin) as (np & Ep & Sp).
  destruct (@split_size (leftControlPoints object) rs false)
    as (nl & El & Sl); [now rewrite Hl|].
  destruct (@split_size (rightControlPoints object) rs false)
    as (nr & Er & Sr); [now rewrite Hr|].
  rewrite Ep. cbn [bind].
  destruct (QVector.size (polygon object) <? QVector.size np).
  - rewrite El, Er. cbn [bind]. do 2 eexists. split; [reflexivity|].
    split; cbn; congruence.
  - do 2 eexists. split; [reflexivity|]. now split.
Qed.

(** Splitting the segments of a bezier loop leaves its control points as
    they are, whatever happens to the polygon, whose number of points
    becomes [splitSize]. *)
Lemma splitSegments_bezierloop_controls object rs
  (undoStack : list (UndoCommand R)) :
  ranges_in 0 (QVector.size (polygon object)) rs ->
  shape object = Bezierloop ->
  exists object' undoStack',
    splitSegments object rs undoStack = Some (object', undoStack')
    /\ leftControlPoints object' = leftControlPoints object
    /\ rightControlPoints object' = rightControlPoints object
    /\ QVector.size (polygon object')
       = splitSize (QVector.size (polygon object)) rs true.
Proof.
  intros Hin Hs. unfold splitSegments. rewrite Hs. cbn [Shape_eqb orb].
  destruct (@split_size (polygon object) rs true Hin) as (np & Ep & Sp).
  rewrite Ep. cbn [bind].
  destruct (QVector.size (polygon object) <? QVector.size np) eqn:E.
  - do 2 eexists. split; [reflexivity|]. now repeat split.
  - do 2 eexists. split; [reflexivity|]. repeat split.
    apply Z.ltb_ge in E.
    pose proof (Subseq_size (split_Subseq _ _ _ Ep)). lia.
Qed.
End Alignment.

(** C3.  A bezier loop of three nodes with three left and three right
    control points, the indexes 0 and 1 selected.  [splitSegments] sets a
    polygon of four points on the object and pushes [ChangePolygon]; both
    control-point sequences keep their three points.  On a bezier line with
    the same geometry the control points get their midpoint too. *)
Theorem splitSegments_bezierloop_misaligned :
  (exists object',
     splitSegments loop3 [Range.mk 0 1] []
     = Some (object', [ChangePolygon (polygon loop3)])
     /\ QVector.size (polygon object') = 4
     /\ leftControlPoints object' = leftControlPoints loop3
     /\ rightControlPoints object' = rightControlPoints loop3
     /\ QVector.size (leftControlPoints object') = 3
     /\ QVector.size (rightControlPoints object') = 3)
  /\ (exists object',
        splitSegments
          (mkObject Bezierline (polygon loop3) (leftControlPoints loop3)
                    (rightControlPoints loop3))
          [Range.mk 0 1] []
        = Some (object',
                [ChangeBezier (polygon loop3) (leftControlPoints loop3)
                              (rightControlPoints loop3)])
        /\ QVector.size (polygon object') = 4
        /\ QVector.size (leftControlPoints object') = 4
        /\ QVector.size (rightControlPoints object') = 4).
Proof.
  split; eexists; (split; [vm_compute; reflexivity|]);
    repeat split; reflexivity.
Qed.

(** * Further properties of [joinPolygonNodes] *)

Lemma removedByJoin_nonneg rs : forall lo hi,
  ranges_in lo hi rs -> 0 <= removedByJoin rs.
Proof.
  induction rs as [|r rs IH]; intros lo hi Hin; [reflexivity|].
  simpl in Hin. destruct Hin as (_ & Hfl & _ & Hin).
  apply IH in Hin.
  change (removedByJoin (r :: rs))
    with (Range.length r - 1 + removedByJoin rs).
  unfold Range.length. lia.
Qed.

Lemma joinSize_le n rs closed :
  ranges_in 0 n rs -> joinSize n rs closed <= n.
Proof.
  intros Hin. pose proof (@removedByJoin_nonneg rs 0 n Hin) as Hr.
  unfold joinSize. destruct rs as [|fr rest]; [lia|].
  destruct (n <? 3); [lia|].
  destruct ((Range.first fr =? 0) && _); [|lia].
  destruct rest; [lia|]. destruct closed; lia.
Qed.

(** Between two cuts of the polygon, the mean that the loop body takes
    without an offset is the mean of the stretch it replaces. *)
Lemma mapRanges_mean_own {R : Type} `{QReal R} (poly : QPolygonF R) rs :
  forall pos (P Q E : QPolygonF R),
    poly = P ++ Q ++ E -> QVector.size P = pos ->
    ranges_in pos (pos + QVector.size Q) rs ->
    mapRanges (fun r _ => [joinAt poly 0 r]) pos Q rs
    = mapRanges (fun _ seg => [mean seg]) pos Q rs.
Proof.
  induction rs as [|r rs IH]; intros pos P Q E Hp HP Hin; [reflexivity|].
  simpl in Hin. destruct Hin as (Hlo & Hfl & Hhi & Hin).
  destruct (@cut3 _ Q (Range.first r - pos) (Range.length r))
    as (HQ & H1 & H2 & H3); unfold Range.length in *; try lia.
  replace (Range.first r - pos + (Range.last r - Range.first r + 1))
    with (Range.last r + 1 - pos) in * by lia.
  simpl mapRanges. unfold Range.length.
  set (Q1 := slice Q 0 (Range.first r - pos)) in *.
  set (seg := slice Q (Range.first r - pos)
                    (Range.last r - Range.first r + 1)) in *.
  set (Q2 := skipn (Z.to_nat (Range.last r + 1 - pos)) Q) in *.
  f_equal. f_equal.
  - unfold joinAt, Range.length. do 2 f_equal.
    rewrite Hp, HQ, Z.sub_0_r.
    replace (P ++ (Q1 ++ seg ++ Q2) ++ E)
      with ((P ++ Q1) ++ seg ++ (Q2 ++ E))
      by (now rewrite <- !app_assoc).
    apply slice_app_exact; [rewrite size_app; lia|exact H2].
  - apply (IH (Range.last r + 1) (P ++ Q1 ++ seg) Q2 E).
    + rewrite Hp. rewrite HQ at 1. now rewrite <- !app_assoc.
    + rewrite !size_app. lia.
    + replace (Range.last r + 1 + QVector.size Q2)
        with (pos + QVector.size Q) by lia.
      exact Hin.
Qed.

(** X1.  When no merge across the seam takes place (the first range does
    not start at index 0, or the last range does not end at the last index,
    or the shape is open and there are two ranges or more), every range is
    replaced by the mean of the points it covers and every other point
    stays in place; each range of [k] indexes costs [k - 1] points. *)
Theorem joinPolygonNodes_without_seam_merge {R : Type} `{QReal R}
  (poly : QPolygonF R) (fr : Range.t) (rest : RangeSet) (closed : bool) :
  3 <= QVector.size poly ->
  ranges_in 0 (QVector.size poly) (fr :: rest) ->
  Range.first fr <> 0
  \/ Range.last (List.last rest fr) <> QVector.size poly - 1
  \/ (rest <> [] /\ closed = false) ->
  joinPolygonNodes poly (fr :: rest) closed
  = Some (mapRanges (fun _ seg => [mean seg]) 0 poly (fr :: rest))
  /\ QVector.size (mapRanges (fun _ seg => [mean seg]) 0 poly (fr :: rest))
     = QVector.size poly - removedByJoin (fr :: rest).
Proof.
  intros Hn Hin Hc. split; [|now apply join_plain_size].
  apply join_all; trivial.
  destruct Hc as [Hc|[Hc|Hc]]; [left|left|now right].
  - apply andb_false_iff. left. now apply Z.eqb_neq.
  - apply andb_false_iff. right. now apply Z.eqb_neq.
Qed.

(** The open square with the nodes 1 and 2 selected. *)
Lemma joinPolygonNodes_without_seam_merge_witness :
  3 <= QVector.size square
  /\ ranges_in 0 (QVector.size square) [Range.mk 1 2]
  /\ joinPolygonNodes square [Range.mk 1 2] false
     = Some [pt 0 0; pt 10 5; pt 0 10].
Proof.
  assert (Hn : 3 <= QVector.size square) by (vm_compute; discriminate).
  assert (Hin : ranges_in 0 (QVector.size square) [Range.mk 1 2])
    by (vm_compute; intuition discriminate).
  split; [exact Hn|]. split; [exact Hin|].
  refine (proj1 (@joinPolygonNodes_without_seam_merge Q _ square
                   (Range.mk 1 2) [] false Hn Hin _)).
  left. discriminate.
Defined.

(** X2.  After a merge across the seam of a closed polygon whose first
    range is a single index, the result starts with the mean of the points
    of the first and the last range, and every range in between is replaced
    by the mean of the points it covers; the points outside the ranges
    stay. *)
Theorem joinPolygonNodes_seam_single_first {R : Type} `{QReal R}
  (poly : QPolygonF R) (fr : Range.t) (mid : RangeSet) (lr : Range.t) :
  3 <= QVector.size poly ->
  ranges_in 0 (QVector.size poly) (fr :: mid ++ [lr]) ->
  Range.first fr = 0 ->
  Range.last fr = 0 ->
  Range.last lr = QVector.size poly - 1 ->
  joinPolygonNodes poly (fr :: mid ++ [lr]) true
  = Some
      (mean (slice poly 0 1
             ++ slice poly (Range.first lr) (Range.length lr))
       :: mapRanges (fun _ seg => [mean seg]) 1
            (slice poly 1 (Range.first lr - 1)) mid).
Proof.
  intros Hn Hin H0 H1 Hl. rewrite join_seam by trivial.
  unfold Range.length at 1 3. rewrite H0, H1. cbn [Z.sub Z.add Z.opp].
  do 2 f_equal.
  simpl in Hin. destruct Hin as (_ & Hf & _ & Hin).
  apply ranges_in_snoc in Hin. destruct Hin as (Hmid & Hfl & Hll & _).
  rewrite H1 in *.
  destruct (@cut3 _ poly 1 (Range.first lr - 1))
    as (HQ & E1 & E2 & _); try lia.
  replace (Range.first lr - 0 - 1) with (Range.first lr - 1) by lia.
  eapply mapRanges_mean_own; [exact HQ|exact E1|].
  rewrite E2.
  replace (1 + (Range.first lr - 1)) with (Range.first lr) by lia.
  exact Hmid.
Qed.

(** Seven points in a row, the ranges [0..0], [3..4] and [6..6]: the first
    and the last point merge into (3,0), the points (3,0) and (4,0) into
    (7/2,0). *)
Lemma joinPolygonNodes_seam_single_first_witness :
  3 <= QVector.size line7
  /\ ranges_in 0 (QVector.size line7)
               (Range.mk 0 0 :: [Range.mk 3 4] ++ [Range.mk 6 6])
  /\ joinPolygonNodes line7 (Range.mk 0 0 :: [Range.mk 3 4] ++ [Range.mk 6 6])
                      true
     = Some [pt 3 0; pt 1 0; pt 2 0; mkPoint (7 # 2) 0%Q; pt 5 0].
Proof.
  assert (Hn : 3 <= QVector.size line7) by (vm_compute; discriminate).
  assert (Hin : ranges_in 0 (QVector.size line7)
                  (Range.mk 0 0 :: [Range.mk 3 4] ++ [Range.mk 6 6]))
    by (vm_compute; intuition discriminate).
  split; [exact Hn|]. split; [exact Hin|].
  exact (@joinPolygonNodes_seam_single_first Q _ line7 (Range.mk 0 0)
           [Range.mk 3 4] (Range.mk 6 6) Hn Hin eq_refl eq_refl eq_refl).
Defined.

(** X3.  [joinNodes] never makes a polygon longer, and the number of points
    it leaves depends on the number of points, the ranges and the
    closedness only.  When that number is the old one, the object and the
    undo stack stay as they are; when it is smaller, exactly one command is
    pushed. *)
Theorem joinNodes_commits_when_shorter {R : Type} `{QReal R}
  (object : MapObject R) (rs : RangeSet) (undoStack : list (UndoCommand R)) :
  ranges_in 0 (QVector.size (polygon object)) rs ->
  (isCurve (shape object) = true -> aligned object) ->
  exists object' undoStack',
    joinNodes object rs undoStack = Some (object', undoStack')
    /\ QVector.size (polygon object')
       = joinSize (QVector.size (polygon object)) rs
           (Shape_eqb (shape object) Polygon
            || Shape_eqb (shape object) Bezierloop)
    /\ QVector.size (polygon object') <= QVector.size (polygon object)
    /\ (QVector.size (polygon object') = QVector.size (polygon object) ->
        object' = object /\ undoStack' = undoStack)
    /\ (QVector.size (polygon object') < QVector.size (polygon object) ->
        exists c, undoStack' = c :: undoStack).
Proof.
  intros Hin Hal. unfold joinNodes.
  set (closed := Shape_eqb (shape object) Polygon
                 || Shape_eqb (shape object) Bezierloop).
  destruct (@join_size R _ (polygon object) rs closed Hin)
    as (np & Ep & Sp).
  pose proof (@joinSize_le (QVector.size (polygon object)) rs closed Hin)
    as Hle.
  rewrite Ep. cbn [bind].
  destruct (QVector.size np <? QVector.size (polygon object)) eqn:E.
  - apply Z.ltb_lt in E. unfold isCurve in Hal.
    destruct (Shape_eqb (shape object) Bezierline
              || Shape_eqb (shape object) Bezierloop).
    + destruct (Hal eq_refl) as [Hl Hr].
      destruct (@join_size R _ (leftControlPoints object) rs closed)
        as (nl & El & _); [now rewrite Hl|].
      destruct (@join_size R _ (rightControlPoints object) rs closed)
        as (nr & Er & _); [now rewrite Hr|].
      rewrite El, Er. cbn [bind]. do 2 eexists.
      split; [reflexivity|]. cbn [polygon setPolygon setLeftControlPoints
                                  setRightControlPoints].
      repeat split; try lia; eauto.
    + do 2 eexists. split; [reflexivity|]. cbn [polygon setPolygon].
      repeat split; try lia; eauto.
  - apply Z.ltb_ge in E. do 2 eexists. split; [reflexivity|].
    repeat split; try lia.
Qed.

Lemma joinNodes_commits_when_shorter_witness :
  ranges_in 0 (QVector.size (polygon loop3)) [Range.mk 0 1]
  /\ exists object' undoStack',
       joinNodes loop3 [Range.mk 0 1] [] = Some (object', undoStack')
       /\ QVector.size (polygon object')
          = joinSize (QVector.size (polygon loop3)) [Range.mk 0 1]
              (Shape_eqb (shape loop3) Polygon
               || Shape_eqb (shape loop3) Bezierloop)
       /\ QVector.size (polygon object') <= QVector.size (polygon loop3)
       /\ (QVector.size (polygon object') = QVector.size (polygon loop3) ->
           object' = loop3 /\ undoStack' = [])
       /\ (QVector.size (polygon object') < QVector.size (polygon loop3) ->
           exists c, undoStack' = c :: []).
Proof.
  assert (Hin : ranges_in 0 (QVector.size (polygon loop3)) [Range.mk 0 1])
    by (vm_compute; intuition discriminate).
  split; [exact Hin|].
  refine (@joinNodes_commits_when_shorter Q _ loop3 [Range.mk 0 1] [] Hin _).
  intros _. split; reflexivity.
Defined.

(** * Further properties of [splitPolygonSegments] *)

Lemma sizeAfter_split rs : forall lo hi n,
  ranges_in lo hi rs ->
  sizeAfter (fun k => Z.max 0 (2 * k - 1)) n rs = n + removedByJoin rs.
Proof.
  induction rs as [|r rs IH]; intros lo hi n Hin;
    [unfold removedByJoin; simpl; lia|].
  simpl in Hin. destruct Hin as (_ & Hfl & _ & Hin).
  change (removedByJoin (r :: rs))
    with (Range.length r - 1 + removedByJoin rs).
  cbn [sizeAfter]. rewrite (IH _ _ _ Hin). unfold Range.length. lia.
Qed.

Lemma Subseq_same_size {T : Type} (l1 l2 : list T) :
  Subseq l1 l2 -> QVector.size l1 = QVector.size l2 -> l1 = l2.
Proof.
  induction 1 as [|x l1 l2 Hs IH|x l1 l2 Hs IH]; intros E.
  - reflexivity.
  - rewrite !size_cons in E. f_equal. apply IH. lia.
  - apply Subseq_size in Hs. rewrite size_cons in E. lia.
Qed.

(** X4.  A split adds one point for every two neighbouring indexes of a
    range, and one more for the seam of a closed shape whose first range
    starts at index 0 and whose last range ends at the last index.  The
    result is the input itself exactly when nothing is added: every range
    is a single index and there is no seam point. *)
Theorem splitPolygonSegments_growth {R : Type} `{QReal R}
  (poly : QPolygonF R) (fr : Range.t) (rest : RangeSet) (closed : bool) :
  ranges_in 0 (QVector.size poly) (fr :: rest) ->
  exists result,
    splitPolygonSegments poly (fr :: rest) closed = Some result
    /\ QVector.size result
       = QVector.size poly + removedByJoin (fr :: rest)
         + (if closed && (Range.first fr =? 0)
               && (Range.last (List.last rest fr) =? QVector.size poly - 1)
            then 1 else 0)
    /\ (result = poly <->
        removedByJoin (fr :: rest) = 0
        /\ closed && (Range.first fr =? 0)
           && (Range.last (List.last rest fr) =? QVector.size poly - 1)
           = false).
Proof.
  intros Hin.
  destruct (@split_size R _ poly (fr :: rest) closed Hin) as (res & E & S).
  exists res. split; [exact E|].
  unfold splitSize in S. rewrite (@sizeAfter_split _ _ _ _ Hin) in S.
  split; [exact S|].
  pose proof (@removedByJoin_nonneg _ _ _ Hin) as Hr.
  split.
  - intros ->. destruct (closed && _ && _); split; trivial; lia.
  - intros [H0 Hs]. rewrite H0, Hs in S.
    symmetry. apply Subseq_same_size; [|lia].
    eapply split_Subseq; eassumption.
Qed.

(** The closed square with the nodes 0, 1 and 3 selected: one midpoint and
    the seam point are added. *)
Lemma splitPolygonSegments_growth_witness :
  ranges_in 0 (QVector.size square) [Range.mk 0 1; Range.mk 3 3]
  /\ exists result,
       splitPolygonSegments square [Range.mk 0 1; Range.mk 3 3] true
       = Some result
       /\ QVector.size result = QVector.size square + 1 + 1.
Proof.
  assert (Hin : ranges_in 0 (QVector.size square)
                          [Range.mk 0 1; Range.mk 3 3])
    by (vm_compute; intuition discriminate).
  split; [exact Hin|].
  destruct (@splitPolygonSegments_growth Q _ square (Range.mk 0 1)
              [Range.mk 3 3] true Hin) as (result & E & S & _).
  exists result. split; [exact E|exact S].
Defined.

(** * Further properties of [deleteNodes] *)

Lemma sizeAfter_delete rs : forall n,
  sizeAfter (fun _ => 0) n rs = n - selectedCount rs.
Proof.
  induction rs as [|r rs IH]; intros n;
    [unfold selectedCount; simpl; lia|].
  change (selectedCount (r :: rs)) with (Range.length r + selectedCount rs).
  cbn [sizeAfter]. rewrite IH. lia.
Qed.

Lemma unselected_count {T : Type} rs (v : list T) :
  ranges_in 0 (QVector.size v) rs ->
  QVector.size (unselected rs v) = QVector.size v - selectedCount rs.
Proof.
  intros Hin. unfold unselected.
  rewrite <- mapRanges_delete by trivial.
  rewrite (@mapRanges_size _ _ (fun _ => 0)) by trivial.
  apply sizeAfter_delete.
Qed.

(** X5.  [deleteNodes] pushes exactly one command for the object.  It is
    the removal of the object exactly when fewer than two indexes are left
    unselected; otherwise the polygon set on the object has as many points
    less as indexes were selected. *)
Theorem deleteNodes_one_command {R : Type} `{QReal R}
  (object : MapObject R) (rs : RangeSet) (undoStack : list (UndoCommand R)) :
  rs <> [] ->
  ranges_in 0 (QVector.size (polygon object)) rs ->
  (isCurve (shape object) = true -> aligned object) ->
  exists object' c,
    deleteNodes object rs undoStack = Some (object', c :: undoStack)
    /\ (c = RemoveMapObject <->
        QVector.size (polygon object) - selectedCount rs < 2)
    /\ (c <> RemoveMapObject ->
        QVector.size (polygon object')
        = QVector.size (polygon object) - selectedCount rs).
Proof.
  intros Hne Hin Hal. unfold deleteNodes.
  rewrite delete_loop by trivial.
  pose proof (unselected_count rs (polygon object) Hin) as Hc.
  unfold isCurve.
  destruct (Shape_eqb (shape object) Bezierline
            || Shape_eqb (shape object) Bezierloop) eqn:Ec; cbn [bind];
    destruct (QVector.size (unselected rs (polygon object)) <? 2) eqn:E;
    rewrite ?Ec;
    (apply Z.ltb_lt in E || apply Z.ltb_ge in E);
    do 2 eexists; (split; [reflexivity|]);
    cbn [polygon setPolygon setLeftControlPoints setRightControlPoints];
    split; try (split; [discriminate|lia]);
    try (split; [lia|reflexivity]);
    try (intros; exact Hc); try congruence.
Qed.

Lemma deleteNodes_one_command_witness :
  [Range.mk 1 1; Range.mk 3 3] <> []
  /\ ranges_in 0 (QVector.size line5) [Range.mk 1 1; Range.mk 3 3]
  /\ exists object' c,
       deleteNodes (mkObject Polyline line5 [] [])
                   [Range.mk 1 1; Range.mk 3 3] []
       = Some (object', c :: [])
       /\ (c = RemoveMapObject <->
           QVector.size line5 - selectedCount [Range.mk 1 1; Range.mk 3 3]
           < 2)
       /\ (c <> RemoveMapObject ->
           QVector.size (polygon object')
           = QVector.size line5
             - selectedCount [Range.mk 1 1; Range.mk 3 3]).
Proof.
  assert (Hne : [Range.mk 1 1; Range.mk 3 3] <> []) by discriminate.
  assert (Hin : ranges_in 0 (QVector.size line5)
                          [Range.mk 1 1; Range.mk 3 3])
    by (vm_compute; intuition discriminate).
  split; [exact Hne|]. split; [exact Hin|].
  refine (@deleteNodes_one_command Q _ (mkObject Polyline line5 [] [])
            [Range.mk 1 1; Range.mk 3 3] [] Hne Hin _).
  intros E. discriminate E.
Defined.

(** * The control points of bezier shapes: examples *)

Lemma deleteNodes_aligned_witness :
  [Range.mk 1 1] <> []
  /\ ranges_in 0 (QVector.size (polygon loop3)) [Range.mk 1 1]
  /\ isCurve (shape loop3) = true
  /\ aligned loop3
  /\ exists object' undoStack',
       deleteNodes loop3 [Range.mk 1 1] [] = Some (object', undoStack')
       /\ aligned object'.
Proof.
  assert (Hne : [Range.mk 1 1] <> []) by discriminate.
  assert (Hin : ranges_in 0 (QVector.size (polygon loop3)) [Range.mk 1 1])
    by (vm_compute; intuition discriminate).
  assert (Hc : isCurve (shape loop3) = true) by reflexivity.
  assert (Hal : aligned loop3) by (split; reflexivity).
  split; [exact Hne|]. split; [exact Hin|]. split; [exact Hc|].
  split; [exact Hal|].
  exact (@deleteNodes_aligned Q loop3 [Range.mk 1 1] [] Hne Hin Hc Hal).
Defined.

Lemma joinNodes_aligned_witness :
  ranges_in 0 (QVector.size (polygon loop3)) [Range.mk 0 1]
  /\ isCurve (shape loop3) = true
  /\ aligned loop3
  /\ exists object' undoStack',
       joinNodes loop3 [Range.mk 0 1] [] = Some (object', undoStack')
       /\ aligned object'.
Proof.
  assert (Hin : ranges_in 0 (QVector.size (polygon loop3)) [Range.mk 0 1])
    by (vm_compute; intuition discriminate).
  assert (Hc : isCurve (shape loop3) = true) by reflexivity.
  assert (Hal : aligned loop3) by (split; reflexivity).
  split; [exact Hin|]. split; [exact Hc|]. split; [exact Hal|].
  exact (@joinNodes_aligned Q _ loop3 [Range.mk 0 1] [] Hin Hc Hal).
Defined.

Lemma splitSegments_bezierline_aligned_witness :
  ranges_in 0 (QVector.size (polygon bline3)) [Range.mk 0 1]
  /\ shape bline3 = Bezierline
  /\ aligned bline3
  /\ exists object' undoStack',
       splitSegments bline3 [Range.mk 0 1] [] = Some (object', undoStack')
       /\ aligned object'.
Proof.
  assert (Hin : ranges_in 0 (QVector.size (polygon bline3)) [Range.mk 0 1])
    by (vm_compute; intuition discriminate).
  assert (Hal : aligned bline3) by (split; reflexivity).
  split; [exact Hin|]. split; [reflexivity|]. split; [exact Hal|].
  exact (@splitSegments_bezierline_aligned Q _ bline3 [Range.mk 0 1] []
           Hin eq_refl Hal).
Defined.

(** * The selection of handles *)

Lemma contains_In (s : HandleSet) (h : nat) :
  contains s h = true <-> In h s.
Proof.
  unfold contains. rewrite existsb_exists. split.
  - intros (x & Hx & E). apply Nat.eqb_eq in E. now subst.
  - intros Hin. exists h. split; [trivial|apply Nat.eqb_refl].
Qed.

Lemma fold_setSelected (c : nat -> bool) (b : bool) (l : HandleSet) :
  forall (memory : nat -> PointHandle) (h : nat),
    let memory' :=
      fold_left (fun m x => if c x then setSelected x b m else m) l memory in
    isSelected (memory' h)
    = (if existsb (fun x => Nat.eqb h x && c x) l then b
       else isSelected (memory h))
    /\ mapObject (memory' h) = mapObject (memory h)
    /\ pointIndex (memory' h) = pointIndex (memory h).
Proof.
  induction l as [|x l IH]; intros memory h; [now repeat split|].
  cbn [fold_left existsb]. cbv zeta in IH |- *.
  destruct (IH (if c x then setSelected x b memory else memory) h)
    as (E1 & E2 & E3).
  rewrite E1, E2, E3. clear E1 E2 E3 IH.
  destruct (c x); [|rewrite andb_false_r; now repeat split].
  unfold setSelected. rewrite andb_true_r.
  destruct (Nat.eqb h x) eqn:E; cbn [orb isSelected mapObject pointIndex].
  - repeat split. now destruct (existsb _ l).
  - now repeat split.
Qed.

(** X9.  When the selection flag of every handle says whether the handle
    is in [mSelectedHandles], it still does so after [setSelectedHandles]:
    the flag is set exactly for the handles of the new set.  The object and
    the point index of a handle are not changed. *)
Theorem setSelectedHandles_flags (handles mSelectedHandles : HandleSet)
  (memory : nat -> PointHandle) :
  (forall h, isSelected (memory h) = true <-> In h mSelectedHandles) ->
  fst (setSelectedHandles handles (mSelectedHandles, memory)) = handles
  /\ forall h,
       let memory' :=
         snd (setSelectedHandles handles (mSelectedHandles, memory)) in
       (isSelected (memory' h) = true <-> In h handles)
       /\ mapObject (memory' h) = mapObject (memory h)
       /\ pointIndex (memory' h) = pointIndex (memory h).
Proof.
  intros Hinv. split; [reflexivity|]. intros h. cbv zeta.
  unfold setSelectedHandles. cbn [snd].
  match goal with
  | |- context [fold_left ?f handles ?m1] =>
      destruct (@fold_setSelected
                  (fun x => negb (contains mSelectedHandles x)) true
                  handles m1 h) as (E1 & E2 & E3)
  end.
  cbv zeta in E1, E2, E3. rewrite E1, E2, E3. clear E1 E2 E3.
  destruct (@fold_setSelected (fun x => negb (contains handles x)) false
              mSelectedHandles memory h) as (F1 & F2 & F3).
  cbv zeta in F1, F2, F3. rewrite F1, F2, F3. clear F1 F2 F3.
  split; [|now split].
  destruct (contains handles h) eqn:Ch, (contains mSelectedHandles h) eqn:Cs.
  - (* in both sets: the flag stays *)
    assert (E1 : existsb (fun x => Nat.eqb h x
                                   && negb (contains mSelectedHandles x))
                         handles = false).
    { apply not_true_iff_false. rewrite existsb_exists.
      intros (x & _ & E). apply andb_true_iff in E. destruct E as [E1 E2].
      apply Nat.eqb_eq in E1. subst. now rewrite Cs in E2. }
    assert (E2 : existsb (fun x => Nat.eqb h x && negb (contains handles x))
                         mSelectedHandles = false).
    { apply not_true_iff_false. rewrite existsb_exists.
      intros (x & _ & E). apply andb_true_iff in E. destruct E as [E3 E4].
      apply Nat.eqb_eq in E3. subst. now rewrite Ch in E4. }
    rewrite E1, E2. apply contains_In in Ch, Cs.
    split; [trivial|]. intros _. now apply Hinv.
  - (* new in the selection: the flag is set *)
    assert (E1 : existsb (fun x => Nat.eqb h x
                                   && negb (contains mSelectedHandles x))
                         handles = true).
    { apply existsb_exists. exists h. apply contains_In in Ch.
      split; [trivial|]. now rewrite Nat.eqb_refl, Cs. }
    rewrite E1. apply contains_In in Ch. now split.
  - (* no longer in the selection: the flag is cleared *)
    assert (E1 : existsb (fun x => Nat.eqb h x
                                   && negb (contains mSelectedHandles x))
                         handles = false).
    { apply not_true_iff_false. rewrite existsb_exists.
      intros (x & _ & E). apply andb_true_iff in E. destruct E as [E1 E2].
      apply Nat.eqb_eq in E1. subst. now rewrite Cs in E2. }
    assert (E2 : existsb (fun x => Nat.eqb h x && negb (contains handles x))
                         mSelectedHandles = true).
    { apply existsb_exists. exists h. apply contains_In in Cs.
      split; [trivial|]. now rewrite Nat.eqb_refl, Ch. }
    rewrite E1, E2. split; [discriminate|].
    intros Hin. apply contains_In in Hin. congruence.
  - (* in neither set: the flag stays clear *)
    assert (E1 : existsb (fun x => Nat.eqb h x
                                   && negb (contains mSelectedHandles x))
                         handles = false).
    { apply not_true_iff_false. rewrite existsb_exists.
      intros (x & Hx & E). apply andb_true_iff in E. destruct E as [E1 _].
      apply Nat.eqb_eq in E1. subst. apply contains_In in Hx. congruence. }
    assert (E2 : existsb (fun x => Nat.eqb h x && negb (contains handles x))
                         mSelectedHandles = false).
    { apply not_true_iff_false. rewrite existsb_exists.
      intros (x & Hx & E). apply andb_true_iff in E. destruct E as [E3 _].
      apply Nat.eqb_eq in E3. subst. apply contains_In in Hx. congruence. }
    rewrite E1, E2. split.
    + intros E. apply Hinv in E. apply contains_In in E. congruence.
    + intros Hin. apply contains_In in Hin. congruence.
Qed.

(** The handles 1 and 2 are selected; the new selection is 2 and 3. *)
Lemma setSelectedHandles_flags_witness :
  (forall h, isSelected (handles12 h) = true <-> In h [1; 2]%nat)
  /\ fst (setSelectedHandles [2; 3]%nat ([1; 2]%nat, handles12))
     = [2; 3]%nat
  /\ forall h,
       let memory' :=
         snd (setSelectedHandles [2; 3]%nat ([1; 2]%nat, handles12)) in
       (isSelected (memory' h) = true <-> In h [2; 3]%nat)
       /\ mapObject (memory' h) = mapObject (handles12 h)
       /\ pointIndex (memory' h) = pointIndex (handles12 h).
Proof.
  assert (Hinv : forall h,
             isSelected (handles12 h) = true <-> In h [1; 2]%nat).
  { intros h. unfold handles12. cbn [isSelected In].
    rewrite orb_true_iff, !Nat.eqb_eq. intuition. }
  split; [exact Hinv|].
  exact (@setSelectedHandles_flags [2; 3]%nat [1; 2]%nat handles12 Hinv).
Defined.

(** * Facts on maps and on the invariant of range sets *)

Section QMapFacts.
Context {V : Type}.
Variable d : V.
Implicit Types (m : QMap.t V).

Lemma keysFrom_weaken m : forall lo lo',
  (lo' <= lo)%nat -> keysFrom lo m -> keysFrom lo' m.
Proof.
  destruct m as [|[k v] m]; simpl; [trivial|].
  intros lo lo' Hle [H1 H2]. split; [lia|exact H2].
Qed.

Lemma value_below m : forall lo key,
  keysFrom lo m -> (key < lo)%nat -> QMap.value d m key = d.
Proof.
  induction m as [|[k v] m IH]; intros lo key Hk Hlt; [reflexivity|].
  simpl in Hk. destruct Hk as [H1 H2]. cbn [QMap.value].
  replace (Nat.eqb k key) with false by (symmetry; apply Nat.eqb_neq; lia).
  apply (IH (S k)); [exact H2|lia].
Qed.

Lemma modify_keysFrom (f : V -> V) m : forall lo key,
  keysFrom lo m -> keysFrom (Nat.min lo key) (QMap.modify d f m key).
Proof.
  induction m as [|[k v] m IH]; intros lo key Hk.
  - simpl. split; [lia|trivial].
  - simpl in Hk. destruct Hk as [H1 H2]. cbn [QMap.modify].
    destruct (Nat.ltb key k) eqn:E1.
    + apply Nat.ltb_lt in E1. simpl. repeat split; try lia.
      apply keysFrom_weaken with (lo := S k); [lia|exact H2].
    + apply Nat.ltb_ge in E1. destruct (Nat.eqb key k) eqn:E2.
      * simpl. split; [lia|exact H2].
      * apply Nat.eqb_neq in E2. simpl. split; [lia|].
        apply keysFrom_weaken with (lo := Nat.min (S k) key); [lia|].
        now apply IH.
Qed.

Lemma value_modify (f : V -> V) m : forall lo key k,
  keysFrom lo m ->
  QMap.value d (QMap.modify d f m key) k
  = if Nat.eqb k key then f (QMap.value d m key) else QMap.value d m k.
Proof.
  induction m as [|[k0 v] m IH]; intros lo key k Hk.
  - cbn [QMap.modify QMap.value]. rewrite (Nat.eqb_sym key k).
    now destruct (Nat.eqb k key).
  - simpl in Hk. destruct Hk as [H1 H2]. cbn [QMap.modify].
    destruct (Nat.ltb key k0) eqn:E1.
    + apply Nat.ltb_lt in E1. cbn [QMap.value].
      rewrite (Nat.eqb_sym key k).
      destruct (Nat.eqb k key) eqn:E; [|reflexivity].
      replace (Nat.eqb k0 key) with false
        by (symmetry; apply Nat.eqb_neq; lia).
      f_equal. symmetry. apply (@value_below m (S k0)); [exact H2|lia].
    + apply Nat.ltb_ge in E1. destruct (Nat.eqb key k0) eqn:E2.
      * apply Nat.eqb_eq in E2. subst k0. cbn [QMap.value].
        rewrite Nat.eqb_refl. rewrite (Nat.eqb_sym key k).
        now destruct (Nat.eqb k key).
      * cbn [QMap.value]. rewrite (IH (S k0)) by exact H2.
        rewrite (Nat.eqb_sym k0 key), E2.
        destruct (Nat.eqb k key) eqn:E; [|reflexivity].
        apply Nat.eqb_eq in E. subst k.
        now rewrite (Nat.eqb_sym k0 key), E2.
Qed.

Lemma keys_modify (f : V -> V) m : forall key k,
  In k (QMap.keys (QMap.modify d f m key)) <-> k = key \/ In k (QMap.keys m).
Proof.
  unfold QMap.keys.
  induction m as [|[k0 v] m IH]; intros key k.
  - simpl. intuition.
  - cbn [QMap.modify]. destruct (Nat.ltb key k0).
    + simpl. intuition.
    + destruct (Nat.eqb key k0) eqn:E.
      * apply Nat.eqb_eq in E. subst. simpl. intuition.
      * cbn [map fst In]. rewrite IH. intuition.
Qed.

Lemma In_keysFrom m : forall lo k v,
  keysFrom lo m -> In (k, v) m -> (lo <= k)%nat.
Proof.
  induction m as [|[k0 v0] m IH]; intros lo k v Hk Hin; [contradiction|].
  simpl in Hk. destruct Hk as [H1 H2]. destruct Hin as [E|Hin].
  - injection E as -> ->. exact H1.
  - apply (IH (S k0)) in Hin; [lia|exact H2].
Qed.

Lemma In_value m : forall lo k v,
  keysFrom lo m -> In (k, v) m -> QMap.value d m k = v.
Proof.
  induction m as [|[k0 v0] m IH]; intros lo k v Hk Hin; [contradiction|].
  simpl in Hk. destruct Hk as [H1 H2]. cbn [QMap.value].
  destruct Hin as [E|Hin].
  - injection E as -> ->. now rewrite Nat.eqb_refl.
  - pose proof (@In_keysFrom _ _ _ _ H2 Hin) as Hlt.
    replace (Nat.eqb k0 k) with false
      by (symmetry; apply Nat.eqb_neq; lia).
    apply (IH (S k0)); trivial.
Qed.

Lemma In_keys_value m : forall lo k,
  keysFrom lo m -> In k (QMap.keys m) -> In (k, QMap.value d m k) m.
Proof.
  intros lo k Hk Hin. unfold QMap.keys in Hin.
  apply in_map_iff in Hin. destruct Hin as ([k' v] & E & Hin).
  simpl in E. subst k'. now rewrite (@In_value _ _ _ _ Hk Hin).
Qed.
End QMapFacts.

Lemma gapped_weaken s : forall lo lo',
  lo' <= lo -> gapped lo s -> gapped lo' s.
Proof.
  destruct s as [|r s]; simpl; [trivial|].
  intros lo lo' Hle (H1 & H2 & H3). repeat split; trivial. lia.
Qed.

Lemma wellFormed_gapped s : wellFormed s <-> exists lo, gapped lo s.
Proof.
  destruct s as [|r s]; simpl.
  - split; [intros _; now exists 0|trivial].
  - split.
    + intros Hg. now exists (Range.first r).
    + intros (lo & H1 & H2 & H3). repeat split; trivial. lia.
Qed.

Lemma gapped_ranges_in s : forall lo lo' hi,
  gapped lo s -> lo' <= lo ->
  (forall i, selected s i = true -> i < hi) ->
  ranges_in lo' hi s.
Proof.
  induction s as [|r s IH]; intros lo lo' hi Hg Hle Hsel; [exact I|].
  simpl in Hg. destruct Hg as (H1 & H2 & H3). simpl.
  repeat split; trivial; try lia.
  - apply Hsel. unfold selected. cbn [existsb].
    replace (Range.first r <=? Range.last r) with true
      by (symmetry; apply Z.leb_le; lia).
    now rewrite Z.leb_refl.
  - apply (IH (Range.last r + 2)); trivial; try lia.
    intros i Hi. apply Hsel. unfold selected in *. cbn [existsb].
    rewrite Hi. apply orb_true_r.
Qed.

(** A range set that keeps the invariant and covers indexes of a sequence
    only meets what the three operations ask for. *)
Lemma wellFormed_ranges_in s n :
  wellFormed s ->
  (forall i, selected s i = true -> 0 <= i < n) ->
  ranges_in 0 n s.
Proof.
  intros Hw Hsel. destruct s as [|r s]; [exact I|].
  simpl in Hw.
  apply gapped_ranges_in with (lo := Range.first r); trivial.
  - destruct Hw as (_ & H2 & _).
    apply (Hsel (Range.first r)). unfold selected. cbn [existsb].
    rewrite Z.leb_refl.
    now replace (Range.first r <=? Range.last r) with true
      by (symmetry; apply Z.leb_le; lia).
  - intros i Hi. now apply Hsel.
Qed.

Ltac split_comparisons :=
  repeat match goal with
         | |- context [?a <=? ?b] => destruct (Z.leb_spec a b)
         | |- context [?a <? ?b] => destruct (Z.ltb_spec a b)
         | |- context [?a =? ?b] => destruct (Z.eqb_spec a b)
         end.

Lemma insertIndex_gapped s : forall lo v,
  gapped lo s -> gapped (Z.min lo v) (insertIndex v s).
Proof.
  induction s as [|r s IH]; intros lo v Hg.
  - simpl. lia.
  - simpl in Hg. destruct Hg as (H1 & H2 & H3). cbn [insertIndex].
    destruct (Z.ltb_spec v (Range.first r - 1)).
    { simpl. repeat split; trivial; lia. }
    destruct (Z.ltb_spec v (Range.first r)).
    { simpl. repeat split; trivial; lia. }
    destruct (Z.leb_spec v (Range.last r)).
    { simpl. repeat split; trivial; lia. }
    destruct (Z.eqb_spec v (Range.last r + 1)).
    + destruct s as [|r2 s].
      { simpl. repeat split; trivial; lia. }
      simpl in H3. destruct H3 as (G1 & G2 & G3).
      destruct (Z.eqb_spec (Range.first r2) (v + 1)); simpl;
        repeat split; trivial; lia.
    + simpl. repeat split; trivial; try lia.
      apply gapped_weaken with (lo := Z.min (Range.last r + 2) v); [lia|].
      now apply IH.
Qed.

Lemma insertIndex_selected s : forall lo v i,
  gapped lo s ->
  selected (insertIndex v s) i = (i =? v) || selected s i.
Proof.
  unfold selected.
  induction s as [|r s IH]; intros lo v i Hg.
  - cbn. split_comparisons; try lia; reflexivity.
  - simpl in Hg. destruct Hg as (H1 & H2 & H3). cbn [insertIndex].
    destruct (Z.ltb_spec v (Range.first r - 1)).
    { cbn [existsb Range.first Range.last].
      destruct (existsb _ s); split_comparisons; try lia; reflexivity. }
    destruct (Z.ltb_spec v (Range.first r)).
    { cbn [existsb Range.first Range.last].
      destruct (existsb _ s); split_comparisons; try lia; reflexivity. }
    destruct (Z.leb_spec v (Range.last r)).
    { cbn [existsb].
      destruct (existsb _ s); split_comparisons; try lia; reflexivity. }
    destruct (Z.eqb_spec v (Range.last r + 1)).
    + destruct s as [|r2 s].
      { cbn [existsb Range.first Range.last].
        split_comparisons; try lia; reflexivity. }
      simpl in H3. destruct H3 as (G1 & G2 & G3).
      destruct (Z.eqb_spec (Range.first r2) (v + 1));
        cbn [existsb Range.first Range.last];
        destruct (existsb _ s); split_comparisons; try lia; reflexivity.
    + cbn [existsb]. rewrite (IH (Range.last r + 2)) by trivial.
      destruct (existsb _ s); split_comparisons; try lia; reflexivity.
Qed.

(** The modelled [insert] meets the contract. *)
Lemma insertIndex_contract : insertContract insertIndex.
Proof.
  intros v s Hw. apply wellFormed_gapped in Hw. destruct Hw as [lo Hg].
  split.
  - apply wellFormed_gapped. exists (Z.min lo v).
    now apply insertIndex_gapped.
  - intros i. now apply (@insertIndex_selected s lo).
Qed.

(** * Grouping the selected handles by object *)

Section Grouping.
Variable insert : Z -> RangeSet -> RangeSet.
Hypothesis insert_ok : insertContract insert.
Variable memory : nat -> PointHandle.

Lemma group_snoc (handles : HandleSet) (h : nat) :
  groupIndexesByObject insert memory (handles ++ [h])
  = QMap.modify [] (insert (pointIndex (memory h)))
                (groupIndexesByObject insert memory handles)
                (mapObject (memory h)).
Proof. unfold groupIndexesByObject. now rewrite fold_left_app. Qed.

Lemma group_spec (handles : HandleSet) :
  let g := groupIndexesByObject insert memory handles in
  keysFrom 0 g
  /\ (forall k, In k (QMap.keys g) <-> hasHandle memory handles k = true)
  /\ (forall k, wellFormed (QMap.value [] g k)
                /\ forall i, selected (QMap.value [] g k) i
                             = handleAt memory handles k i).
Proof.
  induction handles as [|h handles IH] using rev_ind.
  - cbn. repeat split; trivial; try contradiction; discriminate.
  - cbv zeta in *. destruct IH as (Hk & Hkeys & Hval).
    rewrite group_snoc.
    set (g := groupIndexesByObject insert memory handles) in *.
    split; [|split].
    + apply keysFrom_weaken
        with (lo := Nat.min 0 (mapObject (memory h))); [lia|].
      now apply modify_keysFrom.
    + intros k. rewrite keys_modify, Hkeys.
      unfold hasHandle. rewrite existsb_app. cbn [existsb].
      rewrite orb_false_r, orb_true_iff, Nat.eqb_eq. intuition.
    + intros k. rewrite (@value_modify _ [] _ g 0) by trivial.
      unfold handleAt. destruct (Hval (mapObject (memory h))) as [Hw Hs].
      destruct (insert_ok (pointIndex (memory h)) _ Hw) as [Hw' Hs'].
      destruct (Nat.eqb k (mapObject (memory h))) eqn:E.
      * apply Nat.eqb_eq in E. subst k. split; [exact Hw'|].
        intros i. rewrite Hs', Hs. unfold handleAt.
        rewrite existsb_app. cbn [existsb].
        rewrite Nat.eqb_refl, orb_false_r. cbn [andb].
        rewrite (Z.eqb_sym i). apply orb_comm.
      * destruct (Hval k) as [Hwk Hsk]. split; [exact Hwk|].
        intros i. rewrite Hsk. unfold handleAt.
        rewrite existsb_app. cbn [existsb].
        rewrite (Nat.eqb_sym _ k), E. cbn [andb].
        now rewrite !orb_false_r.
Qed.
End Grouping.

Lemma hasHandle_exists memory (handles : HandleSet) key :
  hasHandle memory handles key = true <->
  exists h, In h handles /\ mapObject (memory h) = key.
Proof.
  unfold hasHandle. rewrite existsb_exists.
  split; intros (h & Hin & E); exists h; split; trivial;
    now apply Nat.eqb_eq.
Qed.

Lemma handleAt_exists memory (handles : HandleSet) key i :
  handleAt memory handles key i = true <->
  exists h, In h handles /\ mapObject (memory h) = key
            /\ pointIndex (memory h) = i.
Proof.
  unfold handleAt. rewrite existsb_exists. split.
  - intros (h & Hin & E). apply andb_true_iff in E. destruct E as [E1 E2].
    exists h. repeat split; trivial; [now apply Nat.eqb_eq|now apply Z.eqb_eq].
  - intros (h & Hin & E1 & E2). exists h. split; trivial.
    apply andb_true_iff. split; [now apply Nat.eqb_eq|now apply Z.eqb_eq].
Qed.

(** What an entry of the grouped map is. *)
Lemma group_entry insert memory (handles : HandleSet) key rs :
  insertContract insert ->
  In (key, rs) (groupIndexesByObject insert memory handles) ->
  hasHandle memory handles key = true
  /\ rs <> []
  /\ wellFormed rs
  /\ (forall i, selected rs i = handleAt memory handles key i)
  /\ (forall n,
        (forall h, In h handles -> mapObject (memory h) = key ->
                   0 <= pointIndex (memory h) < n) ->
        ranges_in 0 n rs).
Proof.
  intros Hok Hin.
  destruct (@group_spec insert Hok memory handles) as (Hk & Hkeys & Hval).
  cbv zeta in *.
  assert (Hkey : hasHandle memory handles key = true).
  { apply Hkeys. unfold QMap.keys. apply in_map_iff.
    now exists (key, rs). }
  assert (E : QMap.value [] (groupIndexesByObject insert memory handles) key
              = rs) by (eapply In_value; eassumption).
  destruct (Hval key) as [Hw Hs]. rewrite E in Hw, Hs.
  split; [exact Hkey|]. split; [|split; [exact Hw|split; [exact Hs|]]].
  - apply hasHandle_exists in Hkey. destruct Hkey as (h & Hh & Eh).
    intros ->.
    assert (Ht : handleAt memory handles key (pointIndex (memory h)) = true)
      by (apply handleAt_exists; eauto).
    rewrite <- Hs in Ht. discriminate.
  - intros n Hb. apply wellFormed_ranges_in; [exact Hw|].
    intros i Hi. rewrite Hs in Hi. apply handleAt_exists in Hi.
    destruct Hi as (h & Hh & E1 & E2). subst i. now apply Hb.
Qed.

(** X10.  When [RangeSet::insert] keeps the invariant of the class and adds
    its value to the covered indexes, [groupIndexesByObject] returns one
    entry for every object that has a handle in the set and for no other
    object, whatever the order in which the set is gone through.  The
    range set of an object is not empty, keeps the invariant, and covers
    exactly the point indexes of the handles of the object; when these are
    indexes of a sequence of [n] points, its ranges ascend, are disjoint and
    lie in [[0, n-1]]. *)
Theorem groupIndexesByObject_entries
  (insert : Z -> RangeSet -> RangeSet) (memory : nat -> PointHandle)
  (handles : HandleSet) :
  insertContract insert ->
  let g := groupIndexesByObject insert memory handles in
  keysFrom 0 g
  /\ (forall key, In key (QMap.keys g) <->
                  exists h, In h handles /\ mapObject (memory h) = key)
  /\ forall key rs,
       In (key, rs) g ->
       rs <> []
       /\ wellFormed rs
       /\ (forall i, selected rs i = true <->
                     exists h, In h handles /\ mapObject (memory h) = key
                               /\ pointIndex (memory h) = i)
       /\ (forall n,
             (forall h, In h handles -> mapObject (memory h) = key ->
                        0 <= pointIndex (memory h) < n) ->
             ranges_in 0 n rs).
Proof.
  intros Hok g.
  destruct (@group_spec insert Hok memory handles) as (Hk & Hkeys & _).
  split; [exact Hk|]. split.
  - intros key. fold g in Hkeys. rewrite Hkeys. apply hasHandle_exists.
  - intros key rs Hin.
    destruct (@group_entry insert memory handles key rs Hok Hin)
      as (_ & Hne & Hw & Hs & Hb).
    repeat split; trivial.
    + intros Hi. rewrite Hs in Hi. now apply handleAt_exists.
    + intros Hi. rewrite Hs. now apply handleAt_exists.
Qed.

(** The handles 3, 1 and 2 of the object 0: one entry, one range from 1
    to 3. *)
Lemma groupIndexesByObject_entries_witness :
  insertContract insertIndex
  /\ groupIndexesByObject insertIndex handles12 [3; 1; 2]%nat
     = [(0%nat, [Range.mk 1 3])]
  /\ keysFrom 0 (groupIndexesByObject insertIndex handles12 [3; 1; 2]%nat).
Proof.
  split; [exact insertIndex_contract|]. split; [reflexivity|].
  exact (proj1 (@groupIndexesByObject_entries insertIndex handles12
                  [3; 1; 2]%nat insertIndex_contract)).
Defined.

(** * The operations of the tool on all the selected objects *)

Section WhileHasNextFacts.
Context {R : Type} {S : Type}.
Variable body : nat -> RangeSet -> S -> option S.

(** The memory of map objects in a state of the loop. *)
Variable objs : S -> nat -> MapObject R.
Variable P : nat -> RangeSet -> MapObject R -> Prop.
Variable Q : nat -> RangeSet -> MapObject R -> MapObject R -> Prop.

Hypothesis body_ok : forall k rs st,
  P k rs (objs st k) ->
  exists st',
    body k rs st = Some st'
    /\ Q k rs (objs st k) (objs st' k)
    /\ forall j, j <> k -> objs st' j = objs st j.

(** Every object of the map is handled once, from its state before the
    loop, and no other object is touched. *)
Lemma whileHasNext_spec p : forall lo st,
  keysFrom lo p ->
  (forall k rs, In (k, rs) p -> P k rs (objs st k)) ->
  exists st',
    whileHasNext body p st = Some st'
    /\ (forall j, ~ In j (QMap.keys p) -> objs st' j = objs st j)
    /\ (forall k rs, In (k, rs) p -> Q k rs (objs st k) (objs st' k)).
Proof.
  induction p as [|[k rs] p IH]; intros lo st Hk HP.
  - exists st. repeat split; trivial. intros k rs [].
  - simpl in Hk. destruct Hk as [H1 H2].
    destruct (@body_ok k rs st) as (st1 & E1 & Q1 & F1);
      [apply HP; now left|].
    assert (Hlater : forall k' rs', In (k', rs') p -> k' <> k).
    { intros k' rs' Hin. pose proof (@In_keysFrom _ _ _ _ _ H2 Hin). lia. }
    destruct (IH (Datatypes.S k) st1 H2) as (st' & E' & F' & Q').
    { intros k' rs' Hin. rewrite F1 by (eapply Hlater; eassumption).
      apply HP. now right. }
    assert (Hk' : ~ In k (QMap.keys p)).
    { unfold QMap.keys. intros Hin. apply in_map_iff in Hin.
      destruct Hin as ([k' rs'] & E & Hin). simpl in E. subst k'.
      now apply (Hlater k rs'). }
    exists st'. cbn [whileHasNext]. rewrite E1. cbn [bind].
    split; [exact E'|]. split.
    + intros j Hj. cbn [QMap.keys map fst] in Hj.
      rewrite F'; [apply F1|]; intros E; apply Hj; [now left|now right].
    + intros k' rs' [E|Hin].
      * injection E as <- <-. now rewrite (F' k Hk').
      * rewrite <- (F1 k') by (eapply Hlater; eassumption). now apply Q'.
Qed.

(** A counted invariant of the loop. *)
Lemma whileHasNext_count (Inv : nat -> S -> Prop) :
  (forall n k rs st st',
     body k rs st = Some st' -> Inv n st -> Inv (Datatypes.S n) st') ->
  forall p n st st',
    whileHasNext body p st = Some st' -> Inv n st ->
    Inv (n + length p)%nat st'.
Proof.
  intros Hstep. induction p as [|[k rs] p IH]; intros n st st' E Hinv.
  - injection E as <-. now rewrite Nat.add_0_r.
  - cbn [whileHasNext] in E. apply bind_inv in E.
    destruct E as (st1 & E1 & E).
    cbn [length]. rewrite Nat.add_succ_r.
    apply (IH (Datatypes.S n) st1 st' E). eapply Hstep; eassumption.
Qed.
End WhileHasNextFacts.

Section ToolFacts.
Context {R : Type} `{QReal R}.
Implicit Types (objects : nat -> MapObject R) (undoStack : list (UndoEvent R)).

Lemma store_same objects key j :
  store objects key (objects key) j = objects j.
Proof.
  unfold store. destruct (Nat.eqb j key) eqn:E; [|reflexivity].
  apply Nat.eqb_eq in E. now subst.
Qed.

(** The body of the loop of the tool's [deleteNodes] does to the object
    what [deleteNodes] above says, and pushes the same command. *)
Lemma deleteNodesBody_sim key rs objects undoStack :
  match deleteNodes (objects key) rs [] with
  | Some (object', cmds) =>
      exists objects',
        deleteNodesBody key rs (objects, undoStack)
        = Some (objects', map (Push key) cmds ++ undoStack)
        /\ length cmds = 1%nat
        /\ forall j, objects' j = store objects key object' j
  | None => deleteNodesBody key rs (objects, undoStack) = None
  end.
Proof.
  unfold deleteNodes, deleteNodesBody.
  destruct (doWhileDesc _ rs _ _ _) as [[[np nl] nr]|]; cbn [bind];
    [|reflexivity].
  destruct (QVector.size np <? 2).
  - exists objects. split; [reflexivity|]. split; [reflexivity|].
    intros j. now rewrite store_same.
  - destruct (Shape_eqb (shape (objects key)) Bezierline
              || Shape_eqb (shape (objects key)) Bezierloop);
      eexists; repeat split; reflexivity.
Qed.

Lemma joinNodesBody_sim key rs objects undoStack (macroStarted : bool) :
  match joinNodes (objects key) rs [] with
  | Some (object', cmds) =>
      exists objects',
        joinNodesBody key rs (objects, undoStack, macroStarted)
        = Some (objects',
                map (Push key) cmds
                ++ (if macroStarted || isNil cmds then undoStack
                    else BeginMacro JoinNodesText :: undoStack),
                macroStarted || negb (isNil cmds))
        /\ (cmds = [] -> object' = objects key)
        /\ forall j, objects' j = store objects key object' j
  | None => joinNodesBody key rs (objects, undoStack, macroStarted) = None
  end.
Proof.
  unfold joinNodes, joinNodesBody.
  destruct (joinPolygonNodes (polygon (objects key)) rs _) as [np|];
    cbn [bind]; [|reflexivity].
  destruct (QVector.size np <? QVector.size (polygon (objects key))).
  - destruct (Shape_eqb (shape (objects key)) Bezierline
              || Shape_eqb (shape (objects key)) Bezierloop).
    + destruct (joinPolygonNodes (leftControlPoints (objects key)) rs _)
        as [nl|]; cbn [bind]; [|reflexivity].
      destruct (joinPolygonNodes (rightControlPoints (objects key)) rs _)
        as [nr|]; cbn [bind]; [|reflexivity].
      eexists. cbn [map app isNil negb length].
      rewrite !orb_false_r, orb_true_r.
      destruct macroStarted;
        (split; [reflexivity|split; [discriminate|reflexivity]]).
    + eexists. cbn [map app isNil negb length].
      rewrite !orb_false_r, orb_true_r.
      destruct macroStarted;
        (split; [reflexivity|split; [discriminate|reflexivity]]).
  - exists objects. cbn [map app isNil negb length].
    rewrite orb_true_r, orb_false_r.
    split; [reflexivity|]. split; [reflexivity|].
    intros j. now rewrite store_same.
Qed.

Lemma splitSegmentsBody_sim key rs objects undoStack (macroStarted : bool) :
  match splitSegments (objects key) rs [] with
  | Some (object', cmds) =>
      exists objects',
        splitSegmentsBody key rs (objects, undoStack, macroStarted)
        = Some (objects',
                map (Push key) cmds
                ++ (if macroStarted || isNil cmds then undoStack
                    else BeginMacro SplitSegmentsText :: undoStack),
                macroStarted || negb (isNil cmds))
        /\ (cmds = [] -> object' = objects key)
        /\ forall j, objects' j = store objects key object' j
  | None => splitSegmentsBody key rs (objects, undoStack, macroStarted) = None
  end.
Proof.
  unfold splitSegments, splitSegmentsBody.
  destruct (splitPolygonSegments (polygon (objects key)) rs _) as [np|];
    cbn [bind]; [|reflexivity].
  destruct (QVector.size (polygon (objects key)) <? QVector.size np).
  - destruct (Shape_eqb (shape (objects key)) Bezierline
              || Shape_eqb (shape (objects key)) Bezierline).
    + destruct (splitPolygonSegments (leftControlPoints (objects key)) rs _)
        as [nl|]; cbn [bind]; [|reflexivity].
      destruct (splitPolygonSegments (rightControlPoints (objects key)) rs _)
        as [nr|]; cbn [bind]; [|reflexivity].
      eexists. cbn [map app isNil negb length].
      rewrite !orb_false_r, orb_true_r.
      destruct macroStarted;
        (split; [reflexivity|split; [discriminate|reflexivity]]).
    + eexists. cbn [map app isNil negb length].
      rewrite !orb_false_r, orb_true_r.
      destruct macroStarted;
        (split; [reflexivity|split; [discriminate|reflexivity]]).
  - exists objects. cbn [map app isNil negb length].
    rewrite orb_true_r, orb_false_r.
    split; [reflexivity|]. split; [reflexivity|].
    intros j. now rewrite store_same.
Qed.
End ToolFacts.

Section MacroLoop.
Context {R : Type}.
Variable body :
  nat -> RangeSet ->
  (nat -> MapObject R) * list (UndoEvent R) * bool ->
  option ((nat -> MapObject R) * list (UndoEvent R) * bool).
Variable op :
  MapObject R -> RangeSet -> option (MapObject R * list (UndoCommand R)).
Variable text : MacroText.

Hypothesis sim : forall key rs objects undoStack (macroStarted : bool),
  match op (objects key) rs with
  | Some (object', cmds) =>
      exists objects',
        body key rs (objects, undoStack, macroStarted)
        = Some (objects',
                map (Push key) cmds
                ++ (if macroStarted || isNil cmds then undoStack
                    else BeginMacro text :: undoStack),
                macroStarted || negb (isNil cmds))
        /\ (cmds = [] -> object' = objects key)
        /\ forall j, objects' j = store objects key object' j
  | None => body key rs (objects, undoStack, macroStarted) = None
  end.

Variable P : RangeSet -> MapObject R -> Prop.
Hypothesis op_total : forall rs o,
  P rs o -> exists o' cmds, op o rs = Some (o', cmds).

Lemma macroLoop_objects p lo objects undoStack (macroStarted : bool) :
  keysFrom lo p ->
  (forall k rs, In (k, rs) p -> P rs (objects k)) ->
  exists st',
    whileHasNext body p (objects, undoStack, macroStarted) = Some st'
    /\ (forall j, ~ In j (QMap.keys p) -> fst (fst st') j = objects j)
    /\ (forall k rs, In (k, rs) p ->
                     exists cmds, op (objects k) rs
                                  = Some (fst (fst st') k, cmds)).
Proof.
  intros Hk HP.
  apply (@whileHasNext_spec R _ body (fun st => fst (fst st))
           (fun _ rs o => P rs o)
           (fun _ rs o o' => exists cmds, op o rs = Some (o', cmds)))
    with (lo := lo); trivial.
  intros k rs [[objs undo] started] Hp. cbn [fst] in *.
  destruct (op_total Hp) as (o' & cmds & E).
  pose proof (sim k rs objs undo started) as Hs. rewrite E in Hs.
  destruct Hs as (objs' & Eb & _ & Hst).
  eexists. split; [exact Eb|]. cbn [fst]. split.
  - exists cmds. rewrite Hst. unfold store. now rewrite Nat.eqb_refl.
  - intros j Hj. rewrite Hst. unfold store.
    now replace (Nat.eqb j k) with false by (symmetry; now apply Nat.eqb_neq).
Qed.

Lemma macroLoop_log p objects0 undoStack0 st' :
  whileHasNext body p (objects0, undoStack0, false) = Some st' ->
  macroInv text objects0 undoStack0 st'.
Proof.
  intros E.
  apply (@whileHasNext_count _ body
           (fun _ st => macroInv text objects0 undoStack0 st))
    with (n := 0%nat) in E; trivial.
  - clear E st'. intros _ k rs [[objs undo] started] st' E Hinv.
    pose proof (sim k rs objs undo started) as Hs.
    destruct (op (objs k) rs) as [[o' cmds]|]; [|congruence].
    destruct Hs as (objs' & Eb & Hnil & Hst).
    rewrite Eb in E. injection E as <-. unfold macroInv in *.
    destruct Hinv as [(-> & -> & Ho)|(-> & cmds0 & Hne & Hp & ->)].
    + destruct cmds as [|c cmds].
      * left. repeat split. intros key. rewrite Hst, <- Ho.
        rewrite (Hnil eq_refl). unfold store.
        destruct (Nat.eqb key k) eqn:Ek; [|reflexivity].
        apply Nat.eqb_eq in Ek. now subst.
      * right. split; [reflexivity|].
        exists (map (Push k) (c :: cmds)). cbn [isNil orb].
        split; [discriminate|]. split; [|reflexivity].
        apply forallb_forall. intros e He. apply in_map_iff in He.
        destruct He as (x & <- & _). reflexivity.
    + right. split; [reflexivity|].
      exists (map (Push k) cmds ++ cmds0). cbn [orb].
      split; [|split; [|now rewrite <- app_assoc]].
      * destruct cmds; [exact Hne|discriminate].
      * rewrite forallb_app, Hp, andb_true_r.
        apply forallb_forall. intros e He. apply in_map_iff in He.
        destruct He as (x & <- & _). reflexivity.
  - left. now repeat split.
Qed.
End MacroLoop.

Section PerObject.
Context {R : Type} `{QReal R}.
Implicit Types (o : MapObject R).

(** What [deleteNodes] leaves of an object. *)
Lemma deleteNodes_result o rs (undoStack : list (UndoCommand R)) :
  rs <> [] ->
  ranges_in 0 (QVector.size (polygon o)) rs ->
  (isCurve (shape o) = true -> aligned o) ->
  exists c,
    deleteNodes o rs undoStack
    = Some (if QVector.size (unselected rs (polygon o)) <? 2 then o
            else if isCurve (shape o)
                 then mkObject (shape o) (unselected rs (polygon o))
                               (unselected rs (leftControlPoints o))
                               (unselected rs (rightControlPoints o))
                 else setPolygon o (unselected rs (polygon o)),
            c :: undoStack).
Proof.
  intros Hne Hin Hal. unfold deleteNodes. rewrite delete_loop by trivial.
  unfold isCurve.
  destruct (Shape_eqb (shape o) Bezierline || Shape_eqb (shape o) Bezierloop)
    eqn:Ec; cbn [bind];
    destruct (QVector.size (unselected rs (polygon o)) <? 2);
    rewrite ?Ec; eexists; reflexivity.
Qed.

Lemma joinNodes_some o rs :
  ranges_in 0 (QVector.size (polygon o)) rs ->
  (isCurve (shape o) = true -> aligned o) ->
  exists o' cmds, joinNodes o rs [] = Some (o', cmds).
Proof.
  intros Hin Hal. unfold joinNodes.
  set (closed := Shape_eqb (shape o) Polygon
                 || Shape_eqb (shape o) Bezierloop).
  destruct (@join_size R _ (polygon o) rs closed Hin) as (np & Ep & _).
  rewrite Ep. cbn [bind].
  destruct (QVector.size np <? QVector.size (polygon o)); [|eauto].
  unfold isCurve in Hal.
  destruct (Shape_eqb (shape o) Bezierline || Shape_eqb (shape o) Bezierloop);
    [|eauto].
  destruct (Hal eq_refl) as [Hl Hr].
  destruct (@join_size R _ (leftControlPoints o) rs closed)
    as (nl & El & _); [now rewrite Hl|].
  destruct (@join_size R _ (rightControlPoints o) rs closed)
    as (nr & Er & _); [now rewrite Hr|].
  rewrite El, Er. cbn [bind]. eauto.
Qed.

Lemma splitSegments_some o rs :
  ranges_in 0 (QVector.size (polygon o)) rs ->
  (shape o = Bezierline -> aligned o) ->
  exists o' cmds, splitSegments o rs [] = Some (o', cmds).
Proof.
  intros Hin Hal. unfold splitSegments.
  set (closed := Shape_eqb (shape o) Polygon
                 || Shape_eqb (shape o) Bezierloop).
  destruct (@split_size R _ (polygon o) rs closed Hin) as (np & Ep & _).
  rewrite Ep. cbn [bind].
  destruct (QVector.size (polygon o) <? QVector.size np); [|eauto].
  destruct (Shape_eqb (shape o) Bezierline || Shape_eqb (shape o) Bezierline)
    eqn:Ec; [|eauto].
  assert (Es : shape o = Bezierline) by (destruct (shape o); trivial; discriminate).
  destruct (Hal Es) as [Hl Hr].
  destruct (@split_size R _ (leftControlPoints o) rs closed)
    as (nl & El & _); [now rewrite Hl|].
  destruct (@split_size R _ (rightControlPoints o) rs closed)
    as (nr & Er & _); [now rewrite Hr|].
  rewrite El, Er. cbn [bind]. eauto.
Qed.
End PerObject.

Lemma unselected_handles {T : Type} memory (handles : HandleSet) key rs
  (v : list T) :
  (forall i, selected rs i = handleAt memory handles key i) ->
  unselected rs v
  = keepIf (fun i => negb (handleAt memory handles key i)) 0 v.
Proof.
  intros Hs. unfold unselected. apply keepIf_ext.
  intros j _. now rewrite Hs.
Qed.

Lemma hasHandle_entry insert memory (handles : HandleSet) key :
  insertContract insert ->
  hasHandle memory handles key = true ->
  exists rs, In (key, rs) (groupIndexesByObject insert memory handles).
Proof.
  intros Hok Hh.
  destruct (@group_spec insert Hok memory handles) as (Hk & Hkeys & _).
  cbv zeta in *. apply Hkeys in Hh.
  exists (QMap.value [] (groupIndexesByObject insert memory handles) key).
  now apply (@In_keys_value _ [] _ 0%nat).
Qed.

Lemma no_handle_no_key insert memory (handles : HandleSet) key :
  insertContract insert ->
  hasHandle memory handles key = false ->
  ~ In key (QMap.keys (groupIndexesByObject insert memory handles)).
Proof.
  intros Hok Hh Hin.
  destruct (@group_spec insert Hok memory handles) as (_ & Hkeys & _).
  apply Hkeys in Hin. congruence.
Qed.

(** X11.  With handles selected whose point indexes are indexes of the
    polygons of their objects (and the bezier shapes among these aligned),
    the tool's [deleteNodes] returns, leaves one macro on the undo stack
    that holds one command for every object with a selected handle, and
    leaves every object without a selected handle as it is.  An object with
    selected handles keeps exactly the points that have no selected handle,
    in their order (and the control points of these, on a bezier shape);
    when fewer than two points would be left the points of the object are
    not changed. *)
Theorem deleteNodesAll_selected_nodes {R : Type} `{QReal R}
  (insert : Z -> RangeSet -> RangeSet) (memory : nat -> PointHandle)
  (handles : HandleSet) (objects : nat -> MapObject R)
  (undoStack : list (UndoEvent R)) :
  insertContract insert ->
  handles <> [] ->
  (forall h, In h handles ->
     0 <= pointIndex (memory h)
     < QVector.size (polygon (objects (mapObject (memory h))))) ->
  (forall h, In h handles ->
     isCurve (shape (objects (mapObject (memory h)))) = true ->
     aligned (objects (mapObject (memory h)))) ->
  exists objects' cmds,
    deleteNodesAll insert memory handles (objects, undoStack)
    = Some (objects',
            @EndMacro R :: cmds
              ++ @BeginMacro R (DeleteNodesText (length handles))
              :: undoStack)
    /\ forallb isPush cmds = true
    /\ length cmds = length (groupIndexesByObject insert memory handles)
    /\ forall key,
         (hasHandle memory handles key = false ->
          objects' key = objects key)
         /\ (hasHandle memory handles key = true ->
             let left := fun v : QPolygonF R =>
               keepIf (fun i => negb (handleAt memory handles key i)) 0 v in
             objects' key
             = if QVector.size (left (polygon (objects key))) <? 2
               then objects key
               else if isCurve (shape (objects key))
                    then mkObject (shape (objects key))
                           (left (polygon (objects key)))
                           (left (leftControlPoints (objects key)))
                           (left (rightControlPoints (objects key)))
                    else setPolygon (objects key)
                           (left (polygon (objects key)))).
Proof.
  intros Hok Hne Hb Hal.
  unfold deleteNodesAll.
  destruct handles as [|h0 hs] eqn:Eh; [congruence|]. rewrite <- Eh in *.
  clear Eh Hne.
  set (g := groupIndexesByObject insert memory handles).
  set (base := @BeginMacro R (DeleteNodesText (length handles)) :: undoStack).
  destruct (@group_spec insert Hok memory handles) as (Hk & _ & _).
  fold g in Hk. cbv zeta in Hk.
  (* the objects *)
  destruct (@whileHasNext_spec R _ (@deleteNodesBody R) fst
              (fun _ rs o =>
                 rs <> [] /\ ranges_in 0 (QVector.size (polygon o)) rs
                 /\ (isCurve (shape o) = true -> aligned o))
              (fun _ rs o o' =>
                 o' = if QVector.size (unselected rs (polygon o)) <? 2 then o
                      else if isCurve (shape o)
                           then mkObject (shape o) (unselected rs (polygon o))
                                  (unselected rs (leftControlPoints o))
                                  (unselected rs (rightControlPoints o))
                           else setPolygon o (unselected rs (polygon o))))
      with (p := g) (lo := 0%nat) (st := (objects, base))
    as ([objects' undo'] & E & Hframe & Heach); trivial.
  { intros k rs [objs undo] (Hne & Hin & Hc). cbn [fst] in *.
    destruct (@deleteNodes_result R (objs k) rs [] Hne Hin Hc) as [c Ec].
    pose proof (@deleteNodesBody_sim R k rs objs undo) as Hs.
    rewrite Ec in Hs. destruct Hs as (objs' & Eb & _ & Hst).
    eexists. split; [exact Eb|]. cbn [fst]. split.
    - rewrite Hst. unfold store. now rewrite Nat.eqb_refl.
    - intros j Hj. rewrite Hst. unfold store.
      now replace (Nat.eqb j k) with false
        by (symmetry; now apply Nat.eqb_neq). }
  { intros k rs Hin. cbn [fst].
    destruct (@group_entry insert memory handles k rs Hok Hin)
      as (Hh & Hne & _ & _ & Hr).
    split; [exact Hne|]. split.
    - apply Hr. intros h Hh' <-. now apply Hb.
    - apply hasHandle_exists in Hh. destruct Hh as (h & Hh' & <-).
      now apply Hal. }
  (* the undo stack *)
  assert (Hlog : exists cmds,
             undo' = cmds ++ base /\ forallb isPush cmds = true
             /\ length cmds = (0 + length g)%nat).
  { apply (@whileHasNext_count _ (@deleteNodesBody R)
             (fun n st => exists cmds,
                  snd st = cmds ++ base /\ forallb isPush cmds = true
                  /\ length cmds = n)) with (n := 0%nat) in E.
    - exact E.
    - intros n k rs [objs undo] st' Eb (cmds & E1 & E2 & E3).
      cbn [snd] in E1. subst undo.
      pose proof (@deleteNodesBody_sim R k rs objs (cmds ++ base)) as Hs.
      destruct (deleteNodes (objs k) rs []) as [[o' cs]|]; [|congruence].
      destruct Hs as (objs' & Eb' & Hlen & _).
      rewrite Eb' in Eb. injection Eb as <-.
      destruct cs as [|c [|c' cs]]; try discriminate.
      exists (Push k c :: cmds). cbn [snd map app forallb isPush andb length].
      repeat split; trivial. now rewrite E3.
    - exists []. now repeat split. }
  destruct Hlog as (cmds & -> & Hp & Hlen).
  rewrite E. cbn [bind]. exists objects', cmds.
  split; [reflexivity|]. split; [exact Hp|]. split; [exact Hlen|].
  intros key. split.
  - intros Hh. apply (Hframe key). now apply no_handle_no_key.
  - intros Hh. cbv beta zeta.
    destruct (@hasHandle_entry insert memory handles key Hok Hh)
      as [rs Hin].
    destruct (@group_entry insert memory handles key rs Hok Hin)
      as (_ & _ & _ & Hs & _).
    pose proof (Heach key rs Hin) as Hq. cbn [fst] in Hq. rewrite Hq.
    now rewrite !(@unselected_handles _ memory handles key rs) by exact Hs.
Qed.

(** The handles 1 and 3 of the polyline of five points at the address 0:
    the points of the indexes 0, 2 and 4 are left. *)
Lemma deleteNodesAll_selected_nodes_witness :
  insertContract insertIndex
  /\ [1; 3]%nat <> []
  /\ (forall h, In h [1; 3]%nat ->
        0 <= pointIndex (handles12 h)
        < QVector.size (polygon (polylines (mapObject (handles12 h)))))
  /\ exists objects' cmds,
       deleteNodesAll insertIndex handles12 [1; 3]%nat (polylines, [])
       = Some (objects',
               @EndMacro Q :: cmds ++ [@BeginMacro Q (DeleteNodesText 2)])
       /\ polygon (objects' 0%nat) = [pt 0 0; pt 2 0; pt 4 0].
Proof.
  assert (Hne : [1; 3]%nat <> []) by discriminate.
  assert (Hb : forall h, In h [1; 3]%nat ->
             0 <= pointIndex (handles12 h)
             < QVector.size (polygon (polylines (mapObject (handles12 h))))).
  { intros h [<-|[<-|[]]]; vm_compute; split; congruence. }
  split; [exact insertIndex_contract|]. split; [exact Hne|].
  split; [exact Hb|].
  destruct (@deleteNodesAll_selected_nodes Q _ insertIndex handles12
              [1; 3]%nat polylines [] insertIndex_contract Hne Hb)
    as (objects' & cmds & E & _ & _ & Hkeys).
  { intros h _ Hc. discriminate Hc. }
  exists objects', cmds. split; [exact E|].
  destruct (Hkeys 0%nat) as [_ H0]. now rewrite (H0 eq_refl).
Defined.

(** X12.  With handles selected whose point indexes are indexes of the
    polygons of their objects (and the bezier shapes among these aligned),
    the tool's [joinNodes] returns.  Either it leaves the undo stack and
    every object as they are, or it leaves one macro that holds one command
    or more: no empty macro is left.  An object without a selected handle
    is not changed; when two handles or more are selected, an object with
    selected handles becomes what [joinNodes] makes of it with the range set
    of its handles. *)
Theorem joinNodesAll_macro {R : Type} `{QReal R}
  (insert : Z -> RangeSet -> RangeSet) (memory : nat -> PointHandle)
  (handles : HandleSet) (objects : nat -> MapObject R)
  (undoStack : list (UndoEvent R)) :
  insertContract insert ->
  (forall h, In h handles ->
     0 <= pointIndex (memory h)
     < QVector.size (polygon (objects (mapObject (memory h))))) ->
  (forall h, In h handles ->
     isCurve (shape (objects (mapObject (memory h)))) = true ->
     aligned (objects (mapObject (memory h)))) ->
  exists objects' undoStack',
    joinNodesAll insert memory handles (objects, undoStack)
    = Some (objects', undoStack')
    /\ ((undoStack' = undoStack /\ forall key, objects' key = objects key)
        \/ exists cmds,
             cmds <> [] /\ forallb isPush cmds = true
             /\ undoStack'
                = @EndMacro R :: cmds
                    ++ @BeginMacro R JoinNodesText :: undoStack)
    /\ (forall key, hasHandle memory handles key = false ->
                    objects' key = objects key)
    /\ ((2 <= length handles)%nat ->
        forall key, hasHandle memory handles key = true ->
          exists rs cmds,
            In (key, rs) (groupIndexesByObject insert memory handles)
            /\ joinNodes (objects key) rs [] = Some (objects' key, cmds)).
Proof.
  intros Hok Hb Hal. unfold joinNodesAll.
  destruct (Nat.ltb_spec (length handles) 2) as [Hlt|Hge].
  { exists objects, undoStack. split; [reflexivity|].
    split; [left; now split|]. split; [reflexivity|]. lia. }
  set (g := groupIndexesByObject insert memory handles).
  destruct (@group_spec insert Hok memory handles) as (Hk & _ & _).
  fold g in Hk. cbv zeta in Hk.
  destruct (@macroLoop_objects R (@joinNodesBody R _)
              (fun o rs => joinNodes o rs []) JoinNodesText
              (@joinNodesBody_sim R _)
              (fun rs o => ranges_in 0 (QVector.size (polygon o)) rs
                           /\ (isCurve (shape o) = true -> aligned o))
              (fun rs o Hp => @joinNodes_some R _ o rs (proj1 Hp) (proj2 Hp))
              g 0%nat objects undoStack false Hk)
    as ([[objects' undo'] started'] & E & Hframe & Heach).
  { intros k rs Hin.
    destruct (@group_entry insert memory handles k rs Hok Hin)
      as (Hh & _ & _ & _ & Hr).
    split.
    - apply Hr. intros h Hh' <-. now apply Hb.
    - apply hasHandle_exists in Hh. destruct Hh as (h & Hh' & <-).
      now apply Hal. }
  pose proof (@macroLoop_log R (@joinNodesBody R _)
                (fun o rs => joinNodes o rs []) JoinNodesText
                (@joinNodesBody_sim R _) g objects undoStack _ E) as Hinv.
  rewrite E. cbn [bind fst] in *. unfold macroInv in Hinv.
  assert (Hrest :
            (forall key, hasHandle memory handles key = false ->
                         objects' key = objects key)
            /\ ((2 <= length handles)%nat ->
                forall key, hasHandle memory handles key = true ->
                  exists rs cmds,
                    In (key, rs) g
                    /\ joinNodes (objects key) rs []
                       = Some (objects' key, cmds))).
  { split.
    - intros key Hh. apply Hframe. now apply no_handle_no_key.
    - intros _ key Hh.
      destruct (@hasHandle_entry insert memory handles key Hok Hh)
        as [rs Hin].
      destruct (Heach key rs Hin) as [cmds Ec]. eauto. }
  destruct Hinv as [(-> & -> & Ho)|(-> & cmds & Hne & Hp & ->)].
  - exists objects', undoStack. split; [reflexivity|].
    split; [left; now split|exact Hrest].
  - eexists objects', _. split; [reflexivity|].
    split; [right; exists cmds; now repeat split|exact Hrest].
Qed.

(** X13.  The same holds of the tool's [splitSegments]: it returns, it
    leaves either nothing or one macro with one command or more on the undo
    stack, it does not change an object without a selected handle, and an
    object with selected handles becomes what [splitSegments] makes of it
    with the range set of its handles.  Only the bezier lines need to be
    aligned: the control points of a bezier loop are not read. *)
Theorem splitSegmentsAll_macro {R : Type} `{QReal R}
  (insert : Z -> RangeSet -> RangeSet) (memory : nat -> PointHandle)
  (handles : HandleSet) (objects : nat -> MapObject R)
  (undoStack : list (UndoEvent R)) :
  insertContract insert ->
  (forall h, In h handles ->
     0 <= pointIndex (memory h)
     < QVector.size (polygon (objects (mapObject (memory h))))) ->
  (forall h, In h handles ->
     shape (objects (mapObject (memory h))) = Bezierline ->
     aligned (objects (mapObject (memory h)))) ->
  exists objects' undoStack',
    splitSegmentsAll insert memory handles (objects, undoStack)
    = Some (objects', undoStack')
    /\ ((undoStack' = undoStack /\ forall key, objects' key = objects key)
        \/ exists cmds,
             cmds <> [] /\ forallb isPush cmds = true
             /\ undoStack'
                = @EndMacro R :: cmds
                    ++ @BeginMacro R SplitSegmentsText :: undoStack)
    /\ (forall key, hasHandle memory handles key = false ->
                    objects' key = objects key)
    /\ ((2 <= length handles)%nat ->
        forall key, hasHandle memory handles key = true ->
          exists rs cmds,
            In (key, rs) (groupIndexesByObject insert memory handles)
            /\ splitSegments (objects key) rs [] = Some (objects' key, cmds)).
Proof.
  intros Hok Hb Hal. unfold splitSegmentsAll.
  destruct (Nat.ltb_spec (length handles) 2) as [Hlt|Hge].
  { exists objects, undoStack. split; [reflexivity|].
    split; [left; now split|]. split; [reflexivity|]. lia. }
  set (g := groupIndexesByObject insert memory handles).
  destruct (@group_spec insert Hok memory handles) as (Hk & _ & _).
  fold g in Hk. cbv zeta in Hk.
  destruct (@macroLoop_objects R (@splitSegmentsBody R _)
              (fun o rs => splitSegments o rs []) SplitSegmentsText
              (@splitSegmentsBody_sim R _)
              (fun rs o => ranges_in 0 (QVector.size (polygon o)) rs
                           /\ (shape o = Bezierline -> aligned o))
              (fun rs o Hp =>
                 @splitSegments_some R _ o rs (proj1 Hp) (proj2 Hp))
              g 0%nat objects undoStack false Hk)
    as ([[objects' undo'] started'] & E & Hframe & Heach).
  { intros k rs Hin.
    destruct (@group_entry insert memory handles k rs Hok Hin)
      as (Hh & _ & _ & _ & Hr).
    split.
    - apply Hr. intros h Hh' <-. now apply Hb.
    - apply hasHandle_exists in Hh. destruct Hh as (h & Hh' & <-).
      now apply Hal. }
  pose proof (@macroLoop_log R (@splitSegmentsBody R _)
                (fun o rs => splitSegments o rs []) SplitSegmentsText
                (@splitSegmentsBody_sim R _) g objects undoStack _ E) as Hinv.
  rewrite E. cbn [bind fst] in *. unfold macroInv in Hinv.
  assert (Hrest :
            (forall key, hasHandle memory handles key = false ->
                         objects' key = objects key)
            /\ ((2 <= length handles)%nat ->
                forall key, hasHandle memory handles key = true ->
                  exists rs cmds,
                    In (key, rs) g
                    /\ splitSegments (objects key) rs []
                       = Some (objects' key, cmds))).
  { split.
    - intros key Hh. apply Hframe. now apply no_handle_no_key.
    - intros _ key Hh.
      destruct (@hasHandle_entry insert memory handles key Hok Hh)
        as [rs Hin].
      destruct (Heach key rs Hin) as [cmds Ec]. eauto. }
  destruct Hinv as [(-> & -> & Ho)|(-> & cmds & Hne & Hp & ->)].
  - exists objects', undoStack. split; [reflexivity|].
    split; [left; now split|exact Hrest].
  - eexists objects', _. split; [reflexivity|].
    split; [right; exists cmds; now repeat split|exact Hrest].
Qed.

(** The handles 1 and 2 of the polyline at the address 0. *)
Lemma joinNodesAll_macro_witness :
  insertContract insertIndex
  /\ (forall h, In h [1; 2]%nat ->
        0 <= pointIndex (handles12 h)
        < QVector.size (polygon (polylines (mapObject (handles12 h)))))
  /\ exists objects' undoStack',
       joinNodesAll insertIndex handles12 [1; 2]%nat (polylines, [])
       = Some (objects', undoStack')
       /\ forall key, hasHandle handles12 [1; 2]%nat key = false ->
                      objects' key = polylines key.
Proof.
  assert (Hb : forall h, In h [1; 2]%nat ->
             0 <= pointIndex (handles12 h)
             < QVector.size (polygon (polylines (mapObject (handles12 h))))).
  { intros h [<-|[<-|[]]]; vm_compute; split; congruence. }
  split; [exact insertIndex_contract|]. split; [exact Hb|].
  destruct (@joinNodesAll_macro Q _ insertIndex handles12 [1; 2]%nat
              polylines [] insertIndex_contract Hb)
    as (objects' & undoStack' & E & _ & Hf & _).
  { intros h _ Hc. discriminate Hc. }
  exists objects', undoStack'. split; [exact E|exact Hf].
Defined.

Lemma splitSegmentsAll_macro_witness :
  insertContract insertIndex
  /\ (forall h, In h [1; 2]%nat ->
        0 <= pointIndex (handles12 h)
        < QVector.size (polygon (polylines (mapObject (handles12 h)))))
  /\ exists objects' undoStack',
       splitSegmentsAll insertIndex handles12 [1; 2]%nat (polylines, [])
       = Some (objects', undoStack')
       /\ forall key, hasHandle handles12 [1; 2]%nat key = false ->
                      objects' key = polylines key.
Proof.
  assert (Hb : forall h, In h [1; 2]%nat ->
             0 <= pointIndex (handles12 h)
             < QVector.size (polygon (polylines (mapObject (handles12 h))))).
  { intros h [<-|[<-|[]]]; vm_compute; split; congruence. }
  split; [exact insertIndex_contract|]. split; [exact Hb|].
  destruct (@splitSegmentsAll_macro Q _ insertIndex handles12 [1; 2]%nat
              polylines [] insertIndex_contract Hb)
    as (objects' & undoStack' & E & _ & Hf & _).
  { intros h _ Hc. discriminate Hc. }
  exists objects', undoStack'. split; [exact E|exact Hf].
Defined.

(** * Deleting what a split added *)

Lemma selected_app rs1 rs2 i :
  selected (rs1 ++ rs2) i = selected rs1 i || selected rs2 i.
Proof. unfold selected. apply existsb_app. Qed.

Lemma singles_below k : forall a i,
  i < a -> selected (singles a k) i = false.
Proof.
  induction k as [|k IH]; intros a i Hi; [reflexivity|].
  unfold selected in *. cbn [singles existsb Range.first Range.last].
  rewrite IH by lia.
  replace (a <=? i) with false by (symmetry; apply Z.leb_gt; lia).
  reflexivity.
Qed.

Lemma singles_above k : forall a i,
  a + 2 * Z.of_nat k - 1 <= i -> selected (singles a k) i = false.
Proof.
  induction k as [|k IH]; intros a i Hi; [reflexivity|].
  unfold selected in *. cbn [singles existsb Range.first Range.last].
  rewrite IH by lia.
  replace (i <=? a) with false by (symmetry; apply Z.leb_gt; lia).
  now rewrite andb_false_r.
Qed.

Lemma singles_even k : forall a j,
  0 <= j < Z.of_nat k -> selected (singles a k) (a + 2 * j) = true.
Proof.
  induction k as [|k IH]; intros a j Hj; [lia|].
  unfold selected in *. cbn [singles existsb Range.first Range.last].
  destruct (Z.eq_dec j 0) as [->|Hn].
  - replace (a + 2 * 0) with a by lia. now rewrite Z.leb_refl.
  - replace (a + 2 * j) with (a + 2 + 2 * (j - 1)) by lia.
    rewrite IH by lia. apply orb_true_r.
Qed.

Lemma singles_odd k : forall a j,
  selected (singles a k) (a + 2 * j + 1) = false.
Proof.
  induction k as [|k IH]; intros a j; [reflexivity|].
  pose proof (IH (a + 2) (j - 1)) as E.
  replace (a + 2 + 2 * (j - 1) + 1) with (a + 2 * j + 1) in E by lia.
  unfold selected in *. cbn [singles existsb Range.first Range.last].
  rewrite E, orb_false_r.
  destruct (Z.leb_spec a (a + 2 * j + 1));
    destruct (Z.leb_spec (a + 2 * j + 1) a); trivial; lia.
Qed.

Lemma midpointRanges_below rs : forall lo hi shift i,
  ranges_in lo hi rs -> i <= lo + shift ->
  selected (midpointRanges shift rs) i = false.
Proof.
  induction rs as [|r rs IH]; intros lo hi shift i Hin Hi; [reflexivity|].
  simpl in Hin. destruct Hin as (H1 & H2 & H3 & H4).
  cbn [midpointRanges]. rewrite selected_app.
  rewrite singles_below by lia.
  rewrite (IH (Range.last r + 1) hi) by (trivial; lia).
  reflexivity.
Qed.

Section SplitDelete.
Context {R : Type} `{QReal R}.

Lemma keepIf_weave (sel : Z -> bool) (l : QPolygonF R) : forall p c,
  (forall j, 0 <= j < QVector.size l ->
             sel (c + 2 * j) = true /\ sel (c + 2 * j + 1) = false) ->
  keepIf (fun i => negb (sel i)) c (weave p l) = l.
Proof.
  induction l as [|q l IH]; intros p c Hs; [reflexivity|].
  rewrite size_cons in Hs. pose proof (size_nonneg l) as Hl.
  cbn [weave keepIf].
  destruct (Hs 0) as [E0 E1]; [lia|].
  replace (c + 2 * 0) with c in * by lia.
  rewrite E0, E1. cbn [negb]. f_equal.
  replace (c + 1 + 1) with (c + 2) by lia.
  apply IH. intros j Hj. destruct (Hs (j + 1)) as [F0 F1]; [lia|].
  replace (c + 2 * (j + 1)) with (c + 2 + 2 * j) in * by lia.
  now split.
Qed.

Lemma keepIf_splitAll (sel : Z -> bool) (seg : QPolygonF R) c :
  sel c = false ->
  (forall j, 0 <= j < QVector.size seg - 1 ->
             sel (c + 1 + 2 * j) = true /\ sel (c + 1 + 2 * j + 1) = false) ->
  keepIf (fun i => negb (sel i)) c (splitAll seg) = seg.
Proof.
  intros E0 Hs. destruct seg as [|p l]; [reflexivity|].
  rewrite size_cons in Hs. cbn [splitAll keepIf]. rewrite E0. cbn [negb].
  f_equal. apply keepIf_weave. intros j Hj. apply Hs. lia.
Qed.

(** Dropping the added points from the result of a split gives the
    sequence back. *)
Lemma keepIf_split rs : forall pos shift (Q : QPolygonF R),
  ranges_in pos (pos + QVector.size Q) rs ->
  keepIf (fun i => negb (selected (midpointRanges shift rs) i))
         (pos + shift)
         (mapRanges (fun _ seg => splitAll seg) pos Q rs)
  = Q.
Proof.
  induction rs as [|r rs IH]; intros pos shift Q Hin.
  - cbn [midpointRanges mapRanges]. apply keepIf_true.
  - simpl in Hin. destruct Hin as (Hlo & Hfl & Hhi & Hin).
    destruct (@cut3 _ Q (Range.first r - pos) (Range.length r))
      as (HQ & H1 & H2 & H3); unfold Range.length in *; try lia.
    replace (Range.first r - pos + (Range.last r - Range.first r + 1))
      with (Range.last r + 1 - pos) in * by lia.
    cbn [mapRanges midpointRanges]. unfold Range.length.
    set (Q1 := slice Q 0 (Range.first r - pos)) in *.
    set (seg := slice Q (Range.first r - pos)
                      (Range.last r - Range.first r + 1)) in *.
    set (Q2 := skipn (Z.to_nat (Range.last r + 1 - pos)) Q) in *.
    set (a := Range.first r) in *. set (b := Range.last r) in *.
    set (later := midpointRanges (shift + (b - a)) rs).
    rewrite HQ at 1. rewrite !keepIf_app. f_equal; [|f_equal].
    + (* before the range *)
      rewrite (@keepIf_ext _ _ (fun _ => true) Q1); [apply keepIf_true|].
      intros j Hj. rewrite selected_app.
      rewrite singles_below by lia.
      unfold later.
      rewrite (@midpointRanges_below rs (b + 1) (pos + QVector.size Q))
        by (trivial; lia).
      reflexivity.
    + (* the range *)
      apply (@keepIf_splitAll
               (fun i => selected (singles (a + shift + 1) (Z.to_nat (b - a))
                                   ++ later) i)).
      * rewrite selected_app, singles_below by lia.
        unfold later.
        rewrite (@midpointRanges_below rs (b + 1) (pos + QVector.size Q))
          by (trivial; lia).
        reflexivity.
      * intros j Hj. rewrite !selected_app. unfold later.
        rewrite !(@midpointRanges_below rs (b + 1) (pos + QVector.size Q))
          by (trivial; lia).
        rewrite !orb_false_r. split.
        -- replace (pos + shift + QVector.size Q1 + 1 + 2 * j)
             with (a + shift + 1 + 2 * j) by lia.
           apply singles_even. lia.
        -- replace (pos + shift + QVector.size Q1 + 1 + 2 * j + 1)
             with (a + shift + 1 + 2 * j + 1) by lia.
           apply singles_odd.
    + (* behind the range *)
      rewrite splitAll_size.
      replace (pos + shift + QVector.size Q1
               + Z.max 0 (2 * QVector.size seg - 1))
        with (b + 1 + (shift + (b - a))) by lia.
      rewrite <- (IH (b + 1) (shift + (b - a)) Q2) at 2.
      * apply keepIf_ext. intros j Hj. rewrite selected_app.
        rewrite singles_above by lia. reflexivity.
      * replace (b + 1 + QVector.size Q2) with (pos + QVector.size Q)
          by lia.
        exact Hin.
Qed.

Lemma ranges_in_singles k : forall a lo hi rest,
  lo < a -> a + 2 * Z.of_nat k - 2 < hi ->
  ranges_in (a + 2 * Z.of_nat k - 1) hi rest ->
  ranges_in lo hi (singles a k ++ rest).
Proof.
  induction k as [|k IH]; intros a lo hi rest Hlo Hhi Hrest.
  - cbn [singles app]. apply ranges_in_weaken with (lo := a + 2 * 0 - 1);
      [lia|exact Hrest].
  - cbn [singles app]. simpl. repeat split; try lia.
    apply IH; try lia.
    replace (a + 2 + 2 * Z.of_nat k - 1)
      with (a + 2 * Z.of_nat (Datatypes.S k) - 1) by lia.
    exact Hrest.
Qed.

Lemma midpointRanges_in rs : forall lo hi shift,
  ranges_in lo hi rs ->
  ranges_in (lo + shift) (hi + shift + removedByJoin rs)
            (midpointRanges shift rs).
Proof.
  induction rs as [|r rs IH]; intros lo hi shift Hin; [exact I|].
  pose proof Hin as Hin0.
  simpl in Hin. destruct Hin as (H1 & H2 & H3 & H4).
  pose proof (@removedByJoin_nonneg rs _ _ H4) as Hr.
  change (removedByJoin (r :: rs))
    with (Range.length r - 1 + removedByJoin rs).
  unfold Range.length. cbn [midpointRanges].
  apply ranges_in_singles; try lia.
  apply ranges_in_weaken
    with (lo := Range.last r + 1 + (shift + (Range.last r - Range.first r)));
    [lia|].
  replace (hi + shift
           + (Range.last r - Range.first r + 1 - 1 + removedByJoin rs))
    with (hi + (shift + (Range.last r - Range.first r)) + removedByJoin rs)
    by lia.
  now apply IH.
Qed.

Lemma midpointRanges_nonempty rs : forall lo hi shift,
  ranges_in lo hi rs -> 0 < removedByJoin rs ->
  midpointRanges shift rs <> [].
Proof.
  induction rs as [|r rs IH]; intros lo hi shift Hin Hpos.
  - unfold removedByJoin in Hpos. simpl in Hpos. lia.
  - simpl in Hin. destruct Hin as (H1 & H2 & H3 & H4).
    change (removedByJoin (r :: rs))
      with (Range.length r - 1 + removedByJoin rs) in Hpos.
    unfold Range.length in Hpos. cbn [midpointRanges].
    destruct (Z.to_nat (Range.last r - Range.first r)) eqn:E.
    + cbn [singles app]. apply (IH _ _ _ H4). lia.
    + discriminate.
Qed.

Lemma setPolygon_back (o : MapObject R) (p : QPolygonF R) :
  setPolygon (setPolygon o p) (polygon o) = o.
Proof. now destruct o. Qed.

Lemma removedByJoin_room rs : forall lo hi,
  ranges_in lo hi rs -> 0 < removedByJoin rs -> lo + 2 <= hi.
Proof.
  induction rs as [|r rs IH]; intros lo hi Hin Hpos.
  - unfold removedByJoin in Hpos. simpl in Hpos. lia.
  - simpl in Hin. destruct Hin as (H1 & H2 & H3 & H4).
    change (removedByJoin (r :: rs))
      with (Range.length r - 1 + removedByJoin rs) in Hpos.
    unfold Range.length in Hpos.
    destruct (Z_lt_le_dec (Range.first r) (Range.last r)); [lia|].
    assert (Hr : 0 < removedByJoin rs) by lia.
    apply (IH _ _ H4) in Hr. lia.
Qed.

(** A split of an open sequence, and what dropping the added points
    makes of its result. *)
Lemma split_back (v : QPolygonF R) (rs : RangeSet) :
  rs <> [] ->
  ranges_in 0 (QVector.size v) rs ->
  exists nv,
    splitPolygonSegments v rs false = Some nv
    /\ QVector.size nv = QVector.size v + removedByJoin rs
    /\ unselected (midpointRanges 0 rs) nv = v.
Proof.
  intros Hne Hin.
  pose proof (@split_spec R _ v rs false Hne Hin) as Esplit.
  assert (Hx : seamExtra v rs false = []).
  { unfold seamExtra. destruct rs; [reflexivity|].
    now destruct (seamPoint v). }
  rewrite Hx, app_nil_r in Esplit.
  eexists. split; [exact Esplit|]. split.
  - rewrite (@mapRanges_size _ _ (fun k => Z.max 0 (2 * k - 1)));
      trivial; [|intros; apply splitAll_size].
    now apply (@sizeAfter_split rs 0 (QVector.size v)).
  - unfold unselected. apply (@keepIf_split rs 0 0 v). exact Hin.
Qed.

(** X14.  On a polyline, and on a bezier line whose three sequences are
    aligned, deleting the nodes that [splitSegments] added gives the object
    back: when some range has two indexes or more, [splitSegments] changes
    the object, the indexes of the added points are indexes of the new
    polygon, and [deleteNodes] with these indexes sets the old polygon (and
    the old control points) again. *)
Theorem splitSegments_then_deleteNodes (o : MapObject R) (rs : RangeSet) :
  shape o = Polyline \/ (shape o = Bezierline /\ aligned o) ->
  ranges_in 0 (QVector.size (polygon o)) rs ->
  0 < removedByJoin rs ->
  exists o1 c1 c2,
    splitSegments o rs [] = Some (o1, [c1])
    /\ QVector.size (polygon o1)
       = QVector.size (polygon o) + removedByJoin rs
    /\ ranges_in 0 (QVector.size (polygon o1)) (midpointRanges 0 rs)
    /\ deleteNodes o1 (midpointRanges 0 rs) [c1] = Some (o, [c2; c1]).
Proof.
  intros Hs Hin Hpos.
  assert (Hne : rs <> []).
  { intros ->. unfold removedByJoin in Hpos. simpl in Hpos. lia. }
  destruct (@split_back (polygon o) rs Hne Hin) as (np & Ep & Sp & Bp).
  assert (Hmid : ranges_in 0 (QVector.size np) (midpointRanges 0 rs)).
  { rewrite Sp.
    pose proof (@midpointRanges_in rs 0 (QVector.size (polygon o)) 0 Hin)
      as Hm.
    now replace (QVector.size (polygon o) + 0 + removedByJoin rs)
      with (QVector.size (polygon o) + removedByJoin rs) in Hm by lia. }
  pose proof (@removedByJoin_room rs _ _ Hin Hpos) as H2.
  pose proof (@midpointRanges_nonempty rs 0 (QVector.size (polygon o)) 0
                Hin Hpos) as Hmne.
  assert (Elt : (QVector.size (polygon o) <? QVector.size np) = true)
    by (apply Z.ltb_lt; lia).
  assert (Ege : (QVector.size (polygon o) <? 2) = false)
    by (apply Z.ltb_ge; lia).
  destruct Hs as [Hs|[Hs [Hl Hr]]].
  - (* a polyline *)
    exists (setPolygon o np), (ChangePolygon (polygon o)).
    destruct (@deleteNodes_result R (setPolygon o np) (midpointRanges 0 rs)
                [ChangePolygon (polygon o)] Hmne Hmid) as [c2 Ed].
    { cbn [shape setPolygon]. rewrite Hs. discriminate. }
    exists c2. split; [|split; [exact Sp|split; [exact Hmid|]]].
    + unfold splitSegments. rewrite Hs. cbn [Shape_eqb orb].
      rewrite Ep. cbn [bind]. now rewrite Elt.
    + rewrite Ed. cbn [polygon shape setPolygon leftControlPoints
                       rightControlPoints].
      rewrite Bp, Hs, Ege.
      cbn [isCurve Shape_eqb orb]. now rewrite setPolygon_back.
  - (* a bezier line *)
    destruct o as [s p l r].
    cbn [shape polygon leftControlPoints rightControlPoints] in *.
    subst s.
    destruct (@split_back l rs Hne) as (nl & El & Sl & Bl);
      [now rewrite Hl|].
    destruct (@split_back r rs Hne) as (nr & Er & Sr & Br);
      [now rewrite Hr|].
    exists (mkObject Bezierline np nl nr), (ChangeBezier p l r).
    destruct (@deleteNodes_result R (mkObject Bezierline np nl nr)
                (midpointRanges 0 rs) [ChangeBezier p l r] Hmne Hmid)
      as [c2 Ed].
    { intros _. split; cbn [polygon leftControlPoints rightControlPoints];
        congruence. }
    exists c2. split; [|split; [exact Sp|split; [exact Hmid|]]].
    + unfold splitSegments.
      cbn [shape polygon leftControlPoints rightControlPoints
           Shape_eqb orb].
      rewrite Ep. cbn [bind]. rewrite Elt, El. cbn [bind].
      rewrite Er. reflexivity.
    + rewrite Ed. cbn [polygon shape leftControlPoints rightControlPoints].
      rewrite Bp, Bl, Br, Ege. reflexivity.
Qed.
End SplitDelete.

(** The polyline of five points with the nodes 1, 2 and 3 selected: two
    points are added, at the indexes 2 and 4, and deleting them gives the
    polyline back. *)
Lemma splitSegments_then_deleteNodes_witness :
  shape (polylines 0%nat) = Polyline
  /\ ranges_in 0 (QVector.size (polygon (polylines 0%nat))) [Range.mk 1 3]
  /\ 0 < removedByJoin [Range.mk 1 3]
  /\ midpointRanges 0 [Range.mk 1 3] = [Range.mk 2 2; Range.mk 4 4]
  /\ exists o1 c1 c2,
       splitSegments (polylines 0%nat) [Range.mk 1 3] [] = Some (o1, [c1])
       /\ deleteNodes o1 (midpointRanges 0 [Range.mk 1 3]) [c1]
          = Some (polylines 0%nat, [c2; c1]).
Proof.
  assert (Hin : ranges_in 0 (QVector.size (polygon (polylines 0%nat)))
                          [Range.mk 1 3])
    by (vm_compute; intuition discriminate).
  assert (Hpos : 0 < removedByJoin [Range.mk 1 3]) by reflexivity.
  split; [reflexivity|]. split; [exact Hin|]. split; [exact Hpos|].
  split; [reflexivity|].
  destruct (@splitSegments_then_deleteNodes Q _ (polylines 0%nat)
              [Range.mk 1 3] (or_introl eq_refl) Hin Hpos)
    as (o1 & c1 & c2 & E1 & _ & _ & E2).
  exists o1, c1, c2. split; [exact E1|exact E2].
Defined.
